(** * Three-body physics engine: a shallow embedding of [Physics], [Body]
      and the fixed-timestep loop of [App::run].

    Sources embedded here:
    - [includes/body.h], [includes/Renderer/mesh.h], [includes/Renderer/Sphere3D.h]
      (the fields the physics engine reads and writes);
    - [includes/Physics/physics.h] and [src/9.ThreeBodyProblem/src/Physics/physics.cpp];
    - [includes/application.h] (the accumulator loop and the frame loop of
      [App::run], [App::setupProgram]);
    - [src/9.ThreeBodyProblem/src/Renderer/Sphere3D.cpp] and
      [Surface3D.cpp] (the generated meshes), [camera.cpp], and from
      [renderer.cpp] what [drawSphere], [RenderFrame] and [handleMouse] do
      to bodies, timing and camera (the OpenGL calls are not modelled).

    Numbers.  The C++ code computes with [float] and [double].  This
    development idealises both as the real numbers [R]: [+ - * /] are the
    exact field operations, [glm::sqrt] is [sqrt], [glm::exp] is [exp].
    Overflow, NaN and infinities are outside the model.  A division by
    zero, which yields NaN or an infinity in the source, has no meaningful
    value here ([x / 0] is 0 in [R]); statements that depend on a quotient
    carry the hypothesis that the divisor is not zero.  Rounding is outside
    the model of the physics step.  It is inside the model of the frame
    loop, where it decides how many steps run: [fixedLoopRounded],
    [runFrameRounded] and [runFramesRounded] take the rounding of the
    [float] and [double] results as a parameter, of which [ieee] (rounding
    to nearest, ties to even) and [exactArithmetic] are instances.

    Integers.  [int] values are integers ([Z]) and an [int] expression that
    overflows has no value; [unsigned int] arithmetic wraps modulo 2^32.

    Memory.  [std::vector<Body*>] is modelled as a [list Body] addressed by
    index; the pointers of the vector are assumed pairwise distinct (as they
    are in [App::setupProgram]). *)

From Stdlib Require Import Reals Lra Lia List.
From stdpp Require Import base list.
Import ListNotations.

Open Scope R_scope.

(** ** Comparisons of reals as booleans *)

Definition Rltb (a b : R) : bool := if Rlt_dec a b then true else false.
Definition Rleb (a b : R) : bool := if Rle_dec a b then true else false.
Definition Reqb (a b : R) : bool := if Req_dec_T a b then true else false.

(** ** glm::vec3 *)

Record vec3 : Type := mkvec3 { vx : R; vy : R; vz : R }.

(** [glm::vec3(s)]: all three components equal to [s]. *)
Definition vec3_of (s : R) : vec3 := mkvec3 s s s.

(** [a + b], [a - b], [-a] on vectors. *)
Definition vadd (a b : vec3) : vec3 := mkvec3 (vx a + vx b) (vy a + vy b) (vz a + vz b).
Definition vsub (a b : vec3) : vec3 := mkvec3 (vx a - vx b) (vy a - vy b) (vz a - vz b).
Definition vneg (a : vec3) : vec3 := mkvec3 (- vx a) (- vy a) (- vz a).

(** [s * v] (scalar on the left) and [v * s] (scalar on the right). *)
Definition smulv (s : R) (v : vec3) : vec3 := mkvec3 (s * vx v) (s * vy v) (s * vz v).
Definition vmuls (v : vec3) (s : R) : vec3 := mkvec3 (vx v * s) (vy v * s) (vz v * s).

(** [v / s]: component-wise division by a scalar.  For [s = 0] the
    source yields NaN or infinite components; the value of the model there
    (the zero vector) stands for nothing in the source. *)
Definition vdivs (v : vec3) (s : R) : vec3 := mkvec3 (vx v / s) (vy v / s) (vz v / s).

(** [glm::dot], [glm::length], [glm::inversesqrt], [glm::normalize].
    [glm::normalize] of the zero vector is a vector of NaN in the source;
    the value of the model there (the zero vector) stands for nothing in
    the source, and [normalize] is to be read under the hypothesis that its
    argument is not the zero vector. *)
Definition dot (a b : vec3) : R := vx a * vx b + vy a * vy b + vz a * vz b.
Definition vlength (v : vec3) : R := sqrt (dot v v).
Definition inversesqrt (s : R) : R := 1 / sqrt s.
Definition normalize (v : vec3) : vec3 := vmuls v (inversesqrt (dot v v)).

(** [a == b] on vectors. *)
Definition vec3_eqb (a b : vec3) : bool :=
  Reqb (vx a) (vx b) && Reqb (vy a) (vy b) && Reqb (vz a) (vz b).

(** [glm::epsilonEqual(x, y, eps)] is [abs(x - y) < eps];
    [glm::all] of the three component results. *)
Definition epsilonEqual (x y eps : R) : bool := Rltb (Rabs (x - y)) eps.
Definition all_epsilonEqual (a b eps : vec3) : bool :=
  epsilonEqual (vx a) (vx b) (vx eps)
  && epsilonEqual (vy a) (vy b) (vy eps)
  && epsilonEqual (vz a) (vz b) (vz eps).

(** ** Body and the parts of Sphere it carries *)

(** [Sphere3D]: only [Radius] is read by the physics engine. *)
Record Sphere3D : Type := mkSphere3D { Radius : R }.

(** [Mesh]: only [source] is read by the physics engine. *)
Record Mesh : Type := mkMesh { source : bool }.

Record Sphere : Type := mkSphere { geometry : Sphere3D; mesh : Mesh }.

Record Body : Type := mkBody {
  sphere : Sphere;
  Mass : R;
  Position : vec3;
  Velocity : vec3;
  Acceleration : vec3;
  Force : vec3;
  vForceAccumulator : vec3;
  tracePoints : list vec3
}.

Definition getRadius (g : Sphere3D) : R := Radius g.

(** [body.sphere.mesh.source] and [body.sphere.geometry.getRadius()]. *)
Definition isSource (b : Body) : bool := source (mesh (sphere b)).
Definition bodyRadius (b : Body) : R := getRadius (geometry (sphere b)).

(** Field assignments [body.F = v]. *)
Definition set_Mass (m : R) (b : Body) : Body :=
  mkBody (sphere b) m (Position b) (Velocity b) (Acceleration b) (Force b)
         (vForceAccumulator b) (tracePoints b).
Definition set_Position (p : vec3) (b : Body) : Body :=
  mkBody (sphere b) (Mass b) p (Velocity b) (Acceleration b) (Force b)
         (vForceAccumulator b) (tracePoints b).
Definition set_Velocity (v : vec3) (b : Body) : Body :=
  mkBody (sphere b) (Mass b) (Position b) v (Acceleration b) (Force b)
         (vForceAccumulator b) (tracePoints b).
Definition set_Acceleration (a : vec3) (b : Body) : Body :=
  mkBody (sphere b) (Mass b) (Position b) (Velocity b) a (Force b)
         (vForceAccumulator b) (tracePoints b).
Definition set_Force (f : vec3) (b : Body) : Body :=
  mkBody (sphere b) (Mass b) (Position b) (Velocity b) (Acceleration b) f
         (vForceAccumulator b) (tracePoints b).
Definition set_vForceAccumulator (f : vec3) (b : Body) : Body :=
  mkBody (sphere b) (Mass b) (Position b) (Velocity b) (Acceleration b) (Force b)
         f (tracePoints b).

(** [Sphere3D::Sphere3D()] leaves [Radius] at the sentinel -1;
    [Mesh] starts with [source = false]. *)
Definition Sphere3D_default : Sphere3D := mkSphere3D (-1).
Definition Mesh_default : Mesh := mkMesh false.
Definition Sphere_default : Sphere := mkSphere Sphere3D_default Mesh_default.

(** The default member initialisers of [struct Body].  [Position] has no
    initialiser in the source, so its initial value is a parameter. *)
Definition Body_default (position : vec3) : Body :=
  mkBody Sphere_default 1 position (vec3_of 0) (vec3_of 0) (vec3_of 0) (vec3_of 0) [].

(** ** Constants of physics.h *)

Definition GRAV_CONST : R := 6.67430e-11.
Definition GRAV_FORCE : vec3 := mkvec3 0 0 0.
Definition EPSILON : R := 1e-3.

(** ** The engine object *)

Record Physics : Type := mkPhysics { Speed : R; endSim : bool }.

(** The three constructors.  Each also assigns the global [dt]; the model
    returns the engine together with that value of [dt]. *)
Definition Physics_new : Physics * R := (mkPhysics 3 false, 1 / 60).
Definition Physics_new_speed (speed : R) : Physics * R := (mkPhysics speed false, 1 / 60).
Definition Physics_new_step_speed (timeStep speed : R) : Physics * R :=
  (mkPhysics speed false, timeStep).

Definition shouldClose (this : Physics) : bool := endSim this.

(** ** Private helpers of Physics.  None of them reads or writes a member of
    the engine; [dt] is the global of physics.h. *)

Definition isZero (vector : vec3) : bool :=
  if vec3_eqb vector (vec3_of 0) then true
  else all_epsilonEqual vector (vec3_of 0) (vec3_of EPSILON).

Definition updateState (dt : R) (body : Body) : Body :=
  let body1 := set_Acceleration (vdivs (Force body) (Mass body)) body in
  let body2 := set_Velocity (vadd (Velocity body1) (vmuls (Acceleration body1) dt)) body1 in
  set_Position (vadd (Position body2) (vmuls (Velocity body2) dt)) body2.

Definition calculateDistanceSquare (sphereOne sphereTwo : Body) : R :=
  let vDistance := vsub (Position sphereTwo) (Position sphereOne) in
  dot vDistance vDistance.

Definition minDistSq : R := 1.

Definition calculateGravForce (sphereOne sphereTwo : Body) : Body * Body :=
  let fDistanceSq := calculateDistanceSquare sphereOne sphereTwo in
  if Rltb fDistanceSq (minDistSq + EPSILON) then (sphereOne, sphereTwo)
  else
    let vDirOne := normalize (vsub (Position sphereTwo) (Position sphereOne)) in
    let vDirTwo := vneg vDirOne in
    let gravForce := GRAV_CONST * ((Mass sphereOne * Mass sphereTwo) / fDistanceSq) in
    (set_vForceAccumulator (vadd (vForceAccumulator sphereOne) (smulv gravForce vDirOne)) sphereOne,
     set_vForceAccumulator (vadd (vForceAccumulator sphereTwo) (smulv gravForce vDirTwo)) sphereTwo).

Definition calculateForce (body : Body) : Body :=
  let vGravForce := smulv (Mass body) GRAV_FORCE in
  let vVelocityNormal := normalize (Velocity body) in
  let vForceAccumulator' := vForceAccumulator body in
  set_vForceAccumulator (vec3_of 0) (set_Force (vadd vGravForce vForceAccumulator') body).

Definition surfaceY : R := -2.

Definition onSurface (body : Body) : bool :=
  let rad := bodyRadius body in
  let y := vy (Position body) in
  Rleb (y - rad) (surfaceY + EPSILON).

Definition set_vy (y : R) (v : vec3) : vec3 := mkvec3 (vx v) y (vz v).

Definition processSurfaceCollision (body : Body) : Body :=
  let body1 := set_Velocity (set_vy (vy (Velocity body) * -0.8) (Velocity body)) body in
  let rad := bodyRadius body1 in
  let body2 := set_Position (set_vy (surfaceY + rad) (Position body1)) body1 in
  if Rltb (Rabs (vy (Velocity body2))) 0.1
  then set_Velocity (set_vy 0 (Velocity body2)) body2
  else body2.

Definition areColliding (sphereOne sphereTwo : Body) : bool :=
  let d := vsub (Position sphereOne) (Position sphereTwo) in
  let sqDistance := dot d d in
  let aRad := bodyRadius sphereOne in
  let bRad := bodyRadius sphereTwo in
  let tRad := aRad + bRad in
  let tRadSq := tRad * tRad in
  Rleb sqDistance (tRadSq + EPSILON).

Definition processCollision (sphereOne sphereTwo : Body) : Body * Body :=
  let collisionNormal := normalize (vsub (Position sphereTwo) (Position sphereOne)) in
  let distance := vlength (vsub (Position sphereTwo) (Position sphereOne)) in
  let radiusSum := bodyRadius sphereOne + bodyRadius sphereTwo in
  let overlap := radiusSum - distance in
  let '(one1, two1) :=
    if Rltb 0 overlap then
      let correction := vmuls collisionNormal (overlap / 2) in
      (set_Position (vsub (Position sphereOne) correction) sphereOne,
       set_Position (vadd (Position sphereTwo) correction) sphereTwo)
    else (sphereOne, sphereTwo) in
  let velOne :=
    vdivs (vadd (smulv (Mass one1 - Mass two1) (Velocity one1))
                (smulv (Mass two1 + Mass two1) (Velocity two1)))
          (Mass one1 + Mass two1) in
  let velTwo :=
    vdivs (vadd (smulv (Mass one1 + Mass two1) (Velocity one1))
                (smulv (Mass two1 - Mass one1) (Velocity two1)))
          (Mass one1 + Mass two1) in
  (set_Velocity velOne one1, set_Velocity velTwo two1).

Definition getDistance (sphereOne sphereTwo : Body) : R :=
  let d := vsub (Position sphereOne) (Position sphereTwo) in
  let sqDistance := dot d d in
  sqrt sqDistance.

(** [Physics::push] (static): an instantaneous impulse on the velocity. *)
Definition push (sphere0 : Body) (impulse : vec3) : Body :=
  set_Velocity (vadd (Velocity sphere0) impulse) sphere0.

(** ** Physics::processFrame *)

(** [bodies[i]->Force = glm::vec3(0)]. *)
Definition zeroForce (i : nat) (bodies : list Body) : list Body :=
  match bodies !! i with
  | Some body => <[i := set_Force (vec3_of 0) body]> bodies
  | None => bodies
  end.

(** One iteration of the first inner loop (gravity of body [i] with the
    later body [j]). *)
Definition gravStep (i : nat) (bodies : list Body) (j : nat) : list Body :=
  match bodies !! i, bodies !! j with
  | Some body, Some sBody =>
      if isSource sBody then bodies
      else
        let '(body', sBody') := calculateGravForce body sBody in
        <[j := sBody']> (<[i := body']> bodies)
  | _, _ => bodies
  end.

(** [for (int j = i + 1; j < bodies.size(); ++j)]: the indices visited. *)
Definition laterIndices (i : nat) (bodies : list Body) : list nat :=
  seq (S i) (length bodies - S i).

Definition gravLoop (i : nat) (bodies : list Body) : list Body :=
  fold_left (gravStep i) (laterIndices i bodies) bodies.

(** [calculateForce] then [updateState] on [bodies[i]]. *)
Definition integrate (dt : R) (i : nat) (bodies : list Body) : list Body :=
  match bodies !! i with
  | Some body => <[i := updateState dt (calculateForce body)]> bodies
  | None => bodies
  end.

(** [processSurfaceCollision] when [onSurface] holds. *)
Definition surfaceResponse (body : Body) : Body :=
  if onSurface body then processSurfaceCollision body else body.

Definition surfaceStep (i : nat) (bodies : list Body) : list Body :=
  match bodies !! i with
  | Some body => <[i := surfaceResponse body]> bodies
  | None => bodies
  end.

(** The test guarding the call of [processCollision] on [colBody] and [body]. *)
Definition collisionDue (colBody body : Body) : bool :=
  areColliding colBody body && negb (isZero (Velocity body) && isZero (Velocity colBody)).

(** One iteration of the second inner loop (collision of body [i] with the
    later body [j]). *)
Definition collideStep (i : nat) (bodies : list Body) (j : nat) : list Body :=
  match bodies !! i, bodies !! j with
  | Some body, Some colBody =>
      if isSource colBody then bodies
      else if collisionDue colBody body then
        let '(colBody', body') := processCollision colBody body in
        <[i := body']> (<[j := colBody']> bodies)
      else bodies
  | _, _ => bodies
  end.

Definition collideLoop (i : nat) (bodies : list Body) : list Body :=
  fold_left (collideStep i) (laterIndices i bodies) bodies.

(** The decay rate [vLambda] is the local constant 0 of the source. *)
Definition vLambda : R := 0.

Definition decay (dt : R) (body : Body) : Body :=
  if negb (isZero (Velocity body)) then
    let vDecayFactor := exp (- vLambda * dt) in
    set_Velocity (vmuls (Velocity body) vDecayFactor) body
  else body.

Definition decayStep (dt : R) (i : nat) (bodies : list Body) : list Body :=
  match bodies !! i with
  | Some body => <[i := decay dt body]> bodies
  | None => bodies
  end.

(** The body of the outer loop for index [i]. *)
Definition processBody (dt : R) (bodies : list Body) (i : nat) : list Body :=
  let bodies0 := zeroForce i bodies in
  match bodies0 !! i with
  | Some body =>
      if isSource body then bodies0
      else
        decayStep dt i
          (collideLoop i
             (surfaceStep i
                (integrate dt i
                   (gravLoop i bodies0))))
  | None => bodies0
  end.

(** [for (int i = 0; i < bodies.size(); ++i)]. *)
Definition processFrame (dt : R) (bodies : list Body) : list Body :=
  fold_left (processBody dt) (seq 0 (length bodies)) bodies.

(** [k] consecutive physics steps. *)
Fixpoint processFrames (k : nat) (dt : R) (bodies : list Body) : list Body :=
  match k with
  | O => bodies
  | S k' => processFrames k' dt (processFrame dt bodies)
  end.

(** ** The public operations of the engine as transitions of the whole
    simulation: the engine object, the global [dt] and the bodies. *)

Record Sim : Type := mkSim { pEngine : Physics; dt_global : R; bodies_of : list Body }.

Definition construct (c : Physics * R) (bodies : list Body) : Sim :=
  mkSim (fst c) (snd c) bodies.

Inductive EngineOp : Type :=
| OpProcessFrame
| OpPush (i : nat) (impulse : vec3)
| OpWait (sec : R)
| OpCleanup.

Definition runOp (s : Sim) (op : EngineOp) : Sim :=
  match op with
  | OpProcessFrame =>
      mkSim (pEngine s) (dt_global s) (processFrame (dt_global s) (bodies_of s))
  | OpPush i impulse =>
      match bodies_of s !! i with
      | Some b => mkSim (pEngine s) (dt_global s) (<[i := push b impulse]> (bodies_of s))
      | None => s
      end
  | OpWait _ => s
  | OpCleanup => s
  end.

Definition runOps (s : Sim) (ops : list EngineOp) : Sim := fold_left runOp ops s.

(** ** The fixed-timestep loop of App::run *)

(** [while (accumulator >= dt) { pEngine.processFrame(bodies); accumulator -= dt; }]
    The loop need not terminate (take [dt <= 0 <= accumulator]), so the
    model bounds the number of iterations by [fuel] and returns [None] when
    the bound is hit.  The third component counts the executed steps.
    The subtraction is exact here; [fixedLoopRounded] below is the loop
    with the [float] result rounded, of which this is the instance without
    rounding. *)
Fixpoint fixedLoop (fuel : nat) (dt : R) (bodies : list Body) (accumulator : R) (steps : nat)
  : option (list Body * R * nat) :=
  if Rleb dt accumulator then
    match fuel with
    | O => None
    | S fuel' =>
        fixedLoop fuel' dt (processFrame dt bodies) (accumulator - dt) (S steps)
    end
  else Some (bodies, accumulator, steps).

(** ** Concrete bodies used as test inputs *)

(** Two bodies used to exercise the clamp: half a unit apart, with
    unrelated masses. *)
Definition nearOne : Body := set_Mass 5 (Body_default (mkvec3 0 0 0)).
Definition nearTwo : Body := set_Mass 7 (Body_default (mkvec3 (1 / 2) 0 0)).

(** A unit-radius body half a unit below the resting height, falling. *)
Definition dropBody : Body :=
  mkBody (mkSphere (mkSphere3D 1) (mkMesh false)) 2
         (mkvec3 3 (-1.5) 4) (mkvec3 1 (-5) 2) (vec3_of 0) (vec3_of 0) (vec3_of 0) [].

(** Two overlapping unit-radius bodies of masses 1 and 3; the first moves
    towards the second, which is at rest. *)
Definition hitOne : Body :=
  mkBody (mkSphere (mkSphere3D 1) (mkMesh false)) 1
         (mkvec3 0 0 0) (mkvec3 1 0 0) (vec3_of 0) (vec3_of 0) (vec3_of 0) [].
Definition hitTwo : Body :=
  mkBody (mkSphere (mkSphere3D 1) (mkMesh false)) 3
         (mkvec3 1 0 0) (mkvec3 0 0 0) (vec3_of 0) (vec3_of 0) (vec3_of 0) [].

(** Two bodies of mass 2 with opposite velocities. *)
Definition headOne : Body :=
  mkBody (mkSphere (mkSphere3D 1) (mkMesh false)) 2
         (mkvec3 0 0 0) (mkvec3 1 2 3) (vec3_of 0) (vec3_of 0) (vec3_of 0) [].
Definition headTwo : Body :=
  mkBody (mkSphere (mkSphere3D 1) (mkMesh false)) 2
         (mkvec3 1 0 0) (mkvec3 (-1) (-2) (-3)) (vec3_of 0) (vec3_of 0) (vec3_of 0) [].

(** ** The elastic-collision formulas as the specification words them *)

(** [v1' = ((m1 - m2) v1 + 2 m2 v2) / (m1 + m2)]. *)
Definition spec_elastic_v1 (m1 m2 : R) (v1 v2 : vec3) : vec3 :=
  vdivs (vadd (smulv (m1 - m2) v1) (smulv (2 * m2) v2)) (m1 + m2).

(** [v2' = (2 m1 v1 + (m2 - m1) v2) / (m1 + m2)]. *)
Definition spec_elastic_v2 (m1 m2 : R) (v1 v2 : vec3) : vec3 :=
  vdivs (vadd (smulv (2 * m1) v1) (smulv (m2 - m1) v2)) (m1 + m2).

(** A unit-radius body of mass 1 at rest at the origin, and the same body
    after [Physics::push] with the impulse (60,0,0). *)
Definition restBody : Body :=
  mkBody (mkSphere (mkSphere3D 1) (mkMesh false)) 1
         (mkvec3 0 0 0) (vec3_of 0) (vec3_of 0) (vec3_of 0) (vec3_of 0) [].
Definition pushed : Body := push restBody (mkvec3 60 0 0).

(** A default body whose mass has been assigned 0. *)
Definition massless : Body := set_Mass 0 (Body_default (mkvec3 0 0 0)).

(** ** Relations between the body list before and after a piece of a step *)

(** [pointwise Q bodies bodies']: same length, and the bodies at every index
    [k] are related by [Q k]. *)
Definition pointwise (Q : nat -> Body -> Body -> Prop) (bodies bodies' : list Body) : Prop :=
  length bodies' = length bodies
  /\ forall (k : nat) (b : Body), bodies !! k = Some b ->
       exists b', bodies' !! k = Some b' /\ Q k b b'.

(** What the iteration of the outer loop for index [i] may do to the body
    at index [k]: it keeps the [source] flag, does not touch earlier
    bodies, and does not touch an exempt body other than [i]. *)
Definition Qframe (i k : nat) (b b' : Body) : Prop :=
  isSource b' = isSource b
  /\ ((k < i)%nat -> b' = b)
  /\ (isSource b = true -> k <> i -> b' = b).

(** The accumulator and the [source] flag are kept. *)
Definition Qkeep (k : nat) (b b' : Body) : Prop :=
  isSource b' = isSource b /\ vForceAccumulator b' = vForceAccumulator b.

(** The composite relation kept by the phases that follow the integration. *)
Definition Qafter (i k : nat) (b b' : Body) : Prop := Qframe i k b b' /\ Qkeep k b b'.

(** The state of the body at index [k] once the outer loop has handled
    the indices below [m]. *)
Definition Qdone (m k : nat) (b b' : Body) : Prop :=
  isSource b' = isSource b
  /\ (isSource b = true -> b' = if (k <? m)%nat then set_Force (vec3_of 0) b else b)
  /\ (isSource b = false -> (k < m)%nat -> vForceAccumulator b' = vec3_of 0).

(** A light source carrying a stale accumulator value, and a list with an
    ordinary body followed by that light. *)
Definition staleLight : Body :=
  mkBody (mkSphere (mkSphere3D 1) (mkMesh true)) 1
         (mkvec3 0 0 4) (vec3_of 0) (vec3_of 0) (mkvec3 0 5 0) (mkvec3 1 0 0) [].
Definition sceneWithLight : list Body := [pushed; staleLight].

(** ** Momentum and the collision-free step of a pair *)

(** Total momentum: the sum of [Mass * Velocity] over the bodies. *)
Definition momentum (bodies : list Body) : vec3 :=
  fold_right (fun b p => vadd (smulv (Mass b) (Velocity b)) p) (vec3_of 0) bodies.

(** The intermediate states of [processFrame] on the two-body list
    [[b0; b1]] of non-exempt bodies, on the path where no collision
    response runs: the pair after the gravity loop of body 0, body 0 after
    its integration, and body 1 after its own integration. *)
Definition afterGravity (b0 b1 : Body) : Body * Body :=
  calculateGravForce (set_Force (vec3_of 0) b0) b1.
Definition firstIntegrated (dt : R) (b0 b1 : Body) : Body :=
  updateState dt (calculateForce (fst (afterGravity b0 b1))).
Definition secondIntegrated (dt : R) (b0 b1 : Body) : Body :=
  updateState dt (calculateForce (set_Force (vec3_of 0) (snd (afterGravity b0 b1)))).

(** No collision occurs in the step of a two-body list: body 0 is not on
    the surface after its integration, the pairwise collision test of
    body 0 against body 1 is negative, and body 1 is not on the surface
    after its integration. *)
Definition quietStep (dt : R) (bodies : list Body) : Prop :=
  match bodies with
  | [b0; b1] =>
      onSurface (firstIntegrated dt b0 b1) = false
      /\ collisionDue (snd (afterGravity b0 b1)) (firstIntegrated dt b0 b1) = false
      /\ onSurface (secondIntegrated dt b0 b1) = false
  | _ => False
  end.

(** An isolated pair: two non-exempt bodies of non-zero mass with no
    pending force in their accumulators. *)
Definition isolatedPair (bodies : list Body) : Prop :=
  exists b0 b1,
    bodies = [b0; b1]
    /\ isSource b0 = false /\ isSource b1 = false
    /\ Mass b0 <> 0 /\ Mass b1 <> 0
    /\ vForceAccumulator b0 = vec3_of 0 /\ vForceAccumulator b1 = vec3_of 0.

(** Two small bodies two units apart, high above the surface. *)
Definition orbitOne : Body :=
  mkBody (mkSphere (mkSphere3D (1 / 2)) (mkMesh false)) 1
         (mkvec3 0 10 0) (mkvec3 0 0 1) (vec3_of 0) (vec3_of 0) (vec3_of 0) [].
Definition orbitTwo : Body :=
  mkBody (mkSphere (mkSphere3D (1 / 2)) (mkMesh false)) 3
         (mkvec3 2 10 0) (mkvec3 0 0 0) (vec3_of 0) (vec3_of 0) (vec3_of 0) [].

(** ** Relations used for the invariants of a whole step *)

(** The fields no physics step may touch. *)
Definition Qfixed (k : nat) (b b' : Body) : Prop :=
  sphere b' = sphere b /\ Mass b' = Mass b /\ tracePoints b' = tracePoints b.

(** The fields the phases after the integration do not touch. *)
Definition Qmotion (k : nat) (b b' : Body) : Prop :=
  Force b' = Force b /\ Acceleration b' = Acceleration b /\ Mass b' = Mass b.

(** [P] holds of the non-exempt bodies the outer loop has handled so far. *)
Definition Qreached (P : Body -> Prop) (m k : nat) (b b' : Body) : Prop :=
  isSource b' = isSource b /\ (isSource b = false -> (k < m)%nat -> P b').

(** ** Radius of a sphere: Sphere3D, Sphere, Body and Renderer::drawSphere *)

(** What [Sphere3D::generateSphere] does to [Radius]: a negative radius is
    left alone (nothing is generated), a radius below 0.0000001 is raised
    to that value. *)
Definition generateSphere_Radius (radius : R) : R :=
  if Rltb radius 0 then radius
  else if Rltb radius 0.0000001 then 0.0000001 else radius.

(** [Sphere3D::Sphere3D(float radius)] and [Sphere3D::setRadius]: both
    store the radius and call [generateSphere]. *)
Definition Sphere3D_new (radius : R) : Sphere3D := mkSphere3D (generateSphere_Radius radius).
Definition Sphere3D_setRadius (radius : R) (g : Sphere3D) : Sphere3D :=
  mkSphere3D (generateSphere_Radius radius).

(** [Sphere::setRadius] and [Body::setRadius]. *)
Definition Sphere_setRadius (radius : R) (s : Sphere) : Sphere :=
  mkSphere (Sphere3D_setRadius radius (geometry s)) (mesh s).
Definition set_sphere (s : Sphere) (b : Body) : Body :=
  mkBody s (Mass b) (Position b) (Velocity b) (Acceleration b) (Force b)
         (vForceAccumulator b) (tracePoints b).
Definition Body_setRadius (radius : R) (b : Body) : Body :=
  set_sphere (Sphere_setRadius radius (sphere b)) b.

(** [body.sphere.mesh.source = flag]. *)
Definition set_source (flag : bool) (b : Body) : Body :=
  set_sphere (mkSphere (geometry (sphere b)) (mkMesh flag)) b.

(** [Renderer::drawSphere], as far as the body is concerned: a sphere whose
    radius is still negative gets the radius 1. *)
Definition drawSphere (body : Body) : Body :=
  if Rltb (getRadius (geometry (sphere body))) 0
  then set_sphere (mkSphere (Sphere3D_setRadius 1 (geometry (sphere body)))
                            (mesh (sphere body))) body
  else body.

(** ** App: the scene and one iteration of the frame loop *)

(** One body of [App::setupProgram]: the assignments made to a member
    [Body] (whose [Position] starts indeterminate). *)
Definition setupBody (uninit : vec3) (isLight : bool) (radius : R) (position : vec3) (mass : R)
  : Body :=
  set_vForceAccumulator (vec3_of 0)
    (set_Force (vec3_of 0)
       (set_Acceleration (vec3_of 0)
          (set_Velocity (vec3_of 0)
             (set_Mass mass
                (set_Position position
                   (Body_setRadius radius
                      (set_source isLight (Body_default uninit)))))))).

(** [App::setupProgram]: the four bodies in the order they are pushed, each
    registered with [drawSphere]. *)
Definition setupProgram (uninit : vec3) : list Body :=
  map drawSphere
    [ setupBody uninit false 2.5 (mkvec3 0 (2 * 18) (-2)) 30e11;
      setupBody uninit false 1.5 (mkvec3 (2 * 8.66) (2 * 10) (-2)) 30e11;
      setupBody uninit false 0.5 (mkvec3 (2 * -8.66) (2 * 10) (-2)) 30e11;
      setupBody uninit true 1 (mkvec3 0 0 4) 1 ].

(** [unsigned int] arithmetic. *)
Definition wrap32 (z : Z) : Z := (z mod 2 ^ 32)%Z.

(** The state the frame loop works on: the accumulator and the frame
    counter of [App], the bodies, and the two timing members of the
    renderer. *)
Record AppState : Type := mkApp {
  app_accumulator : R;
  app_timeCount : Z;
  app_bodies : list Body;
  r_deltaTime : R;
  r_lastFrame : R
}.

(** [App::App()] with a freshly constructed renderer. *)
Definition App_new (bodies : list Body) : AppState := mkApp 0 0 bodies 0 0.

(** [Physics::push] on the body at index [i] of the list. *)
Definition pushAt (i : nat) (impulse : vec3) (bodies : list Body) : list Body :=
  match bodies !! i with
  | Some b => <[i := push b impulse]> bodies
  | None => bodies
  end.

(** The three impulses of frame 363, on [ball_one], [ball_two] and
    [ball_three], which are the bodies 0, 1 and 2 of the list. *)
Definition scriptedImpulses (bodies : list Body) : list Body :=
  let multiplier := 2 in
  pushAt 2 (mkvec3 (multiplier * 0.7071) (multiplier * 0.7071) 0)
    (pushAt 1 (mkvec3 (multiplier * -0.7071) (multiplier * -0.7071) 0)
       (pushAt 0 (mkvec3 (multiplier * 1) (multiplier * -0.7071) 0) bodies)).

(** [points] appended to the trace of a body. *)
Definition appendTrace (points : list vec3) (body : Body) : Body :=
  mkBody (sphere body) (Mass body) (Position body) (Velocity body) (Acceleration body)
         (Force body) (vForceAccumulator body) (tracePoints body ++ points).

(** What [Renderer::RenderFrame] does to a body:
    [body->tracePoints.push_back(body->Position)]. *)
Definition recordTrace (body : Body) : Body := appendTrace [Position body] body.

(** One iteration of the loop of [App::run]; [now] is the value
    [glfwGetTime()] returns inside [RenderFrame].  [None] when the inner
    loop exhausts [fuel].  The arithmetic on the accumulator and the time
    stamps is exact here; [runFrameRounded] below rounds it. *)
Definition runFrame (fuel : nat) (dt : R) (st : AppState) (now : R) : option AppState :=
  let physics :=
    if (120 <? app_timeCount st)%Z then
      let frameTime := r_deltaTime st in
      let accumulator := app_accumulator st + frameTime in
      let bodies :=
        if (app_timeCount st =? 363)%Z then scriptedImpulses (app_bodies st)
        else app_bodies st in
      match fixedLoop fuel dt bodies accumulator 0 with
      | Some (bodies', accumulator', _) => Some (bodies', accumulator')
      | None => None
      end
    else Some (app_bodies st, app_accumulator st) in
  match physics with
  | Some (bodies', accumulator') =>
      Some (mkApp accumulator' (wrap32 (app_timeCount st + 1)) (map recordTrace bodies')
                  (now - r_lastFrame st) now)
  | None => None
  end.

(** Successive iterations, one per clock reading. *)
Fixpoint runFrames (fuel : nat) (dt : R) (st : AppState) (nows : list R) : option AppState :=
  match nows with
  | [] => Some st
  | now :: rest =>
      match runFrame fuel dt st now with
      | Some st' => runFrames fuel dt st' rest
      | None => None
      end
  end.

(** ** Sphere3D: the generated mesh *)

(** [unsigned int] addition and multiplication. *)
Definition uadd (a b : Z) : Z := wrap32 (a + b).
Definition umul (a b : Z) : Z := wrap32 (a * b).

(** The whole of [Sphere3D]: the radius (the part [Body] needs, as above)
    with the subdivision count, the two derived counts and the two
    arrays.  The unsigned members are integers in [0, 2^32). *)
Record Sphere3DMesh : Type := mkSphere3DMesh {
  meshRadius : R;
  Subdivisions : Z;
  verticesPerRow : Z;
  verticesPerFace : Z;
  Vertices : list R;
  Indices : list Z
}.

Inductive Face : Type := FaceX | FaceY | FaceZ.

Definition NEG : R := -1.
Definition POS : R := 1.

(** The array [v] of [buildFaceVertices] once its three entries are
    written: [sign] on the fixed axis, [a] on the vertical axis, [b] on the
    horizontal axis (X: fixed 0, vertical 1, horizontal 2; Y: fixed 1,
    vertical 2, horizontal 0; Z: fixed 2, vertical 1, horizontal 0). *)
Definition faceVertex (face : Face) (sign a b : R) : vec3 :=
  match face with
  | FaceX => mkvec3 sign a b
  | FaceY => mkvec3 b sign a
  | FaceZ => mkvec3 b a sign
  end.

(** [Sphere3D::buildFaceVertices]: three floats per grid point, rows
    outside, columns inside. *)
Definition buildFaceVertices (face : Face) (sign : R) (subdivisions vertsPerRow : Z) : list R :=
  flat_map
    (fun i : nat =>
       let a := 1 - (2 / IZR subdivisions) * INR i in
       flat_map
         (fun j : nat =>
            let b := -1 + (2 / IZR subdivisions) * INR j in
            let v := faceVertex face sign a b in
            [vx v; vy v; vz v])
         (seq 0 (Z.to_nat vertsPerRow)))
    (seq 0 (Z.to_nat vertsPerRow)).

(** [Sphere3D::normalizeVectors(v, n)]: [n] is overwritten only when the
    magnitude of [v] exceeds 0.000001; otherwise it keeps what it held. *)
Definition normalizeVectors (v n : vec3) : vec3 :=
  let mag := sqrt (vx v * vx v + vy v * vy v + vz v * vz v) in
  if Rltb 0.000001 mag then
    let inverse := 1 / mag in
    mkvec3 (vx v * inverse) (vy v * inverse) (vz v * inverse)
  else n.

Definition scaleVectors (v : vec3) (radius : R) : vec3 := vmuls v radius.

Definition addVertices (n : vec3) (vertices : list R) : list R :=
  vertices ++ [vx n; vy n; vz n].

(** [tmpV] read from the per-face array at grid point [i]: the entries
    [3 * i], [3 * i + 1] and [3 * i + 2] (unsigned arithmetic).  Reading
    past the end is undefined in the source; the model reads 0 there. *)
Definition readTriple (vertices : list R) (i : nat) : vec3 :=
  let base := umul 3 (Z.of_nat i) in
  mkvec3 (nth (Z.to_nat base) vertices 0)
         (nth (Z.to_nat (uadd base 1)) vertices 0)
         (nth (Z.to_nat (uadd base 2)) vertices 0).

(** The inner loop of [Sphere3D::buildVertices] for one face; the state is
    the scratch array [n] and the member [Vertices]. *)
Definition buildVerticesStep (radius : R) (vertices : list R) (st : vec3 * list R) (i : nat)
  : vec3 * list R :=
  let tmpV := readTriple vertices i in
  let n1 := normalizeVectors tmpV (fst st) in
  let n2 := scaleVectors n1 radius in
  (n2, addVertices n2 (snd st)).

Definition cubeFaces : list (Face * R) :=
  [(FaceX, POS); (FaceX, NEG); (FaceY, POS); (FaceY, NEG); (FaceZ, POS); (FaceZ, NEG)].

(** [Sphere3D::buildVertices]; [junk] is what the scratch array [n] holds
    on entry. *)
Definition buildVertices (junk : vec3) (s : Sphere3DMesh) : Sphere3DMesh :=
  let final :=
    fold_left
      (fun (st : vec3 * list R) (fs : Face * R) =>
         let vertices :=
           buildFaceVertices (fst fs) (snd fs) (Subdivisions s) (verticesPerRow s) in
         fold_left (buildVerticesStep (meshRadius s) vertices)
                   (seq 0 (Z.to_nat (verticesPerFace s))) st)
      cubeFaces (junk, Vertices s) in
  mkSphere3DMesh (meshRadius s) (Subdivisions s) (verticesPerRow s) (verticesPerFace s)
                 (snd final) (Indices s).

(** The six indices [calculateIndices] appends for the quad [(i, j)] of the
    face whose first vertex is [faceIndex]. *)
Definition quadIndices (vertsPerRow faceIndex : Z) (i j : nat) : list Z :=
  let tl := uadd (uadd (umul (Z.of_nat i) vertsPerRow) (Z.of_nat j)) faceIndex in
  let tr := uadd tl 1 in
  let bl := uadd (uadd (umul (uadd (Z.of_nat i) 1) vertsPerRow) (Z.of_nat j)) faceIndex in
  let br := uadd bl 1 in
  [tl; bl; br; tl; br; tr].

(** [Sphere3D::calculateIndices]. *)
Definition calculateIndices (s : Sphere3DMesh) : Sphere3DMesh :=
  let added :=
    flat_map
      (fun face : nat =>
         let faceIndex := umul (Z.of_nat face) (verticesPerFace s) in
         flat_map
           (fun i : nat =>
              flat_map (fun j : nat => quadIndices (verticesPerRow s) faceIndex i j)
                       (seq 0 (Z.to_nat (Subdivisions s))))
           (seq 0 (Z.to_nat (Subdivisions s))))
      (seq 0 6) in
  mkSphere3DMesh (meshRadius s) (Subdivisions s) (verticesPerRow s) (verticesPerFace s)
                 (Vertices s) (Indices s ++ added).

(** [Sphere3D::generateSphere]. *)
Definition generateSphere (junk : vec3) (s : Sphere3DMesh) : Sphere3DMesh :=
  if Rltb (meshRadius s) 0 then s
  else
    let subdivisions := if (Subdivisions s <? 1)%Z then 1%Z else Subdivisions s in
    let radius := if Rltb (meshRadius s) 0.0000001 then 0.0000001 else meshRadius s in
    let vertsPerRow := uadd subdivisions 1 in
    let vertsPerFace := umul vertsPerRow vertsPerRow in
    calculateIndices
      (buildVertices junk
         (mkSphere3DMesh radius subdivisions vertsPerRow vertsPerFace [] [])).

(** A flat array of floats made of the three coordinates of each point. *)
Definition flatten3 (points : list vec3) : list R :=
  flat_map (fun p => [vx p; vy p; vz p]) points.

(** The grid points of one cube face, in the order of [buildFaceVertices]. *)
Definition facePoints (face : Face) (sign : R) (subdivisions : Z) (n : nat) : list vec3 :=
  flat_map
    (fun i : nat =>
       map (fun j : nat =>
              faceVertex face sign (1 - (2 / IZR subdivisions) * INR i)
                         (-1 + (2 / IZR subdivisions) * INR j))
           (seq 0 n))
    (seq 0 n).

(** A cube-face point pushed onto the sphere of the given radius. *)
Definition onSphere (radius : R) (p : vec3) : vec3 :=
  scaleVectors (normalizeVectors p p) radius.

(** The state [Sphere3D(2.5f)] hands to [generateSphere]: radius 2.5,
    16 subdivisions, empty arrays (the two derived counts are not yet
    set). *)
Definition sphereSeed : Sphere3DMesh := mkSphere3DMesh 2.5 16 0 0 [] [].

(** ** Surface3D: the generated plane *)

Module Surface3D.

(** [enum surfaceOrientation { X, Y, Z }]. *)
Inductive surfaceOrientation : Type := OrientX | OrientY | OrientZ.

(** The members of [Surface3D].  [GridRows] and [GridCols] are [int];
    [int] arithmetic is modelled in the integers (signed overflow is
    undefined in the source), the conversion of an [int] to
    [unsigned int] reduces modulo 2^32. *)
Record t : Type := mk {
  Size : R;
  Distance : R;
  Orientation : surfaceOrientation;
  Indices : list Z;
  Vertices : list R;
  Wireframe : bool;
  GridRows : Z;
  GridCols : Z
}.


(** The grid vertex for the in-plane coordinates [x] and [z], as the three
    branches of the wireframe loop push it. *)
Definition gridPoint (o : surfaceOrientation) (distance x z : R) : vec3 :=
  match o with
  | OrientY => mkvec3 x distance z
  | OrientX => mkvec3 distance x z
  | OrientZ => mkvec3 x z distance
  end.

(** The four corners of the filled quad, in the order they are pushed. *)
Definition quadCorners (o : surfaceOrientation) (distance s : R) : list vec3 :=
  match o with
  | OrientX =>
      [mkvec3 distance (- s) (- s); mkvec3 distance s (- s);
       mkvec3 distance s s; mkvec3 distance (- s) s]
  | OrientY =>
      [mkvec3 (- s) distance (- s); mkvec3 s distance (- s);
       mkvec3 s distance s; mkvec3 (- s) distance s]
  | OrientZ =>
      [mkvec3 (- s) (- s) distance; mkvec3 s (- s) distance;
       mkvec3 s s distance; mkvec3 (- s) s distance]
  end.

(** The vertex array of the wireframe grid: rows outside, columns inside,
    three floats per vertex. *)
Definition gridVertices (g : t) (rows cols : Z) : list R :=
  let vertRows := (rows + 1)%Z in
  let vertCols := (cols + 1)%Z in
  let half := Size g * 0.5 in
  let dx := Size g / IZR cols in
  let dz := Size g / IZR rows in
  flat_map
    (fun r : nat =>
       flat_map
         (fun c : nat =>
            let x := - half + INR c * dx in
            let z := - half + INR r * dz in
            let p := gridPoint (Orientation g) (Distance g) x z in
            [vx p; vy p; vz p])
         (seq 0 (Z.to_nat vertCols)))
    (seq 0 (Z.to_nat vertRows)).

(** The index array of the wireframe grid: the horizontal segments, then
    the vertical ones. *)
Definition gridIndices (rows cols : Z) : list Z :=
  let vertRows := (rows + 1)%Z in
  let vertCols := (cols + 1)%Z in
  flat_map
    (fun r : nat =>
       flat_map
         (fun c : nat =>
            let a := wrap32 (Z.of_nat r * vertCols + Z.of_nat c) in
            let b := uadd a 1 in
            [a; b])
         (seq 0 (Z.to_nat (vertCols - 1))))
    (seq 0 (Z.to_nat vertRows))
  ++ flat_map
       (fun c : nat =>
          flat_map
            (fun r : nat =>
               let a := wrap32 (Z.of_nat r * vertCols + Z.of_nat c) in
               let b := wrap32 ((Z.of_nat r + 1) * vertCols + Z.of_nat c) in
               [a; b])
            (seq 0 (Z.to_nat (vertRows - 1))))
       (seq 0 (Z.to_nat vertCols)).

(** An [int] expression has a value only when its mathematical value is
    in the range of [int]: signed overflow is undefined in the source. *)
Definition inInt (z : Z) : bool := ((- 2 ^ 31 <=? z) && (z <? 2 ^ 31))%Z.

(** The argument of [Vertices.reserve(vertRows * vertCols * 3)] and of
    [Indices.reserve((vertRows * (vertCols - 1) + vertCols * (vertRows - 1)) * 2)]. *)
Definition reserveVertices (vertRows vertCols : Z) : Z := (vertRows * vertCols * 3)%Z.
Definition reserveIndices (vertRows vertCols : Z) : Z :=
  ((vertRows * (vertCols - 1) + vertCols * (vertRows - 1)) * 2)%Z.

(** The [int] expressions the wireframe branch evaluates, with their
    sub-expressions.  The loop expressions [r * vertCols + c] and
    [(r + 1) * vertCols + c] are not listed: they stay below
    [vertRows * vertCols]. *)
Definition intExpressions (rows cols : Z) : list Z :=
  let vertRows := (rows + 1)%Z in
  let vertCols := (cols + 1)%Z in
  [vertRows; vertCols;
   (vertRows * vertCols)%Z; reserveVertices vertRows vertCols;
   (vertCols - 1)%Z; (vertRows * (vertCols - 1))%Z;
   (vertRows - 1)%Z; (vertCols * (vertRows - 1))%Z;
   (vertRows * (vertCols - 1) + vertCols * (vertRows - 1))%Z;
   reserveIndices vertRows vertCols].

(** [Surface3D::generateVertices].  The result is [None] when one of the
    [int] expressions overflows, where the source has no defined
    behaviour.  [reserve] changes the capacity of a vector only, so what is
    left of the two calls is the evaluation of their arguments.  A
    failing allocation is not modelled. *)
Definition generateVertices (g : t) : option t :=
  if negb (Wireframe g) then
    let s := Size g * 0.5 in
    Some (mk (Size g) (Distance g) (Orientation g)
             [0; 1; 2; 0; 2; 3]%Z
             (flatten3 (quadCorners (Orientation g) (Distance g) s))
             (Wireframe g) (GridRows g) (GridCols g))
  else
    let rows := Z.max 1 (GridRows g) in
    let cols := Z.max 1 (GridCols g) in
    if forallb inInt (intExpressions rows cols) then
      Some (mk (Size g) (Distance g) (Orientation g)
               (gridIndices rows cols)
               (gridVertices g rows cols)
               (Wireframe g) (GridRows g) (GridCols g))
    else None.

(** [Surface3D::Surface3D(float distance)]: the default member
    initialisers with the given distance, then [generateVertices]. *)
Definition new (distance : R) : option t :=
  generateVertices (mk 5 distance OrientY [] [] false 8 8).

(** The setters: each stores its argument and regenerates. *)
Definition setWireframe (wf : bool) (g : t) : option t :=
  generateVertices
    (mk (Size g) (Distance g) (Orientation g) (Indices g) (Vertices g) wf
        (GridRows g) (GridCols g)).
Definition setGridDensity (rows cols : Z) (g : t) : option t :=
  generateVertices
    (mk (Size g) (Distance g) (Orientation g) (Indices g) (Vertices g) (Wireframe g)
        rows cols).
Definition setDistance (distance : R) (g : t) : option t :=
  generateVertices
    (mk (Size g) distance (Orientation g) (Indices g) (Vertices g) (Wireframe g)
        (GridRows g) (GridCols g)).
Definition setSize (size : R) (g : t) : option t :=
  generateVertices
    (mk size (Distance g) (Orientation g) (Indices g) (Vertices g) (Wireframe g)
        (GridRows g) (GridCols g)).

(** The coordinate of a point along the axis the surface is normal to. *)
Definition normalCoord (o : surfaceOrientation) (p : vec3) : R :=
  match o with
  | OrientX => vx p
  | OrientY => vy p
  | OrientZ => vz p
  end.

(** The two in-plane coordinates of a point. *)
Definition planeCoords (o : surfaceOrientation) (p : vec3) : R * R :=
  match o with
  | OrientX => (vy p, vz p)
  | OrientY => (vx p, vz p)
  | OrientZ => (vx p, vy p)
  end.

(** The grid vertices as points. *)
Definition gridPoints (g : t) (rows cols : Z) : list vec3 :=
  flat_map
    (fun r : nat =>
       map (fun c : nat =>
              gridPoint (Orientation g) (Distance g)
                        (- (Size g * 0.5) + INR c * (Size g / IZR cols))
                        (- (Size g * 0.5) + INR r * (Size g / IZR rows)))
           (seq 0 (Z.to_nat (cols + 1))))
    (seq 0 (Z.to_nat (rows + 1))).

(** The ground plane of [App::setupProgram]: [Surface()] constructs the
    geometry with distance -1; then [setSize(100)], [setWireframe(true)],
    [setGridDensity(20, 20)] and [setDistance(-2)]. *)
Definition demoSurface : option t :=
  match new (-1) with
  | Some g0 =>
      match setSize 100 g0 with
      | Some g1 =>
          match setWireframe true g1 with
          | Some g2 =>
              match setGridDensity 20 20 g2 with
              | Some g3 => setDistance (-2) g3
              | None => None
              end
          | None => None
          end
      | None => None
      end
  | None => None
  end.

End Surface3D.

(** ** Camera and the mouse handler of Renderer *)

(** [glm::cross] and [glm::radians]. *)
Definition cross (a b : vec3) : vec3 :=
  mkvec3 (vy a * vz b - vy b * vz a)
         (vz a * vx b - vz b * vx a)
         (vx a * vy b - vx b * vy a).
Definition radians (degrees : R) : R := degrees * (PI / 180).

Module Camera.

Inductive cameraMovement : Type := FORWARD | BACKWARD | LEFT | RIGHT | UP | DOWN.

Definition SPEED : R := 5.
Definition SENSITIVITY : R := 0.1.

Record t : Type := mk {
  Position : vec3;
  Front : vec3;
  Up : vec3;
  Right : vec3;
  WorldUp : vec3;
  Yaw : R;
  Pitch : R;
  MovementSpeed : R;
  MouseSensitivity : R
}.

Definition set_Position (p : vec3) (c : t) : t :=
  mk p (Front c) (Up c) (Right c) (WorldUp c) (Yaw c) (Pitch c)
     (MovementSpeed c) (MouseSensitivity c).

(** [Camera::updateCameraVectors]. *)
Definition updateCameraVectors (c : t) : t :=
  let front :=
    mkvec3 (cos (radians (Yaw c)) * cos (radians (Pitch c)))
           (sin (radians (Pitch c)))
           (sin (radians (Yaw c)) * cos (radians (Pitch c))) in
  let Front' := normalize front in
  let Right' := normalize (cross Front' (WorldUp c)) in
  let Up' := normalize (cross Right' Front') in
  mk (Position c) Front' Up' Right' (WorldUp c) (Yaw c) (Pitch c)
     (MovementSpeed c) (MouseSensitivity c).

(** [Camera::processKeyboard]. *)
Definition processKeyboard (direction : cameraMovement) (deltaTime : R) (c : t) : t :=
  let velocity := MovementSpeed c * deltaTime in
  match direction with
  | FORWARD => set_Position (vadd (Position c) (vmuls (Front c) velocity)) c
  | BACKWARD => set_Position (vsub (Position c) (vmuls (Front c) velocity)) c
  | LEFT => set_Position (vsub (Position c) (vmuls (Right c) velocity)) c
  | RIGHT => set_Position (vadd (Position c) (vmuls (Right c) velocity)) c
  | UP => set_Position (vadd (Position c) (vmuls (Up c) velocity)) c
  | DOWN => set_Position (vsub (Position c) (vmuls (Up c) velocity)) c
  end.

(** [Camera::processMouseMovement]. *)
Definition processMouseMovement (xOffset yOffset : R) (constrainPitch : bool) (c : t) : t :=
  let xOffset' := xOffset * MouseSensitivity c in
  let yOffset' := yOffset * MouseSensitivity c in
  let yaw := Yaw c + xOffset' in
  let pitch := Pitch c + yOffset' in
  let pitch1 :=
    if constrainPitch then
      let p := if Rltb 89 pitch then 89 else pitch in
      if Rltb p (-89) then -89 else p
    else pitch in
  updateCameraVectors
    (mk (Position c) (Front c) (Up c) (Right c) (WorldUp c) yaw pitch1
        (MovementSpeed c) (MouseSensitivity c)).

(** The key that undoes a key. *)
Definition opposite (direction : cameraMovement) : cameraMovement :=
  match direction with
  | FORWARD => BACKWARD
  | BACKWARD => FORWARD
  | LEFT => RIGHT
  | RIGHT => LEFT
  | UP => DOWN
  | DOWN => UP
  end.

End Camera.

(** The mouse state of [Renderer] with its camera. *)
Record MouseState : Type := mkMouse {
  firstMouse : bool;
  lastX : R;
  lastY : R;
  camera : Camera.t
}.

(** [Renderer::handleMouse]. *)
Definition handleMouse (st : MouseState) (pos : R * R) : MouseState :=
  let '(xpos, ypos) := pos in
  if firstMouse st then mkMouse false xpos ypos (camera st)
  else
    let xoffset := xpos - lastX st in
    let yoffset := lastY st - ypos in
    mkMouse false xpos ypos (Camera.processMouseMovement xoffset yoffset true (camera st)).

(** The camera before its vectors are computed: yaw -90 degrees, pitch 0,
    world-up along the y axis (the defaults of the [Camera] constructor). *)
Definition startCamera : Camera.t :=
  Camera.mk (mkvec3 0 0 0) (mkvec3 0 0 (-1)) (mkvec3 0 1 0) (mkvec3 1 0 0) (mkvec3 0 1 0)
            (-90) 0 Camera.SPEED Camera.SENSITIVITY.

(** A camera looking down the negative z axis from the origin. *)
Definition demoCamera : Camera.t :=
  Camera.updateCameraVectors
    (Camera.mk (mkvec3 0 0 0) (mkvec3 0 0 (-1)) (mkvec3 0 1 0) (mkvec3 1 0 0) (mkvec3 0 1 0)
               (-90) 0 Camera.SPEED Camera.SENSITIVITY).

(** ** The accumulator at the moment it is drained *)

(** The body list at the moment [calculateForce] is called on the body at
    index [i]: the outer loop has handled the indices below [i], the force
    of body [i] has been cleared and its gravity loop has run. *)
Definition beforeDrain (dt : R) (bodies : list Body) (i : nat) : list Body :=
  gravLoop i (zeroForce i (fold_left (processBody dt) (seq 0 i) bodies)).

(** An ordinary body at rest with a pending force of (7,0,0) in its
    accumulator, followed by the light. *)
Definition pendingBody : Body :=
  mkBody (mkSphere (mkSphere3D 1) (mkMesh false)) 1
         (vec3_of 0) (vec3_of 0) (vec3_of 0) (vec3_of 0) (mkvec3 7 0 0) [].
Definition pendingScene : list Body := [pendingBody; staleLight].


(** ** The frame loop of App::run in the arithmetic of the source *)

(** The accumulator of [App], the timestep [dt] and the two time stamps of
    [Renderer] are [float]; the frame time is a [double].  Every result
    stored in one of them is rounded to its format.  The two roundings are
    kept abstract: what is proved for every [Rounding] holds in particular
    of the rounding of the machine, whatever its mode.  [fixedLoop] and
    [runFrame] above are the instance without rounding. *)
Record Rounding : Type := mkRounding {
  toFloat : R -> R;
  toDouble : R -> R
}.

(** No rounding at all. *)
Definition exactArithmetic : Rounding := mkRounding (fun x => x) (fun x => x).

(** [while (accumulator >= dt) { pEngine.processFrame(bodies); accumulator -= dt; }]
    with the [float] subtraction rounded.  As for [fixedLoop], [fuel]
    bounds the number of iterations and the third component counts the
    steps. *)
Fixpoint fixedLoopRounded (rnd : Rounding) (fuel : nat) (dt : R) (bodies : list Body)
    (accumulator : R) (steps : nat) : option (list Body * R * nat) :=
  if Rleb dt accumulator then
    match fuel with
    | O => None
    | S fuel' =>
        fixedLoopRounded rnd fuel' dt (processFrame dt bodies)
                         (toFloat rnd (accumulator - dt)) (S steps)
    end
  else Some (bodies, accumulator, steps).

(** One iteration of the loop of [App::run], with the number of physics
    steps it executed.  [accumulator += frameTime] adds a [double] to a
    [float]: the sum is formed in [double] and stored as a [float].
    [RenderFrame] stores [(float) glfwGetTime()] and the [float]
    difference to the previous time stamp. *)
Definition runFrameRounded (rnd : Rounding) (fuel : nat) (dt : R) (st : AppState) (now : R)
  : option (AppState * nat) :=
  let physics :=
    if (120 <? app_timeCount st)%Z then
      let frameTime := r_deltaTime st in
      let accumulator := toFloat rnd (toDouble rnd (app_accumulator st + frameTime)) in
      let bodies :=
        if (app_timeCount st =? 363)%Z then scriptedImpulses (app_bodies st)
        else app_bodies st in
      fixedLoopRounded rnd fuel dt bodies accumulator 0
    else Some (app_bodies st, app_accumulator st, 0%nat) in
  match physics with
  | Some (bodies', accumulator', steps) =>
      let currentFrame := toFloat rnd now in
      Some (mkApp accumulator' (wrap32 (app_timeCount st + 1)) (map recordTrace bodies')
                  (toFloat rnd (currentFrame - r_lastFrame st)) currentFrame,
            steps)
  | None => None
  end.

(** Successive iterations, one per clock reading, with the total number of
    physics steps. *)
Fixpoint runFramesRounded (rnd : Rounding) (fuel : nat) (dt : R) (st : AppState)
    (nows : list R) : option (AppState * nat) :=
  match nows with
  | [] => Some (st, 0%nat)
  | now :: rest =>
      match runFrameRounded rnd fuel dt st now with
      | Some (st', k) =>
          match runFramesRounded rnd fuel dt st' rest with
          | Some (st'', k') => Some (st'', (k + k')%nat)
          | None => None
          end
      | None => None
      end
  end.



(** Rounding to the nearest value of a format is monotone and leaves zero
    alone. *)
Definition monotoneRounding (rnd : Rounding) : Prop :=
  (forall x y, x <= y -> toFloat rnd x <= toFloat rnd y)
  /\ (forall x y, x <= y -> toDouble rnd x <= toDouble rnd y)
  /\ toFloat rnd 0 = 0
  /\ toDouble rnd 0 = 0.





(** ** Rounding to nearest, ties to even *)

(** The exponent of the leading bit of a non-zero real: the integer [e]
    with [2^e <= |x| < 2^(e+1)]. *)
Definition magnitude (x : R) : Z := Int_part (ln (Rabs x) / ln 2).

(** The nearest integer, the even one of the two when [y] is half way. *)
Definition nearestEven (y : R) : Z :=
  let n := Int_part y in
  let f := frac_part y in
  if Rltb f (1 / 2) then n
  else if Rltb (1 / 2) f then (n + 1)%Z
  else if Z.even n then n else (n + 1)%Z.

(** The nearest number with [p] significant bits, ties to even: what
    IEEE 754 arithmetic in its default mode stores for an exact result [x]
    in the normal range of a binary format with precision [p] (24 for
    [float], 53 for [double]).  Overflow and subnormal numbers are not
    modelled. *)
Definition roundTo (p : Z) (x : R) : R :=
  if Reqb x 0 then 0
  else
    let ulp := powerRZ 2 (magnitude x - (p - 1)) in
    IZR (nearestEven (x / ulp)) * ulp.

(** The rounding of [float] and [double] results on an IEEE 754 machine
    that evaluates each type in its own format. *)
Definition ieee : Rounding := mkRounding (roundTo 24) (roundTo 53).


(** * Basic facts *)

Lemma Rltb_true (a b : R) : Rltb a b = true <-> a < b.
Proof. unfold Rltb; destruct (Rlt_dec a b); split; intros; auto; discriminate. Qed.

Lemma Rltb_false (a b : R) : Rltb a b = false <-> b <= a.
Proof. unfold Rltb; destruct (Rlt_dec a b); split; intros; auto; try discriminate; lra. Qed.

Lemma Rleb_true (a b : R) : Rleb a b = true <-> a <= b.
Proof. unfold Rleb; destruct (Rle_dec a b); split; intros; auto; discriminate. Qed.

Lemma Rleb_false (a b : R) : Rleb a b = false <-> b < a.
Proof. unfold Rleb; destruct (Rle_dec a b); split; intros; auto; try discriminate; lra. Qed.

Lemma Reqb_true (a b : R) : Reqb a b = true <-> a = b.
Proof. unfold Reqb; destruct (Req_dec_T a b); split; intros; auto; discriminate. Qed.

Lemma Reqb_false (a b : R) : Reqb a b = false <-> a <> b.
Proof. unfold Reqb; destruct (Req_dec_T a b); split; intros; auto; try discriminate; contradiction. Qed.

Lemma vec3_ext (a b : vec3) : vx a = vx b -> vy a = vy b -> vz a = vz b -> a = b.
Proof. destruct a, b; simpl; intros; subst; reflexivity. Qed.

Lemma vmuls_one (v : vec3) : vmuls v 1 = v.
Proof. destruct v; unfold vmuls; simpl; f_equal; lra. Qed.

Lemma isZero_true_iff (v : vec3) :
  isZero v = true <->
  Rabs (vx v) < EPSILON /\ Rabs (vy v) < EPSILON /\ Rabs (vz v) < EPSILON.
Proof.
  unfold isZero, vec3_eqb, all_epsilonEqual, epsilonEqual. simpl.
  rewrite !Rminus_0_r.
  split.
  - destruct (Reqb (vx v) 0 && Reqb (vy v) 0 && Reqb (vz v) 0) eqn:E.
    + intros _. apply andb_true_iff in E as [E Ez].
      apply andb_true_iff in E as [Ex Ey].
      apply Reqb_true in Ex, Ey, Ez. rewrite Ex, Ey, Ez, Rabs_R0.
      unfold EPSILON; lra.
    + intros H. apply andb_true_iff in H as [H Hz].
      apply andb_true_iff in H as [Hx Hy].
      apply Rltb_true in Hx, Hy, Hz. auto.
  - intros (Hx & Hy & Hz).
    destruct (Reqb (vx v) 0 && Reqb (vy v) 0 && Reqb (vz v) 0); [reflexivity|].
    apply Rltb_true in Hx, Hy, Hz. rewrite Hx, Hy, Hz. reflexivity.
Qed.

Lemma isZero_false_iff (v : vec3) :
  isZero v = false <->
  EPSILON <= Rabs (vx v) \/ EPSILON <= Rabs (vy v) \/ EPSILON <= Rabs (vz v).
Proof.
  split.
  - intros H.
    destruct (Rlt_dec (Rabs (vx v)) EPSILON) as [Hx|Hx]; [|left; lra].
    destruct (Rlt_dec (Rabs (vy v)) EPSILON) as [Hy|Hy]; [|right; left; lra].
    destruct (Rlt_dec (Rabs (vz v)) EPSILON) as [Hz|Hz]; [|right; right; lra].
    assert (isZero v = true) by (apply isZero_true_iff; auto). congruence.
  - intros H. destruct (isZero v) eqn:E; [|reflexivity].
    apply isZero_true_iff in E. lra.
Qed.

(** * Gravity clamp *)

(** C7.  When the squared centre distance of a pair is below
    [minDistSq + EPSILON] = 1 + 1/1000, [calculateGravForce] returns both
    bodies exactly as they were (so the accumulators and every other field
    are unchanged, whatever the masses), and the iteration of the gravity
    loop of [processFrame] for that pair leaves the whole body list
    unchanged. *)
Theorem calculateGravForce_clamped (sphereOne sphereTwo : Body) :
  calculateDistanceSquare sphereOne sphereTwo < 1 + 1 / 1000 ->
  calculateGravForce sphereOne sphereTwo = (sphereOne, sphereTwo)
  /\ (forall (bodies : list Body) (i j : nat),
        bodies !! i = Some sphereOne -> bodies !! j = Some sphereTwo ->
        gravStep i bodies j = bodies).
Proof.
  intros Hd.
  assert (Hskip : calculateGravForce sphereOne sphereTwo = (sphereOne, sphereTwo)).
  { unfold calculateGravForce.
    replace (Rltb (calculateDistanceSquare sphereOne sphereTwo) (minDistSq + EPSILON))
      with true; [reflexivity|].
    symmetry; apply Rltb_true. unfold minDistSq, EPSILON. lra. }
  split; [exact Hskip|].
  intros bodies i j Hi Hj. unfold gravStep. rewrite Hi, Hj.
  destruct (isSource sphereTwo); [reflexivity|].
  rewrite Hskip.
  rewrite (list_insert_id bodies i sphereOne Hi).
  apply list_insert_id; exact Hj.
Qed.

Lemma calculateGravForce_clamped_witness :
  calculateGravForce nearOne nearTwo = (nearOne, nearTwo)
  /\ (forall (bodies : list Body) (i j : nat),
        bodies !! i = Some nearOne -> bodies !! j = Some nearTwo ->
        gravStep i bodies j = bodies).
Proof.
  apply (calculateGravForce_clamped nearOne nearTwo).
  unfold calculateDistanceSquare, dot, vsub; simpl. lra.
Defined.

(** * Surface collision *)

Lemma processSurfaceCollision_frame (body : Body) :
  let body' := processSurfaceCollision body in
  sphere body' = sphere body /\ Mass body' = Mass body
  /\ Acceleration body' = Acceleration body /\ Force body' = Force body
  /\ vForceAccumulator body' = vForceAccumulator body
  /\ tracePoints body' = tracePoints body.
Proof.
  unfold processSurfaceCollision; simpl.
  destruct (Rltb _ _); simpl; repeat split; reflexivity.
Qed.

(** C9.  For a body with [position.y - radius <= surfaceY + EPSILON] the
    surface response of the step sets [position.y] to [surfaceY + radius],
    multiplies [velocity.y] by -0.8, and replaces the product by 0 when its
    magnitude is below 0.1; the [x] and [z] components of position and
    velocity, and every other field of the body, are unchanged. *)
Theorem surfaceResponse_spec (body : Body) :
  vy (Position body) - bodyRadius body <= surfaceY + EPSILON ->
  let body' := surfaceResponse body in
  vy (Position body') = surfaceY + bodyRadius body
  /\ (Rabs (vy (Velocity body) * -0.8) < 0.1 -> vy (Velocity body') = 0)
  /\ (0.1 <= Rabs (vy (Velocity body) * -0.8) ->
      vy (Velocity body') = vy (Velocity body) * -0.8)
  /\ vx (Position body') = vx (Position body)
  /\ vz (Position body') = vz (Position body)
  /\ vx (Velocity body') = vx (Velocity body)
  /\ vz (Velocity body') = vz (Velocity body)
  /\ sphere body' = sphere body /\ Mass body' = Mass body
  /\ Acceleration body' = Acceleration body /\ Force body' = Force body
  /\ vForceAccumulator body' = vForceAccumulator body
  /\ tracePoints body' = tracePoints body.
Proof.
  intros Hon. unfold surfaceResponse.
  assert (Hs : onSurface body = true) by (apply Rleb_true; exact Hon).
  rewrite Hs. cbv zeta.
  unfold processSurfaceCollision; simpl.
  destruct (Rltb (Rabs (vy (Velocity body) * -0.8)) 0.1) eqn:Hsmall; simpl.
  - apply Rltb_true in Hsmall.
    repeat split; try reflexivity; intros; lra.
  - apply Rltb_false in Hsmall.
    repeat split; try reflexivity; intros; lra.
Qed.

Lemma surfaceResponse_spec_witness :
  vy (Position (surfaceResponse dropBody)) = -1
  /\ vy (Velocity (surfaceResponse dropBody)) = 4
  /\ vx (Position (surfaceResponse dropBody)) = 3.
Proof.
  assert (Hon : vy (Position dropBody) - bodyRadius dropBody <= surfaceY + EPSILON).
  { unfold surfaceY, EPSILON, bodyRadius, getRadius; simpl. lra. }
  destruct (surfaceResponse_spec dropBody Hon) as (Hp & _ & Hv & Hx & _).
  split; [rewrite Hp; unfold surfaceY, bodyRadius, getRadius; simpl; lra|].
  split; [|rewrite Hx; reflexivity].
  rewrite Hv; simpl; [lra|].
  rewrite Rabs_right; lra.
Defined.

(** * Pairwise collision *)

Lemma processCollision_fst_Velocity (sphereOne sphereTwo : Body) :
  Velocity (fst (processCollision sphereOne sphereTwo)) =
  vdivs (vadd (smulv (Mass sphereOne - Mass sphereTwo) (Velocity sphereOne))
              (smulv (Mass sphereTwo + Mass sphereTwo) (Velocity sphereTwo)))
        (Mass sphereOne + Mass sphereTwo).
Proof. unfold processCollision. destruct (Rltb 0 _); reflexivity. Qed.

Lemma processCollision_snd_Velocity (sphereOne sphereTwo : Body) :
  Velocity (snd (processCollision sphereOne sphereTwo)) =
  vdivs (vadd (smulv (Mass sphereOne + Mass sphereTwo) (Velocity sphereOne))
              (smulv (Mass sphereTwo - Mass sphereOne) (Velocity sphereTwo)))
        (Mass sphereOne + Mass sphereTwo).
Proof. unfold processCollision. destruct (Rltb 0 _); reflexivity. Qed.

(** The first resolved velocity is the specified one for all inputs. *)
Lemma processCollision_fst_elastic (sphereOne sphereTwo : Body) :
  Velocity (fst (processCollision sphereOne sphereTwo)) =
  spec_elastic_v1 (Mass sphereOne) (Mass sphereTwo) (Velocity sphereOne) (Velocity sphereTwo).
Proof.
  rewrite processCollision_fst_Velocity. unfold spec_elastic_v1.
  replace (Mass sphereTwo + Mass sphereTwo) with (2 * Mass sphereTwo) by lra.
  reflexivity.
Qed.

(** C2.  The code at the pair [hitOne], [hitTwo] (masses 1 and 3, velocities
    (1,0,0) and 0), which passes the collision test of [processFrame]: the
    first body receives the specified velocity (-1/2,0,0); the second
    receives (1,0,0), whereas the specified formula
    [(2 m1 v1 + (m2 - m1) v2) / (m1 + m2)] gives (1/2,0,0). *)
Theorem processCollision_velTwo_defect :
  collisionDue hitOne hitTwo = true
  /\ Velocity (fst (processCollision hitOne hitTwo)) = mkvec3 (-1 / 2) 0 0
  /\ Velocity (snd (processCollision hitOne hitTwo)) = mkvec3 1 0 0
  /\ spec_elastic_v1 (Mass hitOne) (Mass hitTwo) (Velocity hitOne) (Velocity hitTwo)
     = mkvec3 (-1 / 2) 0 0
  /\ spec_elastic_v2 (Mass hitOne) (Mass hitTwo) (Velocity hitOne) (Velocity hitTwo)
     = mkvec3 (1 / 2) 0 0
  /\ mkvec3 1 0 0 <> mkvec3 (1 / 2) 0 0.
Proof.
  split.
  { unfold collisionDue.
    replace (areColliding hitOne hitTwo) with true
      by (symmetry; apply Rleb_true;
          unfold dot, EPSILON, bodyRadius, getRadius; simpl; lra).
    replace (isZero (Velocity hitOne)) with false;
      [rewrite andb_false_r; reflexivity|].
    symmetry; apply isZero_false_iff. left.
    simpl. unfold EPSILON. rewrite Rabs_right; lra. }
  split.
  { rewrite processCollision_fst_Velocity. simpl.
    unfold vdivs, vadd, smulv; simpl. apply vec3_ext; simpl; lra. }
  split.
  { rewrite processCollision_snd_Velocity. simpl.
    unfold vdivs, vadd, smulv; simpl. apply vec3_ext; simpl; lra. }
  split.
  { unfold spec_elastic_v1, vdivs, vadd, smulv; simpl. apply vec3_ext; simpl; lra. }
  split.
  { unfold spec_elastic_v2, vdivs, vadd, smulv; simpl. apply vec3_ext; simpl; lra. }
  intros H. injection H as H. lra.
Qed.

(** C6.  Two bodies of equal non-zero mass with velocities [v] and [-v]:
    after [processCollision] the first has velocity [-v] and the second has
    velocity [v]. *)
Theorem processCollision_equal_mass_exchange (sphereOne sphereTwo : Body) :
  Mass sphereOne = Mass sphereTwo ->
  Mass sphereOne <> 0 ->
  Velocity sphereTwo = vneg (Velocity sphereOne) ->
  Velocity (fst (processCollision sphereOne sphereTwo)) = vneg (Velocity sphereOne)
  /\ Velocity (snd (processCollision sphereOne sphereTwo)) = Velocity sphereOne.
Proof.
  intros Hm Hnz Hv.
  rewrite processCollision_fst_Velocity, processCollision_snd_Velocity.
  rewrite Hv, <- Hm.
  destruct (Velocity sphereOne) as [x y z].
  unfold vdivs, vadd, smulv, vneg; simpl.
  split; apply vec3_ext; simpl; field; lra.
Qed.

Lemma processCollision_equal_mass_exchange_witness :
  Velocity (fst (processCollision headOne headTwo)) = mkvec3 (-1) (-2) (-3)
  /\ Velocity (snd (processCollision headOne headTwo)) = mkvec3 1 2 3.
Proof.
  destruct (processCollision_equal_mass_exchange headOne headTwo) as [H1 H2].
  - reflexivity.
  - simpl; lra.
  - unfold vneg; simpl. apply vec3_ext; simpl; lra.
  - rewrite H1, H2. split; [|reflexivity].
    unfold vneg; simpl. apply vec3_ext; simpl; lra.
Defined.

(** * One step on a single body *)

Lemma decay_frame (dt : R) (body : Body) :
  let body' := decay dt body in
  sphere body' = sphere body /\ Mass body' = Mass body
  /\ Position body' = Position body
  /\ Acceleration body' = Acceleration body /\ Force body' = Force body
  /\ vForceAccumulator body' = vForceAccumulator body
  /\ tracePoints body' = tracePoints body.
Proof. unfold decay. destruct (negb _); simpl; repeat split; reflexivity. Qed.

(** With [vLambda = 0] the decay factor is [exp 0 = 1]: the decay is the
    identity. *)
Lemma decay_id (dt : R) (body : Body) : decay dt body = body.
Proof.
  unfold decay. destruct (negb _); [|reflexivity].
  unfold vLambda. replace (- 0 * dt) with 0 by lra. rewrite exp_0, vmuls_one.
  destruct body; reflexivity.
Qed.

Lemma surfaceResponse_frame (body : Body) :
  let body' := surfaceResponse body in
  sphere body' = sphere body /\ Mass body' = Mass body
  /\ Acceleration body' = Acceleration body /\ Force body' = Force body
  /\ vForceAccumulator body' = vForceAccumulator body
  /\ tracePoints body' = tracePoints body.
Proof.
  unfold surfaceResponse. destruct (onSurface body).
  - apply processSurfaceCollision_frame.
  - simpl; repeat split; reflexivity.
Qed.

Lemma processFrame_single (dt : R) (body : Body) :
  isSource body = false ->
  processFrame dt [body] =
  [decay dt (surfaceResponse (updateState dt (calculateForce (set_Force (vec3_of 0) body))))].
Proof.
  intros Hs. unfold processFrame; simpl.
  unfold processBody, zeroForce; simpl.
  change (isSource (set_Force (vec3_of 0) body)) with (isSource body). rewrite Hs.
  reflexivity.
Qed.

Lemma processFrame_single_source (dt : R) (body : Body) :
  isSource body = true ->
  processFrame dt [body] = [set_Force (vec3_of 0) body].
Proof.
  intros Hs. unfold processFrame; simpl.
  unfold processBody, zeroForce; simpl.
  change (isSource (set_Force (vec3_of 0) body)) with (isSource body). rewrite Hs.
  reflexivity.
Qed.

(** * Integration *)

Lemma updateState_spec (dt : R) (body : Body) :
  let body' := updateState dt body in
  Acceleration body' = vdivs (Force body) (Mass body)
  /\ Velocity body' = vadd (Velocity body) (vmuls (Acceleration body') dt)
  /\ Position body' = vadd (Position body) (vmuls (Velocity body') dt)
  /\ Mass body' = Mass body /\ Force body' = Force body.
Proof. simpl; repeat split; reflexivity. Qed.

Lemma calculateForce_spec (body : Body) :
  Force (calculateForce body) = vadd (smulv (Mass body) GRAV_FORCE) (vForceAccumulator body)
  /\ vForceAccumulator (calculateForce body) = vec3_of 0.
Proof. split; reflexivity. Qed.

(** C1.  The engine built by the default constructor ([Speed] = 3,
    [dt] = 1/60) steps the single body [pushed] (mass 1, at the origin,
    velocity (60,0,0), no force): force and acceleration are 0, the
    velocity stays (60,0,0), and the position becomes [velocity * dt] =
    (1,0,0), whereas [velocity * dt * Speed] is (3,0,0): [Speed] does not
    enter the position update. *)
Theorem processFrame_position_without_Speed :
  let s := construct Physics_new [pushed] in
  Speed (pEngine s) = 3 /\ dt_global s = 1 / 60
  /\ exists body',
       bodies_of (runOp s OpProcessFrame) = [body']
       /\ Force body' = mkvec3 0 0 0
       /\ Acceleration body' = mkvec3 0 0 0
       /\ Velocity body' = mkvec3 60 0 0
       /\ Position body' = mkvec3 1 0 0
       /\ vadd (Position pushed)
               (vmuls (vmuls (Velocity body') (dt_global s)) (Speed (pEngine s)))
          = mkvec3 3 0 0.
Proof.
  cbv zeta. split; [reflexivity|]. split; [reflexivity|].
  unfold runOp, construct; simpl.
  rewrite processFrame_single by reflexivity.
  rewrite decay_id.
  eexists. split; [reflexivity|].
  assert (Hoff : onSurface (updateState (1 / 60)
                   (calculateForce (set_Force (vec3_of 0) pushed))) = false).
  { apply Rleb_false. unfold surfaceY, EPSILON, bodyRadius, getRadius; simpl. lra. }
  unfold surfaceResponse. rewrite Hoff.
  simpl. unfold vadd, vmuls, vdivs, smulv; simpl.
  repeat split; apply vec3_ext; simpl; lra.
Qed.

(** * Termination flag *)

Lemma runOp_pEngine (s : Sim) (op : EngineOp) : pEngine (runOp s op) = pEngine s.
Proof.
  destruct op; simpl; try reflexivity.
  destruct (bodies_of s !! i); reflexivity.
Qed.

Lemma runOps_pEngine (ops : list EngineOp) :
  forall s : Sim, pEngine (runOps s ops) = pEngine s.
Proof.
  unfold runOps.
  induction ops as [|op ops IH]; intros s; simpl; [reflexivity|].
  rewrite IH. apply runOp_pEngine.
Qed.

(** C10.  After each of the three constructors [endSim] is false, and
    after any sequence of [processFrame], [push], [wait] and [cleanup]
    calls [shouldClose] still returns false. *)
Theorem shouldClose_never_true :
  (forall (bodies : list Body) (ops : list EngineOp),
      shouldClose (pEngine (runOps (construct Physics_new bodies) ops)) = false)
  /\ (forall (speed : R) (bodies : list Body) (ops : list EngineOp),
      shouldClose (pEngine (runOps (construct (Physics_new_speed speed) bodies) ops)) = false)
  /\ (forall (timeStep speed : R) (bodies : list Body) (ops : list EngineOp),
      shouldClose
        (pEngine (runOps (construct (Physics_new_step_speed timeStep speed) bodies) ops))
      = false).
Proof.
  repeat split; intros; rewrite runOps_pEngine; reflexivity.
Qed.

(** * Mass of a body *)

Lemma processFrame_single_Mass_Acceleration (dt : R) (body : Body) :
  isSource body = false ->
  exists body',
    processFrame dt [body] = [body']
    /\ Mass body' = Mass body
    /\ Force body' = vadd (smulv (Mass body) GRAV_FORCE) (vForceAccumulator body)
    /\ Acceleration body' = vdivs (Force body') (Mass body).
Proof.
  intros Hs. rewrite processFrame_single by exact Hs. rewrite decay_id.
  eexists; split; [reflexivity|].
  destruct (surfaceResponse_frame
              (updateState dt (calculateForce (set_Force (vec3_of 0) body))))
    as (_ & Hm & Ha & Hf & _).
  rewrite Hm, Ha, Hf. simpl. repeat split; reflexivity.
Qed.

(** C8, as the code has it.  A [Body] is a plain struct: its [Mass]
    defaults to 1 and an assignment stores any value [m], also zero or a
    negative one; nothing rejects or clamps it.  The physics step then
    processes that body, keeps [Mass = m] and computes the acceleration as
    [Force / m] without a guard. *)
Theorem Body_Mass_unchecked (m : R) (position : vec3) (dt : R) :
  Mass (Body_default position) = 1
  /\ Mass (set_Mass m (Body_default position)) = m
  /\ exists body',
       processFrame dt [set_Mass m (Body_default position)] = [body']
       /\ Mass body' = m
       /\ Acceleration body' = vdivs (Force body') m.
Proof.
  split; [reflexivity|]. split; [reflexivity|].
  destruct (processFrame_single_Mass_Acceleration dt (set_Mass m (Body_default position)))
    as (body' & Hp & Hm & _ & Ha); [reflexivity|].
  exists body'. auto.
Qed.

(** C8 fails as stated: the body [massless] is constructed with mass 0,
    which is <= 0, and the step of the default engine processes it,
    dividing its force by 0. *)
Lemma zero_mass_reaches_step :
  Mass massless <= 0
  /\ exists body',
       processFrame (snd Physics_new) [massless] = [body']
       /\ Mass body' = 0
       /\ Acceleration body' = vdivs (Force body') 0.
Proof.
  split; [simpl; lra|].
  destruct (processFrame_single_Mass_Acceleration (snd Physics_new) massless)
    as (body' & Hp & Hm & _ & Ha); [reflexivity|].
  exists body'. auto.
Qed.

(** * The force accumulator across a step *)

Section Pointwise.
Variable Q : nat -> Body -> Body -> Prop.
Hypothesis Q_refl : forall k b, Q k b b.
Hypothesis Q_trans : forall k a b c, Q k a b -> Q k b c -> Q k a c.

Lemma pointwise_refl (bodies : list Body) : pointwise Q bodies bodies.
Proof. split; [reflexivity|]. intros k b Hk; exists b; auto. Qed.

Lemma pointwise_trans (x y z : list Body) :
  pointwise Q x y -> pointwise Q y z -> pointwise Q x z.
Proof.
  intros [Hl1 H1] [Hl2 H2]. split; [congruence|].
  intros k b Hk. destruct (H1 k b Hk) as (b1 & Hk1 & Hq1).
  destruct (H2 k b1 Hk1) as (b2 & Hk2 & Hq2).
  exists b2; split; [exact Hk2|]. eapply Q_trans; eauto.
Qed.

Lemma pointwise_insert (bodies : list Body) (i : nat) (b b' : Body) :
  bodies !! i = Some b -> Q i b b' -> pointwise Q bodies (<[i := b']> bodies).
Proof.
  intros Hi Hq. split; [apply length_insert|].
  intros k c Hk. destruct (Nat.eq_dec i k) as [->|Hne].
  - exists b'. split.
    + apply list_lookup_insert_eq. eapply lookup_lt_Some; eauto.
    + rewrite Hi in Hk. injection Hk as <-. exact Hq.
  - exists c. split; [|apply Q_refl].
    rewrite list_lookup_insert_ne by exact Hne. exact Hk.
Qed.

Lemma pointwise_fold (f : list Body -> nat -> list Body) (l : list nat) :
  (forall bodies j, In j l -> pointwise Q bodies (f bodies j)) ->
  forall bodies, pointwise Q bodies (fold_left f l bodies).
Proof.
  induction l as [|j l IH]; intros Hf bodies; simpl.
  - apply pointwise_refl.
  - eapply pointwise_trans.
    + apply Hf. left; reflexivity.
    + apply IH. intros bs j' Hin. apply Hf. right; exact Hin.
Qed.
End Pointwise.

Lemma pointwise_weaken (Q Q' : nat -> Body -> Body -> Prop) (x y : list Body) :
  (forall k b b', Q k b b' -> Q' k b b') -> pointwise Q x y -> pointwise Q' x y.
Proof.
  intros Hw [Hl H]. split; [exact Hl|].
  intros k b Hk. destruct (H k b Hk) as (b' & Hk' & Hq). exists b'; auto.
Qed.

Lemma Qframe_refl (i k : nat) (b : Body) : Qframe i k b b.
Proof. repeat split; auto. Qed.

Lemma Qframe_trans (i k : nat) (a b c : Body) :
  Qframe i k a b -> Qframe i k b c -> Qframe i k a c.
Proof.
  intros (Hs1 & Hl1 & He1) (Hs2 & Hl2 & He2). repeat split.
  - congruence.
  - intros Hlt. rewrite (Hl2 Hlt). auto.
  - intros Hs Hne. rewrite He2; [auto| |auto]. rewrite (He1 Hs Hne). exact Hs.
Qed.

Lemma Qkeep_refl (k : nat) (b : Body) : Qkeep k b b.
Proof. split; reflexivity. Qed.

Lemma Qkeep_trans (k : nat) (a b c : Body) : Qkeep k a b -> Qkeep k b c -> Qkeep k a c.
Proof. intros [H1 H2] [H3 H4]. split; congruence. Qed.

Lemma Qafter_refl (i k : nat) (b : Body) : Qafter i k b b.
Proof. split; [apply Qframe_refl|apply Qkeep_refl]. Qed.

Lemma Qafter_trans (i k : nat) (a b c : Body) :
  Qafter i k a b -> Qafter i k b c -> Qafter i k a c.
Proof.
  intros [H1 H2] [H3 H4]. split;
    [eapply Qframe_trans; eauto|eapply Qkeep_trans; eauto].
Qed.

(** A change of the body at index [i] itself that keeps its [source] flag. *)
Lemma Qframe_self (i : nat) (b b' : Body) : isSource b' = isSource b -> Qframe i i b b'.
Proof. intros Hs. repeat split; [exact Hs|lia|congruence]. Qed.

(** A change of a later, non-exempt body that keeps its [source] flag. *)
Lemma Qframe_later (i j : nat) (b b' : Body) :
  (i < j)%nat -> isSource b = false -> isSource b' = isSource b -> Qframe i j b b'.
Proof. intros Hlt Hns Hs. repeat split; [exact Hs|lia|congruence]. Qed.

Lemma calculateGravForce_isSource (sphereOne sphereTwo : Body) :
  isSource (fst (calculateGravForce sphereOne sphereTwo)) = isSource sphereOne
  /\ isSource (snd (calculateGravForce sphereOne sphereTwo)) = isSource sphereTwo.
Proof. unfold calculateGravForce. destruct (Rltb _ _); split; reflexivity. Qed.

Lemma processCollision_keep (sphereOne sphereTwo : Body) :
  Qkeep 0 sphereOne (fst (processCollision sphereOne sphereTwo))
  /\ Qkeep 0 sphereTwo (snd (processCollision sphereOne sphereTwo)).
Proof.
  unfold processCollision, Qkeep. destruct (Rltb 0 _); simpl; repeat split; reflexivity.
Qed.

Lemma surfaceResponse_keep (body : Body) : Qkeep 0 body (surfaceResponse body).
Proof.
  destruct (surfaceResponse_frame body) as (Hs & _ & _ & _ & Ha & _).
  split; [unfold isSource; rewrite Hs; reflexivity|exact Ha].
Qed.

Lemma decay_keep (dt : R) (body : Body) : Qkeep 0 body (decay dt body).
Proof. rewrite decay_id. apply Qkeep_refl. Qed.

Lemma laterIndices_gt (i j : nat) (bodies : list Body) :
  In j (laterIndices i bodies) -> (i < j)%nat.
Proof. unfold laterIndices. rewrite in_seq. lia. Qed.

Lemma zeroForce_frame (i : nat) (bodies : list Body) :
  pointwise (Qframe i) bodies (zeroForce i bodies).
Proof.
  unfold zeroForce. destruct (bodies !! i) as [body|] eqn:Hi.
  - apply (pointwise_insert (Qframe i) (Qframe_refl i) bodies i body); auto.
    apply Qframe_self. reflexivity.
  - apply pointwise_refl, Qframe_refl.
Qed.

Lemma gravStep_frame (i j : nat) (bodies : list Body) :
  (i < j)%nat -> pointwise (Qframe i) bodies (gravStep i bodies j).
Proof.
  intros Hlt. unfold gravStep.
  destruct (bodies !! i) as [body|] eqn:Hi; [|apply pointwise_refl, Qframe_refl].
  destruct (bodies !! j) as [sBody|] eqn:Hj; [|apply pointwise_refl, Qframe_refl].
  destruct (isSource sBody) eqn:Hs; [apply pointwise_refl, Qframe_refl|].
  destruct (calculateGravForce_isSource body sBody) as [H1 H2].
  destruct (calculateGravForce body sBody) as [body' sBody']; simpl in H1, H2.
  apply (pointwise_trans (Qframe i) (Qframe_trans i) bodies (<[i := body']> bodies)).
  - apply (pointwise_insert (Qframe i) (Qframe_refl i) bodies i body); auto.
    apply Qframe_self. exact H1.
  - apply (pointwise_insert (Qframe i) (Qframe_refl i) _ j sBody).
    + rewrite list_lookup_insert_ne by lia. exact Hj.
    + apply Qframe_later; auto.
Qed.

Lemma gravLoop_frame (i : nat) (bodies : list Body) :
  pointwise (Qframe i) bodies (gravLoop i bodies).
Proof.
  unfold gravLoop.
  apply (pointwise_fold (Qframe i) (Qframe_refl i) (Qframe_trans i)).
  intros bs j Hin. apply gravStep_frame. eapply laterIndices_gt; eauto.
Qed.

Lemma integrate_frame (dt : R) (i : nat) (bodies : list Body) :
  pointwise (Qframe i) bodies (integrate dt i bodies).
Proof.
  unfold integrate. destruct (bodies !! i) as [body|] eqn:Hi.
  - apply (pointwise_insert (Qframe i) (Qframe_refl i) bodies i body); auto.
    apply Qframe_self. reflexivity.
  - apply pointwise_refl, Qframe_refl.
Qed.

Lemma Qafter_self (i : nat) (b b' : Body) : Qkeep 0 b b' -> Qafter i i b b'.
Proof. intros Hk. split; [apply Qframe_self; apply Hk|exact Hk]. Qed.

Lemma Qafter_later (i j : nat) (b b' : Body) :
  (i < j)%nat -> isSource b = false -> Qkeep 0 b b' -> Qafter i j b b'.
Proof. intros Hlt Hns Hk. split; [apply Qframe_later; auto; apply Hk|exact Hk]. Qed.

Lemma surfaceStep_after (i : nat) (bodies : list Body) :
  pointwise (Qafter i) bodies (surfaceStep i bodies).
Proof.
  unfold surfaceStep. destruct (bodies !! i) as [body|] eqn:Hi.
  - apply (pointwise_insert (Qafter i) (Qafter_refl i) bodies i body); auto.
    apply Qafter_self, surfaceResponse_keep.
  - apply pointwise_refl, Qafter_refl.
Qed.

Lemma decayStep_after (dt : R) (i : nat) (bodies : list Body) :
  pointwise (Qafter i) bodies (decayStep dt i bodies).
Proof.
  unfold decayStep. destruct (bodies !! i) as [body|] eqn:Hi.
  - apply (pointwise_insert (Qafter i) (Qafter_refl i) bodies i body); auto.
    apply Qafter_self, decay_keep.
  - apply pointwise_refl, Qafter_refl.
Qed.

Lemma collideStep_after (i j : nat) (bodies : list Body) :
  (i < j)%nat -> pointwise (Qafter i) bodies (collideStep i bodies j).
Proof.
  intros Hlt. unfold collideStep.
  destruct (bodies !! i) as [body|] eqn:Hi; [|apply pointwise_refl, Qafter_refl].
  destruct (bodies !! j) as [colBody|] eqn:Hj; [|apply pointwise_refl, Qafter_refl].
  destruct (isSource colBody) eqn:Hs; [apply pointwise_refl, Qafter_refl|].
  destruct (collisionDue colBody body); [|apply pointwise_refl, Qafter_refl].
  destruct (processCollision_keep colBody body) as [H1 H2].
  destruct (processCollision colBody body) as [colBody' body']; simpl in H1, H2.
  apply (pointwise_trans (Qafter i) (Qafter_trans i) bodies (<[j := colBody']> bodies)).
  - apply (pointwise_insert (Qafter i) (Qafter_refl i) bodies j colBody); auto.
    apply Qafter_later; auto.
  - apply (pointwise_insert (Qafter i) (Qafter_refl i) _ i body).
    + rewrite list_lookup_insert_ne by lia. exact Hi.
    + apply Qafter_self. exact H2.
Qed.

Lemma collideLoop_after (i : nat) (bodies : list Body) :
  pointwise (Qafter i) bodies (collideLoop i bodies).
Proof.
  unfold collideLoop.
  apply (pointwise_fold (Qafter i) (Qafter_refl i) (Qafter_trans i)).
  intros bs j Hin. apply collideStep_after. eapply laterIndices_gt; eauto.
Qed.

(** The three phases that follow the integration, together. *)
Lemma afterIntegration_after (dt : R) (i : nat) (bodies : list Body) :
  pointwise (Qafter i) bodies (decayStep dt i (collideLoop i (surfaceStep i bodies))).
Proof.
  eapply pointwise_trans; [apply Qafter_trans|apply surfaceStep_after|].
  eapply pointwise_trans; [apply Qafter_trans|apply collideLoop_after|].
  apply decayStep_after.
Qed.

Lemma processBody_frame (dt : R) (i : nat) (bodies : list Body) :
  pointwise (Qframe i) bodies (processBody dt bodies i).
Proof.
  unfold processBody.
  pose proof (zeroForce_frame i bodies) as Hz.
  destruct (zeroForce i bodies !! i) as [body|]; [|exact Hz].
  destruct (isSource body); [exact Hz|].
  eapply pointwise_trans; [apply Qframe_trans|exact Hz|].
  eapply pointwise_trans; [apply Qframe_trans|apply gravLoop_frame|].
  eapply pointwise_trans; [apply Qframe_trans|apply integrate_frame|].
  eapply pointwise_weaken; [|apply afterIntegration_after].
  intros k b b' [H _]; exact H.
Qed.

Lemma zeroForce_lookup (i : nat) (bodies : list Body) (b : Body) :
  bodies !! i = Some b -> zeroForce i bodies !! i = Some (set_Force (vec3_of 0) b).
Proof.
  intros Hi. unfold zeroForce. rewrite Hi.
  apply list_lookup_insert_eq. eapply lookup_lt_Some; eauto.
Qed.

(** An exempt body at index [i]: only its [Force] is cleared. *)
Lemma processBody_source (dt : R) (i : nat) (bodies : list Body) (b : Body) :
  bodies !! i = Some b -> isSource b = true ->
  processBody dt bodies i !! i = Some (set_Force (vec3_of 0) b).
Proof.
  intros Hi Hs. unfold processBody.
  rewrite (zeroForce_lookup i bodies b Hi).
  change (isSource (set_Force (vec3_of 0) b)) with (isSource b). rewrite Hs.
  apply zeroForce_lookup; exact Hi.
Qed.

(** A non-exempt body at index [i]: its accumulator ends at zero. *)
Lemma processBody_drained (dt : R) (i : nat) (bodies : list Body) (b : Body) :
  bodies !! i = Some b -> isSource b = false ->
  exists b', processBody dt bodies i !! i = Some b'
             /\ vForceAccumulator b' = vec3_of 0.
Proof.
  intros Hi Hs. unfold processBody.
  rewrite (zeroForce_lookup i bodies b Hi).
  change (isSource (set_Force (vec3_of 0) b)) with (isSource b). rewrite Hs.
  destruct (gravLoop_frame i (zeroForce i bodies)) as [Hlen Hg].
  destruct (Hg i _ (zeroForce_lookup i bodies b Hi)) as (b1 & Hb1 & _).
  set (l1 := gravLoop i (zeroForce i bodies)) in *.
  assert (Hint : integrate dt i l1 !! i = Some (updateState dt (calculateForce b1))).
  { unfold integrate. rewrite Hb1.
    apply list_lookup_insert_eq. eapply lookup_lt_Some; eauto. }
  destruct (afterIntegration_after dt i (integrate dt i l1)) as [_ Ha].
  destruct (Ha i _ Hint) as (b' & Hb' & _ & _ & Hacc).
  exists b'. split; [exact Hb'|]. rewrite Hacc. reflexivity.
Qed.

Lemma processFrame_prefix (dt : R) (bodies : list Body) (m : nat) :
  pointwise (Qdone m) bodies (fold_left (processBody dt) (seq 0 m) bodies).
Proof.
  induction m as [|m IH].
  - simpl. split; [reflexivity|]. intros k b Hk. exists b. split; [exact Hk|].
    repeat split; auto. intros _ Hlt. lia.
  - rewrite seq_S, fold_left_app. simpl.
    set (cur := fold_left (processBody dt) (seq 0 m) bodies) in *.
    destruct IH as [Hlen IH].
    destruct (processBody_frame dt m cur) as [Hlen' Hstep].
    split; [congruence|].
    intros k b Hk.
    destruct (IH k b Hk) as (c & Hc & Hsc & Hsrc & Hacc).
    destruct (Hstep k c Hc) as (n & Hn & Hsn & Hlt & Hother).
    exists n. split; [exact Hn|].
    split; [congruence|].
    destruct (lt_eq_lt_dec k m) as [[Hkm|Hkm]|Hkm].
    + rewrite (Hlt Hkm). split.
      * intros Hs. rewrite (Hsrc Hs).
        replace (k <? m)%nat with true by (symmetry; apply Nat.ltb_lt; lia).
        replace (k <? S m)%nat with true by (symmetry; apply Nat.ltb_lt; lia).
        reflexivity.
      * intros Hs _. apply Hacc; auto.
    + subst k. split.
      * intros Hs.
        assert (Hcb : c = b).
        { rewrite (Hsrc Hs).
          replace (m <? m)%nat with false by (symmetry; apply Nat.ltb_ge; lia).
          reflexivity. }
        subst c. rewrite (processBody_source dt m cur b Hc Hs) in Hn.
        injection Hn as <-.
        replace (m <? S m)%nat with true by (symmetry; apply Nat.ltb_lt; lia).
        reflexivity.
      * intros Hs _.
        assert (Hcs : isSource c = false) by congruence.
        destruct (processBody_drained dt m cur c Hc Hcs) as (n' & Hn' & Hz).
        rewrite Hn' in Hn. injection Hn as <-. exact Hz.
    + split.
      * intros Hs.
        assert (Hcb : c = b).
        { rewrite (Hsrc Hs).
          replace (k <? m)%nat with false by (symmetry; apply Nat.ltb_ge; lia).
          reflexivity. }
        subst c. rewrite (Hother Hs) by lia.
        replace (k <? S m)%nat with false by (symmetry; apply Nat.ltb_ge; lia).
        reflexivity.
      * intros _ Hlt'. lia.
Qed.

(** C4 fails as stated for a light source: the single-body list
    [[staleLight]] is stepped, and the accumulator (1,0,0) of the light is
    still there afterwards. *)
Lemma light_accumulator_survives :
  isSource staleLight = true
  /\ processFrame (1 / 60) [staleLight] = [set_Force (vec3_of 0) staleLight]
  /\ vForceAccumulator (set_Force (vec3_of 0) staleLight) = mkvec3 1 0 0
  /\ mkvec3 1 0 0 <> vec3_of 0.
Proof.
  split; [reflexivity|]. split; [apply processFrame_single_source; reflexivity|].
  split; [reflexivity|].
  intros H. injection H as H. lra.
Qed.

(** * Momentum of an isolated pair *)

Lemma gravLoop_pair (a b : Body) :
  isSource b = false ->
  gravLoop 0 [a; b] = [fst (calculateGravForce a b); snd (calculateGravForce a b)].
Proof.
  intros Hs. unfold gravLoop, laterIndices, gravStep; simpl. rewrite Hs.
  destruct (calculateGravForce a b); reflexivity.
Qed.

Lemma collideLoop_pair_quiet (a b : Body) :
  isSource b = false -> collisionDue b a = false -> collideLoop 0 [a; b] = [a; b].
Proof.
  intros Hs Hc. unfold collideLoop, laterIndices, collideStep; simpl.
  rewrite Hs, Hc. reflexivity.
Qed.

Lemma surfaceResponse_off (body : Body) : onSurface body = false -> surfaceResponse body = body.
Proof. intros H. unfold surfaceResponse. rewrite H. reflexivity. Qed.

Lemma processFrame_pair_quiet (dt : R) (b0 b1 : Body) :
  isSource b0 = false -> isSource b1 = false -> quietStep dt [b0; b1] ->
  processFrame dt [b0; b1] = [firstIntegrated dt b0 b1; secondIntegrated dt b0 b1].
Proof.
  intros H0 H1 (Hs0 & Hc & Hs1).
  assert (Hg1 : isSource (snd (afterGravity b0 b1)) = false).
  { unfold afterGravity.
    destruct (calculateGravForce_isSource (set_Force (vec3_of 0) b0) b1) as [_ ->].
    exact H1. }
  unfold processFrame. change (seq 0 (length [b0; b1])) with [0%nat; 1%nat].
  change (fold_left (processBody dt) [0%nat; 1%nat] [b0; b1])
    with (processBody dt (processBody dt [b0; b1] 0) 1).
  assert (Hfirst : processBody dt [b0; b1] 0 =
                   [firstIntegrated dt b0 b1; snd (afterGravity b0 b1)]).
  { unfold processBody.
    change (zeroForce 0 [b0; b1]) with [set_Force (vec3_of 0) b0; b1].
    change ([set_Force (vec3_of 0) b0; b1] !! 0%nat) with (Some (set_Force (vec3_of 0) b0)).
    cbv beta iota.
    change (isSource (set_Force (vec3_of 0) b0)) with (isSource b0). rewrite H0.
    rewrite gravLoop_pair by exact H1.
    fold (afterGravity b0 b1).
    change (integrate dt 0 [fst (afterGravity b0 b1); snd (afterGravity b0 b1)])
      with [firstIntegrated dt b0 b1; snd (afterGravity b0 b1)].
    change (surfaceStep 0 [firstIntegrated dt b0 b1; snd (afterGravity b0 b1)])
      with [surfaceResponse (firstIntegrated dt b0 b1); snd (afterGravity b0 b1)].
    rewrite surfaceResponse_off by exact Hs0.
    rewrite collideLoop_pair_quiet by assumption.
    unfold decayStep; simpl. rewrite decay_id. reflexivity. }
  rewrite Hfirst.
  unfold processBody.
  change (zeroForce 1 [firstIntegrated dt b0 b1; snd (afterGravity b0 b1)])
    with [firstIntegrated dt b0 b1; set_Force (vec3_of 0) (snd (afterGravity b0 b1))].
  change ([firstIntegrated dt b0 b1; set_Force (vec3_of 0) (snd (afterGravity b0 b1))] !! 1%nat)
    with (Some (set_Force (vec3_of 0) (snd (afterGravity b0 b1)))).
  cbv beta iota.
  change (isSource (set_Force (vec3_of 0) (snd (afterGravity b0 b1))))
    with (isSource (snd (afterGravity b0 b1))). rewrite Hg1.
  change (gravLoop 1 [firstIntegrated dt b0 b1; set_Force (vec3_of 0) (snd (afterGravity b0 b1))])
    with [firstIntegrated dt b0 b1; set_Force (vec3_of 0) (snd (afterGravity b0 b1))].
  change (integrate dt 1 [firstIntegrated dt b0 b1; set_Force (vec3_of 0) (snd (afterGravity b0 b1))])
    with [firstIntegrated dt b0 b1; secondIntegrated dt b0 b1].
  change (surfaceStep 1 [firstIntegrated dt b0 b1; secondIntegrated dt b0 b1])
    with [firstIntegrated dt b0 b1; surfaceResponse (secondIntegrated dt b0 b1)].
  rewrite surfaceResponse_off by exact Hs1.
  change (collideLoop 1 [firstIntegrated dt b0 b1; secondIntegrated dt b0 b1])
    with [firstIntegrated dt b0 b1; secondIntegrated dt b0 b1].
  unfold decayStep; simpl. rewrite decay_id. reflexivity.
Qed.

(** The two contributions of a pair are opposite: the sum of the two
    accumulators is unchanged by [calculateGravForce]; nothing else of the
    two bodies changes. *)
Lemma calculateGravForce_balance (sphereOne sphereTwo : Body) :
  let r := calculateGravForce sphereOne sphereTwo in
  vadd (vForceAccumulator (fst r)) (vForceAccumulator (snd r))
  = vadd (vForceAccumulator sphereOne) (vForceAccumulator sphereTwo)
  /\ Mass (fst r) = Mass sphereOne /\ Mass (snd r) = Mass sphereTwo
  /\ Velocity (fst r) = Velocity sphereOne /\ Velocity (snd r) = Velocity sphereTwo.
Proof.
  unfold calculateGravForce. destruct (Rltb _ _); simpl.
  - repeat split; reflexivity.
  - repeat split; try reflexivity.
    unfold vadd, smulv, vneg; simpl. apply vec3_ext; simpl; ring.
Qed.

Lemma quietStep_momentum (dt : R) (bodies : list Body) :
  isolatedPair bodies -> quietStep dt bodies ->
  isolatedPair (processFrame dt bodies)
  /\ momentum (processFrame dt bodies) = momentum bodies.
Proof.
  intros (b0 & b1 & -> & H0 & H1 & Hm0 & Hm1 & Ha0 & Ha1) Hq.
  rewrite (processFrame_pair_quiet dt b0 b1 H0 H1 Hq).
  destruct (calculateGravForce_isSource (set_Force (vec3_of 0) b0) b1) as [Hi0 Hi1].
  destruct (calculateGravForce_balance (set_Force (vec3_of 0) b0) b1)
    as (Hsum & HM0 & HM1 & HV0 & HV1).
  fold (afterGravity b0 b1) in Hi0, Hi1, Hsum, HM0, HM1, HV0, HV1.
  cbv zeta in Hsum, HM0, HM1, HV0, HV1.
  split.
  - exists (firstIntegrated dt b0 b1), (secondIntegrated dt b0 b1).
    split; [reflexivity|].
    unfold firstIntegrated, secondIntegrated.
    repeat split; simpl; try reflexivity.
    + exact (eq_trans Hi0 H0).
    + exact (eq_trans Hi1 H1).
    + rewrite HM0. exact Hm0.
    + rewrite HM1. exact Hm1.
  - unfold momentum, firstIntegrated, secondIntegrated; simpl.
    rewrite HM0, HM1, HV0, HV1.
    change (vForceAccumulator (set_Force (vec3_of 0) b0)) with (vForceAccumulator b0) in Hsum.
    rewrite Ha0, Ha1 in Hsum.
    change (Mass (set_Force (vec3_of 0) b0)) with (Mass b0).
    change (Velocity (set_Force (vec3_of 0) b0)) with (Velocity b0).
    destruct (vForceAccumulator (fst (afterGravity b0 b1))) as [p q r].
    destruct (vForceAccumulator (snd (afterGravity b0 b1))) as [p' q' r'].
    unfold vadd, vec3_of in Hsum; simpl in Hsum. injection Hsum as Hp Hq' Hr.
    assert (p' = - p) by lra. assert (q' = - q) by lra. assert (r' = - r) by lra.
    subst p' q' r'.
    unfold vadd, smulv, vmuls, vdivs, GRAV_FORCE, vec3_of; simpl.
    apply vec3_ext; simpl; field; auto.
Qed.

Lemma quietSteps_momentum (dt : R) (n : nat) :
  forall bodies : list Body,
    isolatedPair bodies ->
    (forall k, (k < n)%nat -> quietStep dt (processFrames k dt bodies)) ->
    momentum (processFrames n dt bodies) = momentum bodies.
Proof.
  induction n as [|n IH]; intros bodies Hiso Hq; simpl; [reflexivity|].
  destruct (quietStep_momentum dt bodies Hiso (Hq 0%nat ltac:(lia))) as [Hiso' Hmom].
  rewrite IH; [exact Hmom|exact Hiso'|].
  intros k Hk. apply (Hq (S k)). lia.
Qed.

(** C5.  Two non-exempt bodies of non-zero mass with empty accumulators,
    stepped [n] times with no surface contact and no pairwise collision in
    any of the steps (the decay rate of the code is 0): the total momentum
    [m0 v0 + m1 v1] after the [n] steps equals the initial one. *)
Theorem momentum_conserved (dt : R) (b0 b1 : Body) (n : nat) :
  isSource b0 = false -> isSource b1 = false ->
  Mass b0 <> 0 -> Mass b1 <> 0 ->
  vForceAccumulator b0 = vec3_of 0 -> vForceAccumulator b1 = vec3_of 0 ->
  (forall k, (k < n)%nat -> quietStep dt (processFrames k dt [b0; b1])) ->
  vLambda = 0
  /\ momentum (processFrames n dt [b0; b1])
     = vadd (smulv (Mass b0) (Velocity b0)) (smulv (Mass b1) (Velocity b1)).
Proof.
  intros H0 H1 Hm0 Hm1 Ha0 Ha1 Hq. split; [reflexivity|].
  rewrite (quietSteps_momentum dt n [b0; b1]); [| |exact Hq].
  - unfold momentum; simpl. destruct (Velocity b0), (Velocity b1).
    unfold vadd, smulv; simpl. apply vec3_ext; simpl; lra.
  - exists b0, b1. repeat split; auto.
Qed.

Lemma normalize_orbit :
  normalize (vsub (Position orbitTwo) (Position orbitOne)) = mkvec3 1 0 0.
Proof.
  unfold normalize, inversesqrt, dot, vsub, vmuls; simpl.
  replace ((2 - 0) * (2 - 0) + (10 - 10) * (10 - 10) + (0 - 0) * (0 - 0)) with (2 * 2) by lra.
  rewrite sqrt_square by lra.
  apply vec3_ext; simpl; lra.
Qed.

Lemma afterGravity_orbit :
  afterGravity orbitOne orbitTwo =
  (set_vForceAccumulator (mkvec3 (GRAV_CONST * (3 / 4)) 0 0) (set_Force (vec3_of 0) orbitOne),
   set_vForceAccumulator (mkvec3 (- (GRAV_CONST * (3 / 4))) 0 0) orbitTwo).
Proof.
  unfold afterGravity, calculateGravForce.
  replace (Rltb _ _) with false.
  - change (Position (set_Force (vec3_of 0) orbitOne)) with (Position orbitOne).
    rewrite normalize_orbit.
    unfold calculateDistanceSquare, dot, vsub, vadd, smulv, vneg; simpl.
    f_equal; f_equal; apply vec3_ext; simpl; lra.
  - symmetry. apply Rltb_false.
    unfold calculateDistanceSquare, dot, vsub, minDistSq, EPSILON; simpl. lra.
Qed.

Lemma quietStep_orbit : quietStep (1 / 60) [orbitOne; orbitTwo].
Proof.
  unfold quietStep, firstIntegrated, secondIntegrated.
  rewrite afterGravity_orbit. cbn [fst snd].
  repeat split.
  - apply Rleb_false.
    unfold surfaceY, EPSILON, bodyRadius, getRadius, GRAV_CONST; simpl. lra.
  - unfold collisionDue.
    replace (areColliding _ _) with false; [reflexivity|].
    symmetry. apply Rleb_false.
    unfold dot, EPSILON, bodyRadius, getRadius, GRAV_CONST; simpl. lra.
  - apply Rleb_false.
    unfold surfaceY, EPSILON, bodyRadius, getRadius, GRAV_CONST; simpl. lra.
Qed.

Lemma momentum_conserved_witness :
  vLambda = 0
  /\ momentum (processFrames 1 (1 / 60) [orbitOne; orbitTwo])
     = vadd (smulv (Mass orbitOne) (Velocity orbitOne))
            (smulv (Mass orbitTwo) (Velocity orbitTwo)).
Proof.
  apply (momentum_conserved (1 / 60) orbitOne orbitTwo 1).
  - reflexivity.
  - reflexivity.
  - simpl; lra.
  - simpl; lra.
  - reflexivity.
  - reflexivity.
  - intros k Hk. assert (k = 0%nat) as -> by lia. exact quietStep_orbit.
Defined.

(** * The fixed-timestep loop *)


(** The loop with enough fuel: it runs [k] steps, leaves less than [dt] in
    the accumulator, and what it leaves is non-negative unless no step ran. *)
Lemma fixedLoop_result (dt : R) (fuel : nat) :
  0 < dt ->
  forall (bodies : list Body) (accumulator : R) (steps : nat),
    accumulator < (INR fuel + 1) * dt ->
    exists (k : nat) (rest : R),
      fixedLoop fuel dt bodies accumulator steps
      = Some (processFrames k dt bodies, rest, (steps + k)%nat)
      /\ rest = accumulator - INR k * dt
      /\ rest < dt
      /\ (k = 0%nat \/ 0 <= rest).
Proof.
  intros Hdt. induction fuel as [|fuel IH]; intros bodies acc steps Hacc.
  - exists 0%nat, acc. simpl in Hacc. simpl.
    replace (Rleb dt acc) with false by (symmetry; apply Rleb_false; lra).
    rewrite Nat.add_0_r. repeat split; auto; lra.
  - simpl fixedLoop. destruct (Rleb dt acc) eqn:Hle.
    + apply Rleb_true in Hle. rewrite S_INR in Hacc.
      destruct (IH (processFrame dt bodies) (acc - dt) (S steps)) as (k & rest & He & Hr & Hlt & Hk);
        [lra|].
      exists (S k), rest. rewrite He, S_INR. simpl processFrames.
      replace (S steps + k)%nat with (steps + S k)%nat by lia.
      repeat split; auto; try lra.
      right. destruct Hk as [->|Hk]; [simpl in Hr; lra|exact Hk].
    + apply Rleb_false in Hle. exists 0%nat, acc. simpl.
      rewrite Nat.add_0_r. repeat split; auto; lra.
Qed.

Lemma enough_fuel (dt total : R) :
  0 < dt -> exists fuel0 : nat, forall fuel, (fuel0 <= fuel)%nat -> total < (INR fuel + 1) * dt.
Proof.
  intros Hdt. exists (Z.to_nat (up (total / dt))). intros fuel Hfuel.
  destruct (archimed (total / dt)) as [Hup _].
  assert (Hz : IZR (up (total / dt)) <= INR fuel).
  { destruct (Z_lt_le_dec (up (total / dt)) 0) as [Hneg|Hpos].
    - apply Rle_trans with 0; [apply IZR_le; lia|apply pos_INR].
    - rewrite <- (Z2Nat.id _ Hpos), <- INR_IZR_INZ. apply le_INR. exact Hfuel. }
  assert (Ht : total = total / dt * dt) by (field; lra).
  rewrite Ht.
  apply Rlt_le_trans with (INR fuel * dt); [|nra].
  apply Rmult_lt_compat_r; lra.
Qed.

(** * Further properties of the helpers of Physics *)

(** X1.  [isZero] holds exactly when every component is smaller than
    [EPSILON] = 1/1000 in magnitude; the exact comparison with the zero
    vector that comes first adds nothing. *)
Theorem isZero_characterised (v : vec3) :
  isZero v = true <->
  Rabs (vx v) < 1 / 1000 /\ Rabs (vy v) < 1 / 1000 /\ Rabs (vz v) < 1 / 1000.
Proof.
  rewrite isZero_true_iff. unfold EPSILON.
  replace 1e-3 with (1 / 1000) by lra. tauto.
Qed.

Lemma body_eta (b : Body) :
  mkBody (sphere b) (Mass b) (Position b) (Velocity b) (Acceleration b) (Force b)
         (vForceAccumulator b) (tracePoints b) = b.
Proof. destruct b; reflexivity. Qed.

(** X2.  Two impulses in a row act as their sum, and an impulse followed
    by the opposite impulse gives the body back. *)
Theorem push_compose_undo (body : Body) (i1 i2 : vec3) :
  push (push body i1) i2 = push body (vadd i1 i2)
  /\ push (push body i1) (vneg i1) = body.
Proof.
  split.
  - unfold push, set_Velocity; simpl. f_equal.
    unfold vadd; simpl. apply vec3_ext; simpl; lra.
  - unfold push, set_Velocity; simpl. rewrite <- (body_eta body) at 9. f_equal.
    destruct (Velocity body); unfold vadd, vneg; simpl. apply vec3_ext; simpl; lra.
Qed.

Lemma dot_vsub_sym (p q : vec3) : dot (vsub p q) (vsub p q) = dot (vsub q p) (vsub q p).
Proof. unfold dot, vsub; simpl. ring. Qed.

Lemma dot_self_nonneg (v : vec3) : 0 <= dot v v.
Proof. unfold dot. nra. Qed.

Lemma getDistance_sqrt (sphereOne sphereTwo : Body) :
  getDistance sphereOne sphereTwo = sqrt (calculateDistanceSquare sphereOne sphereTwo).
Proof.
  unfold getDistance, calculateDistanceSquare; cbv zeta. f_equal. apply dot_vsub_sym.
Qed.

(** X3.  The distance helpers and the collision tests do not depend on
    the order of the two bodies; the squared distance is never negative and
    [getDistance] is its square root. *)
Theorem pair_tests_symmetric (sphereOne sphereTwo : Body) :
  calculateDistanceSquare sphereOne sphereTwo = calculateDistanceSquare sphereTwo sphereOne
  /\ 0 <= calculateDistanceSquare sphereOne sphereTwo
  /\ getDistance sphereOne sphereTwo = sqrt (calculateDistanceSquare sphereOne sphereTwo)
  /\ getDistance sphereOne sphereTwo = getDistance sphereTwo sphereOne
  /\ areColliding sphereOne sphereTwo = areColliding sphereTwo sphereOne
  /\ collisionDue sphereOne sphereTwo = collisionDue sphereTwo sphereOne.
Proof.
  assert (Hsym : areColliding sphereOne sphereTwo = areColliding sphereTwo sphereOne).
  { unfold areColliding. cbv zeta.
    rewrite (dot_vsub_sym (Position sphereOne) (Position sphereTwo)).
    rewrite (Rplus_comm (bodyRadius sphereOne) (bodyRadius sphereTwo)). reflexivity. }
  split; [apply dot_vsub_sym|].
  split; [apply dot_self_nonneg|].
  split; [unfold getDistance, calculateDistanceSquare; cbv zeta; f_equal; apply dot_vsub_sym|].
  split; [unfold getDistance; cbv zeta; f_equal; apply dot_vsub_sym|].
  split; [exact Hsym|].
  unfold collisionDue. rewrite Hsym.
  rewrite (andb_comm (isZero (Velocity sphereTwo))). reflexivity.
Qed.

(** X4.  [calculateGravForce] changes nothing but the two accumulators, and
    what it adds to one it subtracts from the other: the sum of the two
    accumulators is the same before and after. *)
Theorem calculateGravForce_third_law (sphereOne sphereTwo : Body) :
  let r := calculateGravForce sphereOne sphereTwo in
  fst r = set_vForceAccumulator (vForceAccumulator (fst r)) sphereOne
  /\ snd r = set_vForceAccumulator (vForceAccumulator (snd r)) sphereTwo
  /\ vadd (vForceAccumulator (fst r)) (vForceAccumulator (snd r))
     = vadd (vForceAccumulator sphereOne) (vForceAccumulator sphereTwo).
Proof.
  cbv zeta. split; [|split].
  - unfold calculateGravForce. destruct (Rltb _ _); simpl; [|reflexivity].
    unfold set_vForceAccumulator. symmetry. apply body_eta.
  - unfold calculateGravForce. destruct (Rltb _ _); simpl; [|reflexivity].
    unfold set_vForceAccumulator. symmetry. apply body_eta.
  - apply calculateGravForce_balance.
Qed.

Lemma inversesqrt_sq (s : R) : 0 < s -> inversesqrt s * inversesqrt s = 1 / s.
Proof.
  intros Hs. unfold inversesqrt.
  assert (Hq : sqrt s * sqrt s = s) by (apply sqrt_sqrt; lra).
  assert (Hp : 0 < sqrt s) by (apply sqrt_lt_R0; exact Hs).
  rewrite <- Hq at 3. field. lra.
Qed.

(** A vector that is not the zero vector is normalised to a unit vector. *)
Lemma normalize_unit (v : vec3) : 0 < dot v v -> dot (normalize v) (normalize v) = 1.
Proof.
  intros Hv. unfold normalize.
  pose proof (inversesqrt_sq (dot v v) Hv) as Hi.
  set (k := inversesqrt (dot v v)) in *.
  transitivity (dot v v * (k * k)).
  - unfold dot, vmuls; simpl. ring.
  - rewrite Hi. field. lra.
Qed.

(** X5.  Outside the clamp (squared distance at least 1 + 1/1000) the
    force added to the first body points along the line to the second body
    and has magnitude [G m1 m2 / d^2] (inverse-square law); the second body
    receives the opposite vector. *)
Theorem calculateGravForce_inverse_square (sphereOne sphereTwo : Body) :
  let d2 := calculateDistanceSquare sphereOne sphereTwo in
  let F := GRAV_CONST * (Mass sphereOne * Mass sphereTwo / d2) in
  let r := calculateGravForce sphereOne sphereTwo in
  let added := vsub (vForceAccumulator (fst r)) (vForceAccumulator sphereOne) in
  1 + 1 / 1000 <= d2 ->
  added = smulv (F / sqrt d2) (vsub (Position sphereTwo) (Position sphereOne))
  /\ dot added added = F * F
  /\ vsub (vForceAccumulator (snd r)) (vForceAccumulator sphereTwo) = vneg added.
Proof.
  cbv zeta. intros Hd.
  unfold calculateGravForce.
  replace (Rltb _ _) with false
    by (symmetry; apply Rltb_false; unfold minDistSq, EPSILON; lra).
  cbn [fst snd vForceAccumulator set_vForceAccumulator].
  set (F := GRAV_CONST * (Mass sphereOne * Mass sphereTwo /
                          calculateDistanceSquare sphereOne sphereTwo)).
  set (d := vsub (Position sphereTwo) (Position sphereOne)).
  assert (Hdd : calculateDistanceSquare sphereOne sphereTwo = dot d d) by reflexivity.
  assert (Hpos : 0 < dot d d) by (rewrite <- Hdd; lra).
  assert (Hadd : vsub (vadd (vForceAccumulator sphereOne) (smulv F (normalize d)))
                      (vForceAccumulator sphereOne) = smulv F (normalize d)).
  { unfold vsub, vadd, smulv; simpl. apply vec3_ext; simpl; ring. }
  rewrite Hadd. split; [|split].
  - rewrite Hdd. unfold normalize, inversesqrt, smulv, vmuls; simpl.
    assert (0 < sqrt (dot d d)) by (apply sqrt_lt_R0; exact Hpos).
    apply vec3_ext; simpl; field; lra.
  - transitivity (F * F * dot (normalize d) (normalize d)).
    + unfold dot, smulv; simpl. ring.
    + rewrite normalize_unit by exact Hpos. ring.
  - unfold vsub, vadd, smulv, vneg; simpl. apply vec3_ext; simpl; ring.
Qed.

Lemma calculateGravForce_inverse_square_witness :
  dot (vsub (vForceAccumulator (fst (calculateGravForce orbitOne orbitTwo)))
            (vForceAccumulator orbitOne))
      (vsub (vForceAccumulator (fst (calculateGravForce orbitOne orbitTwo)))
            (vForceAccumulator orbitOne))
  = GRAV_CONST * (Mass orbitOne * Mass orbitTwo / calculateDistanceSquare orbitOne orbitTwo)
    * (GRAV_CONST * (Mass orbitOne * Mass orbitTwo / calculateDistanceSquare orbitOne orbitTwo)).
Proof.
  apply (calculateGravForce_inverse_square orbitOne orbitTwo).
  unfold calculateDistanceSquare, dot, vsub; simpl. lra.
Defined.

Lemma processCollision_Mass (sphereOne sphereTwo : Body) :
  Mass (fst (processCollision sphereOne sphereTwo)) = Mass sphereOne
  /\ Mass (snd (processCollision sphereOne sphereTwo)) = Mass sphereTwo.
Proof. unfold processCollision. destruct (Rltb 0 _); split; reflexivity. Qed.

Lemma processCollision_Position (sphereOne sphereTwo : Body) :
  let delta := vsub (Position sphereTwo) (Position sphereOne) in
  let overlap := bodyRadius sphereOne + bodyRadius sphereTwo - vlength delta in
  let correction := vmuls (normalize delta) (overlap / 2) in
  (0 < overlap ->
   Position (fst (processCollision sphereOne sphereTwo)) = vsub (Position sphereOne) correction
   /\ Position (snd (processCollision sphereOne sphereTwo)) = vadd (Position sphereTwo) correction)
  /\ (overlap <= 0 ->
      Position (fst (processCollision sphereOne sphereTwo)) = Position sphereOne
      /\ Position (snd (processCollision sphereOne sphereTwo)) = Position sphereTwo).
Proof.
  cbv zeta. unfold processCollision. split; intros Ho.
  - replace (Rltb 0 _) with true by (symmetry; apply Rltb_true; exact Ho).
    split; reflexivity.
  - replace (Rltb 0 _) with false by (symmetry; apply Rltb_false; exact Ho).
    split; reflexivity.
Qed.

(** X6.  Position correction of [processCollision].  When the two centres
    are distinct and the spheres overlap (distance below the sum of the
    radii), the corrected centres are exactly the sum of the radii apart
    and their midpoint has not moved; when there is no overlap the
    positions are left alone. *)
Theorem processCollision_separates (sphereOne sphereTwo : Body) :
  let radiusSum := bodyRadius sphereOne + bodyRadius sphereTwo in
  let r := processCollision sphereOne sphereTwo in
  (0 < getDistance sphereOne sphereTwo -> getDistance sphereOne sphereTwo < radiusSum ->
   calculateDistanceSquare (fst r) (snd r) = radiusSum * radiusSum
   /\ getDistance (fst r) (snd r) = radiusSum
   /\ vadd (Position (fst r)) (Position (snd r))
      = vadd (Position sphereOne) (Position sphereTwo))
  /\ (radiusSum <= getDistance sphereOne sphereTwo ->
      Position (fst r) = Position sphereOne /\ Position (snd r) = Position sphereTwo).
Proof.
  cbv zeta.
  assert (Hg : getDistance sphereOne sphereTwo
               = vlength (vsub (Position sphereTwo) (Position sphereOne))).
  { unfold getDistance, vlength; cbv zeta. f_equal. apply dot_vsub_sym. }
  rewrite Hg.
  destruct (processCollision_Position sphereOne sphereTwo) as [Hov Hno].
  cbv zeta in Hov, Hno.
  split.
  - intros Hpos Hlt.
    destruct Hov as [H1 H2]; [lra|].
    set (delta := vsub (Position sphereTwo) (Position sphereOne)) in *.
    set (R0 := bodyRadius sphereOne + bodyRadius sphereTwo) in *.
    assert (Hss : vlength delta * vlength delta = dot delta delta).
    { unfold vlength. apply sqrt_sqrt, dot_self_nonneg. }
    assert (Hsq : calculateDistanceSquare (fst (processCollision sphereOne sphereTwo))
                    (snd (processCollision sphereOne sphereTwo)) = R0 * R0).
    { unfold calculateDistanceSquare; cbv zeta. rewrite H1, H2.
      unfold normalize, inversesqrt. fold (vlength delta).
      set (s := vlength delta) in *.
      transitivity (dot delta delta * ((1 + (R0 - s) / s) * (1 + (R0 - s) / s))).
      - unfold dot, vsub, vadd, vmuls, delta; simpl. field. lra.
      - rewrite <- Hss. field. lra. }
    split; [exact Hsq|]. split.
    + rewrite getDistance_sqrt, Hsq. apply sqrt_square. lra.
    + rewrite H1, H2. unfold vadd, vsub; simpl. apply vec3_ext; simpl; ring.
  - intros Hge. apply Hno. lra.
Qed.

Lemma getDistance_hit : getDistance hitOne hitTwo = 1.
Proof.
  rewrite getDistance_sqrt. unfold calculateDistanceSquare, dot, vsub; simpl.
  replace ((1 - 0) * (1 - 0) + (0 - 0) * (0 - 0) + (0 - 0) * (0 - 0)) with (1 * 1) by lra.
  apply sqrt_square. lra.
Qed.

Lemma processCollision_separates_witness :
  getDistance (fst (processCollision hitOne hitTwo)) (snd (processCollision hitOne hitTwo))
  = bodyRadius hitOne + bodyRadius hitTwo.
Proof.
  destruct (processCollision_separates hitOne hitTwo) as [H _].
  apply H.
  - rewrite getDistance_hit. lra.
  - rewrite getDistance_hit. unfold bodyRadius, getRadius; simpl. lra.
Defined.

(** X7.  Two bodies of the same non-zero mass leave [processCollision]
    with their velocities exchanged, whatever the velocities are. *)
Theorem processCollision_equal_mass_swaps (sphereOne sphereTwo : Body) :
  Mass sphereOne = Mass sphereTwo -> Mass sphereOne <> 0 ->
  Velocity (fst (processCollision sphereOne sphereTwo)) = Velocity sphereTwo
  /\ Velocity (snd (processCollision sphereOne sphereTwo)) = Velocity sphereOne.
Proof.
  intros Hm Hnz.
  rewrite processCollision_fst_Velocity, processCollision_snd_Velocity, <- Hm.
  destruct (Velocity sphereOne), (Velocity sphereTwo).
  unfold vdivs, vadd, smulv; simpl.
  split; apply vec3_ext; simpl; field; lra.
Qed.

Lemma processCollision_equal_mass_swaps_witness :
  Velocity (fst (processCollision headOne headTwo)) = Velocity headTwo
  /\ Velocity (snd (processCollision headOne headTwo)) = Velocity headOne.
Proof.
  apply (processCollision_equal_mass_swaps headOne headTwo).
  - reflexivity.
  - simpl; lra.
Defined.

(** X8.  Momentum across [processCollision].  For [m1 + m2 <> 0] the total
    momentum after the call is the one before plus
    [m2 (m2 - m1) / (m1 + m2)] times the first body's incoming velocity;
    so it is kept when the masses are equal or the first body was at rest,
    and not in general. *)
Theorem processCollision_momentum (sphereOne sphereTwo : Body) :
  Mass sphereOne + Mass sphereTwo <> 0 ->
  momentum [fst (processCollision sphereOne sphereTwo);
            snd (processCollision sphereOne sphereTwo)]
  = vadd (momentum [sphereOne; sphereTwo])
         (smulv (Mass sphereTwo * (Mass sphereTwo - Mass sphereOne)
                 / (Mass sphereOne + Mass sphereTwo))
                (Velocity sphereOne)).
Proof.
  intros Hnz. unfold momentum; simpl.
  destruct (processCollision_Mass sphereOne sphereTwo) as [-> ->].
  rewrite processCollision_fst_Velocity, processCollision_snd_Velocity.
  destruct (Velocity sphereOne), (Velocity sphereTwo).
  unfold vdivs, vadd, smulv, vec3_of; simpl.
  apply vec3_ext; simpl; field; exact Hnz.
Qed.

Lemma processCollision_momentum_witness :
  momentum [fst (processCollision hitOne hitTwo); snd (processCollision hitOne hitTwo)]
  = vadd (momentum [hitOne; hitTwo])
         (smulv (Mass hitTwo * (Mass hitTwo - Mass hitOne) / (Mass hitOne + Mass hitTwo))
                (Velocity hitOne)).
Proof.
  apply (processCollision_momentum hitOne hitTwo). simpl; lra.
Defined.

(** * Further properties of the surface response and the decay *)

(** X9.  A bounce.  For a body detected on the surface, after the response
    the body is again detected on the surface (it sits exactly at
    [surfaceY + radius]), its vertical speed is at most 0.8 times what it
    was, and its vertical velocity has changed sign or is zero. *)
Theorem surfaceResponse_bounce (body : Body) :
  onSurface body = true ->
  let body' := surfaceResponse body in
  onSurface body' = true
  /\ Rabs (vy (Velocity body')) <= 0.8 * Rabs (vy (Velocity body))
  /\ vy (Velocity body') * vy (Velocity body) <= 0.
Proof.
  intros Hon. cbv zeta. unfold surfaceResponse. rewrite Hon.
  unfold processSurfaceCollision; cbv zeta.
  set (w := vy (Velocity body)).
  assert (Habs : Rabs (w * -0.8) = 0.8 * Rabs w).
  { replace (w * -0.8) with (- (0.8 * w)) by lra.
    rewrite Rabs_Ropp, Rabs_mult, (Rabs_right 0.8); lra. }
  assert (Hw : 0 <= Rabs w) by apply Rabs_pos.
  destruct (Rltb _ _) eqn:Hsmall; simpl; fold w.
  - split; [apply Rleb_true; unfold bodyRadius, getRadius, EPSILON; simpl; lra|].
    rewrite Rabs_R0. split; lra.
  - split; [apply Rleb_true; unfold bodyRadius, getRadius, EPSILON; simpl; lra|].
    rewrite Habs. split; [lra|]. nra.
Qed.

Lemma surfaceResponse_bounce_witness :
  onSurface (surfaceResponse dropBody) = true
  /\ Rabs (vy (Velocity (surfaceResponse dropBody))) <= 0.8 * Rabs (vy (Velocity dropBody))
  /\ vy (Velocity (surfaceResponse dropBody)) * vy (Velocity dropBody) <= 0.
Proof.
  apply (surfaceResponse_bounce dropBody).
  apply Rleb_true. unfold surfaceY, EPSILON, bodyRadius, getRadius; simpl. lra.
Defined.

(** X10.  Coming to rest.  A body detected on the surface whose vertical
    speed is below 0.125 leaves the response with vertical velocity 0; and
    a body that already rests on the surface (vertical velocity 0, centre
    at [surfaceY + radius]) is left exactly as it is. *)
Theorem surfaceResponse_rest (body : Body) :
  (onSurface body = true -> Rabs (vy (Velocity body)) < 0.125 ->
   vy (Velocity (surfaceResponse body)) = 0)
  /\ (vy (Velocity body) = 0 -> vy (Position body) = surfaceY + bodyRadius body ->
      surfaceResponse body = body).
Proof.
  split.
  - intros Hon Hsmall. unfold surfaceResponse. rewrite Hon.
    unfold processSurfaceCollision; cbv zeta. simpl.
    replace (Rltb _ _) with true; [reflexivity|].
    symmetry. apply Rltb_true.
    replace (vy (Velocity body) * -0.8) with (- (0.8 * vy (Velocity body))) by lra.
    rewrite Rabs_Ropp, Rabs_mult, (Rabs_right 0.8); lra.
  - intros Hv Hp. unfold surfaceResponse.
    replace (onSurface body) with true
      by (symmetry; apply Rleb_true; unfold EPSILON; lra).
    unfold processSurfaceCollision; cbv zeta. simpl.
    replace (Rltb _ _) with true
      by (symmetry; apply Rltb_true; rewrite Hv, Rmult_0_l, Rabs_R0; lra).
    destruct body as [sp m [px py pz] [ux uy uz] a f acc tr].
    unfold set_Velocity, set_Position, set_vy, bodyRadius, getRadius in *; simpl in *.
    f_equal; apply vec3_ext; simpl; lra.
Qed.

Lemma surfaceResponse_rest_witness :
  vy (Velocity (surfaceResponse (set_Velocity (mkvec3 1 (-0.1) 0) dropBody))) = 0
  /\ surfaceResponse (set_Velocity (vec3_of 0) (set_Position (mkvec3 0 (-1) 0) restBody))
     = set_Velocity (vec3_of 0) (set_Position (mkvec3 0 (-1) 0) restBody).
Proof.
  split.
  - apply (surfaceResponse_rest (set_Velocity (mkvec3 1 (-0.1) 0) dropBody)).
    + apply Rleb_true. unfold surfaceY, EPSILON, bodyRadius, getRadius; simpl. lra.
    + simpl. rewrite Rabs_left; lra.
  - apply (surfaceResponse_rest
             (set_Velocity (vec3_of 0) (set_Position (mkvec3 0 (-1) 0) restBody))).
    + reflexivity.
    + unfold surfaceY, bodyRadius, getRadius; simpl. lra.
Defined.

(** X11.  The velocity decay of the step is switched off: with the decay
    rate 0 of the source the factor is [exp 0 = 1], so [decay] returns
    every body unchanged, for every [dt]. *)
Theorem decay_is_identity (dt : R) (body : Body) :
  exp (- vLambda * dt) = 1 /\ decay dt body = body.
Proof.
  split; [|apply decay_id].
  unfold vLambda. replace (- 0 * dt) with 0 by lra. apply exp_0.
Qed.

(** * Invariants of a whole step *)

Section UpdateAt.
Variable Q : nat -> Body -> Body -> Prop.
Hypothesis Q_refl : forall k b, Q k b b.

Lemma pointwise_update_at (i : nat) (f : Body -> Body) (bodies : list Body) :
  (forall b, Q i b (f b)) ->
  pointwise Q bodies
    (match bodies !! i with Some b => <[i := f b]> bodies | None => bodies end).
Proof.
  intros Hf. destruct (bodies !! i) as [b|] eqn:Hi.
  - apply (pointwise_insert Q Q_refl bodies i b); auto.
  - apply pointwise_refl, Q_refl.
Qed.
End UpdateAt.

(** A relation kept by the surface response, the collision response and
    the decay is kept by the three phases that follow the integration. *)
Section PostPhases.
Variable Q : nat -> Body -> Body -> Prop.
Hypothesis Q_refl : forall k b, Q k b b.
Hypothesis Q_trans : forall k a b c, Q k a b -> Q k b c -> Q k a c.
Hypothesis Q_surface : forall k b, Q k b (surfaceResponse b).
Hypothesis Q_collide : forall k j a b,
    Q k a (fst (processCollision a b)) /\ Q j b (snd (processCollision a b)).
Hypothesis Q_decay : forall k dt b, Q k b (decay dt b).

Lemma post_collideStep (i j : nat) (bodies : list Body) :
  i <> j -> pointwise Q bodies (collideStep i bodies j).
Proof.
  intros Hne. unfold collideStep.
  destruct (bodies !! i) as [body|] eqn:Hi; [|apply pointwise_refl, Q_refl].
  destruct (bodies !! j) as [colBody|] eqn:Hj; [|apply pointwise_refl, Q_refl].
  destruct (isSource colBody); [apply pointwise_refl, Q_refl|].
  destruct (collisionDue colBody body); [|apply pointwise_refl, Q_refl].
  destruct (Q_collide j i colBody body) as [H1 H2].
  destruct (processCollision colBody body) as [colBody' body']; simpl in H1, H2.
  apply (pointwise_trans Q Q_trans bodies (<[j := colBody']> bodies)).
  - apply (pointwise_insert Q Q_refl bodies j colBody); auto.
  - apply (pointwise_insert Q Q_refl _ i body); auto.
    rewrite list_lookup_insert_ne by auto. exact Hi.
Qed.

Lemma post_phases (dt : R) (i : nat) (bodies : list Body) :
  pointwise Q bodies (decayStep dt i (collideLoop i (surfaceStep i bodies))).
Proof.
  apply (pointwise_trans Q Q_trans bodies (surfaceStep i bodies)).
  { unfold surfaceStep. apply pointwise_update_at; auto. }
  apply (pointwise_trans Q Q_trans _ (collideLoop i (surfaceStep i bodies))).
  { unfold collideLoop. apply (pointwise_fold Q Q_refl Q_trans).
    intros bs j Hin. apply post_collideStep.
    apply laterIndices_gt in Hin. lia. }
  unfold decayStep. apply pointwise_update_at; auto.
Qed.
End PostPhases.

(** A relation kept by every piece of the step is kept by [processFrame]
    and by any number of steps. *)
Section WholeStep.
Variable Q : nat -> Body -> Body -> Prop.
Hypothesis Q_refl : forall k b, Q k b b.
Hypothesis Q_trans : forall k a b c, Q k a b -> Q k b c -> Q k a c.
Hypothesis Q_zero : forall k b, Q k b (set_Force (vec3_of 0) b).
Hypothesis Q_grav : forall k j a b,
    Q k a (fst (calculateGravForce a b)) /\ Q j b (snd (calculateGravForce a b)).
Hypothesis Q_integrate : forall k dt b, Q k b (updateState dt (calculateForce b)).
Hypothesis Q_surface : forall k b, Q k b (surfaceResponse b).
Hypothesis Q_collide : forall k j a b,
    Q k a (fst (processCollision a b)) /\ Q j b (snd (processCollision a b)).
Hypothesis Q_decay : forall k dt b, Q k b (decay dt b).

Lemma whole_gravStep (i j : nat) (bodies : list Body) :
  i <> j -> pointwise Q bodies (gravStep i bodies j).
Proof.
  intros Hne. unfold gravStep.
  destruct (bodies !! i) as [body|] eqn:Hi; [|apply pointwise_refl, Q_refl].
  destruct (bodies !! j) as [sBody|] eqn:Hj; [|apply pointwise_refl, Q_refl].
  destruct (isSource sBody); [apply pointwise_refl, Q_refl|].
  destruct (Q_grav i j body sBody) as [H1 H2].
  destruct (calculateGravForce body sBody) as [body' sBody']; simpl in H1, H2.
  apply (pointwise_trans Q Q_trans bodies (<[i := body']> bodies)).
  - apply (pointwise_insert Q Q_refl bodies i body); auto.
  - apply (pointwise_insert Q Q_refl _ j sBody); auto.
    rewrite list_lookup_insert_ne by auto. exact Hj.
Qed.

Lemma whole_processBody (dt : R) (i : nat) (bodies : list Body) :
  pointwise Q bodies (processBody dt bodies i).
Proof.
  unfold processBody.
  assert (Hz : pointwise Q bodies (zeroForce i bodies)).
  { unfold zeroForce. apply pointwise_update_at; auto. }
  destruct (zeroForce i bodies !! i) as [body|]; [|exact Hz].
  destruct (isSource body); [exact Hz|].
  apply (pointwise_trans Q Q_trans bodies (zeroForce i bodies)); [exact Hz|].
  apply (pointwise_trans Q Q_trans _ (gravLoop i (zeroForce i bodies))).
  { unfold gravLoop. apply (pointwise_fold Q Q_refl Q_trans).
    intros bs j Hin. apply whole_gravStep.
    apply laterIndices_gt in Hin. lia. }
  apply (pointwise_trans Q Q_trans _ (integrate dt i (gravLoop i (zeroForce i bodies)))).
  { unfold integrate. apply pointwise_update_at; auto. }
  apply post_phases; auto.
Qed.

Lemma whole_processFrame (dt : R) (bodies : list Body) :
  pointwise Q bodies (processFrame dt bodies).
Proof.
  unfold processFrame. apply (pointwise_fold Q Q_refl Q_trans).
  intros bs i _. apply whole_processBody.
Qed.

Lemma whole_processFrames (dt : R) (k : nat) :
  forall bodies : list Body, pointwise Q bodies (processFrames k dt bodies).
Proof.
  induction k as [|k IH]; intros bodies; simpl.
  - apply pointwise_refl, Q_refl.
  - apply (pointwise_trans Q Q_trans bodies (processFrame dt bodies));
      [apply whole_processFrame|apply IH].
Qed.
End WholeStep.

Lemma Qfixed_refl (k : nat) (b : Body) : Qfixed k b b.
Proof. repeat split. Qed.

Lemma Qfixed_trans (k : nat) (a b c : Body) : Qfixed k a b -> Qfixed k b c -> Qfixed k a c.
Proof. intros (H1 & H2 & H3) (H4 & H5 & H6). repeat split; congruence. Qed.

Lemma Qfixed_grav (k j : nat) (a b : Body) :
  Qfixed k a (fst (calculateGravForce a b)) /\ Qfixed j b (snd (calculateGravForce a b)).
Proof. unfold calculateGravForce. destruct (Rltb _ _); simpl; repeat split. Qed.

Lemma Qfixed_surface (k : nat) (b : Body) : Qfixed k b (surfaceResponse b).
Proof.
  destruct (surfaceResponse_frame b) as (H1 & H2 & _ & _ & _ & H3). repeat split; auto.
Qed.

Lemma Qfixed_collide (k j : nat) (a b : Body) :
  Qfixed k a (fst (processCollision a b)) /\ Qfixed j b (snd (processCollision a b)).
Proof. unfold processCollision. destruct (Rltb 0 _); simpl; repeat split. Qed.

Lemma Qfixed_decay (k : nat) (dt : R) (b : Body) : Qfixed k b (decay dt b).
Proof. rewrite decay_id. apply Qfixed_refl. Qed.

Lemma processFrames_fixed (dt : R) (k : nat) (bodies : list Body) :
  pointwise Qfixed bodies (processFrames k dt bodies).
Proof.
  apply whole_processFrames.
  - apply Qfixed_refl.
  - apply Qfixed_trans.
  - intros; repeat split.
  - apply Qfixed_grav.
  - intros; repeat split.
  - apply Qfixed_surface.
  - apply Qfixed_collide.
  - apply Qfixed_decay.
Qed.

(** X12.  Any number of physics steps keeps the number of bodies, and for
    every body its sphere (radius and light-source flag), its mass and its
    trace points: the engine creates and destroys no body and never edits
    these fields. *)
Theorem processFrames_preserves (dt : R) (k : nat) (bodies : list Body) (i : nat) (b : Body) :
  bodies !! i = Some b ->
  length (processFrames k dt bodies) = length bodies
  /\ exists b',
       processFrames k dt bodies !! i = Some b'
       /\ sphere b' = sphere b /\ Mass b' = Mass b /\ tracePoints b' = tracePoints b.
Proof.
  intros Hi. destruct (processFrames_fixed dt k bodies) as [Hlen H].
  split; [exact Hlen|]. destruct (H i b Hi) as (b' & Hb' & Hq). exists b'. split; auto.
Qed.

Lemma processFrames_preserves_witness :
  length (processFrames 5 (1 / 60) sceneWithLight) = length sceneWithLight
  /\ exists b',
       processFrames 5 (1 / 60) sceneWithLight !! 0%nat = Some b'
       /\ sphere b' = sphere pushed /\ Mass b' = Mass pushed
       /\ tracePoints b' = tracePoints pushed.
Proof.
  apply (processFrames_preserves (1 / 60) 5 sceneWithLight 0 pushed). reflexivity.
Defined.

Lemma Qmotion_refl (k : nat) (b : Body) : Qmotion k b b.
Proof. repeat split. Qed.

Lemma Qmotion_trans (k : nat) (a b c : Body) : Qmotion k a b -> Qmotion k b c -> Qmotion k a c.
Proof. intros (H1 & H2 & H3) (H4 & H5 & H6). repeat split; congruence. Qed.

Lemma Qmotion_surface (k : nat) (b : Body) : Qmotion k b (surfaceResponse b).
Proof.
  destruct (surfaceResponse_frame b) as (_ & H1 & H2 & H3 & _). repeat split; auto.
Qed.

Lemma Qmotion_collide (k j : nat) (a b : Body) :
  Qmotion k a (fst (processCollision a b)) /\ Qmotion j b (snd (processCollision a b)).
Proof. unfold processCollision. destruct (Rltb 0 _); simpl; repeat split. Qed.

Lemma Qmotion_decay (k : nat) (dt : R) (b : Body) : Qmotion k b (decay dt b).
Proof. rewrite decay_id. apply Qmotion_refl. Qed.

(** After its own iteration of the outer loop a non-exempt body has the
    acceleration [Force / Mass]. *)
Lemma processBody_integrated (dt : R) (i : nat) (bodies : list Body) (b : Body) :
  bodies !! i = Some b -> isSource b = false ->
  exists b', processBody dt bodies i !! i = Some b'
             /\ Acceleration b' = vdivs (Force b') (Mass b').
Proof.
  intros Hi Hs. unfold processBody.
  rewrite (zeroForce_lookup i bodies b Hi).
  change (isSource (set_Force (vec3_of 0) b)) with (isSource b). rewrite Hs.
  destruct (gravLoop_frame i (zeroForce i bodies)) as [Hlen Hg].
  destruct (Hg i _ (zeroForce_lookup i bodies b Hi)) as (b1 & Hb1 & _).
  set (l1 := gravLoop i (zeroForce i bodies)) in *.
  assert (Hint : integrate dt i l1 !! i = Some (updateState dt (calculateForce b1))).
  { unfold integrate. rewrite Hb1.
    apply list_lookup_insert_eq. eapply lookup_lt_Some; eauto. }
  destruct (post_phases Qmotion Qmotion_refl Qmotion_trans Qmotion_surface
              Qmotion_collide Qmotion_decay dt i (integrate dt i l1)) as [_ Ha].
  destruct (Ha i _ Hint) as (b' & Hb' & HF & HA & HM).
  exists b'. split; [exact Hb'|]. rewrite HF, HA, HM. reflexivity.
Qed.

(** What every non-exempt body gains in its own iteration of the outer
    loop, it still has at the end of the step. *)
Section Reached.
Variable P : Body -> Prop.
Variable dt : R.
Hypothesis P_body : forall (i : nat) (bodies : list Body) (b : Body),
    bodies !! i = Some b -> isSource b = false ->
    exists b', processBody dt bodies i !! i = Some b' /\ P b'.

Lemma reached_prefix (bodies : list Body) (m : nat) :
  pointwise (Qreached P m) bodies (fold_left (processBody dt) (seq 0 m) bodies).
Proof.
  induction m as [|m IH].
  - simpl. split; [reflexivity|]. intros k b Hk. exists b. split; [exact Hk|].
    split; [reflexivity|]. intros _ Hlt. lia.
  - rewrite seq_S, fold_left_app. simpl.
    set (cur := fold_left (processBody dt) (seq 0 m) bodies) in *.
    destruct IH as [Hlen IH].
    destruct (processBody_frame dt m cur) as [Hlen' Hstep].
    split; [congruence|].
    intros k b Hk.
    destruct (IH k b Hk) as (c & Hc & Hsc & HP).
    destruct (Hstep k c Hc) as (n & Hn & Hsn & Hlt & _).
    exists n. split; [exact Hn|]. split; [congruence|].
    intros Hs Hk'.
    destruct (Nat.eq_dec k m) as [->|Hne].
    + assert (Hcs : isSource c = false) by congruence.
      destruct (P_body m cur c Hc Hcs) as (n' & Hn' & HPn).
      rewrite Hn' in Hn. injection Hn as <-. exact HPn.
    + assert (Hkm : (k < m)%nat) by lia.
      rewrite (Hlt Hkm). apply HP; auto.
Qed.

Lemma reached_processFrame (bodies : list Body) (i : nat) (b : Body) :
  bodies !! i = Some b -> isSource b = false ->
  exists b', processFrame dt bodies !! i = Some b' /\ P b'.
Proof.
  intros Hi Hs. destruct (reached_prefix bodies (length bodies)) as [_ H].
  destruct (H i b Hi) as (b' & Hb' & _ & HP).
  exists b'. split; [exact Hb'|]. apply HP; [exact Hs|].
  eapply lookup_lt_Some; eauto.
Qed.
End Reached.

(** X13.  At the end of a physics step every body that is not a light
    source has [Acceleration = Force / Mass], the quotient of the force and
    mass it has at that moment. *)
Theorem processFrame_acceleration (dt : R) (bodies : list Body) (i : nat) (b : Body) :
  bodies !! i = Some b -> isSource b = false ->
  exists b', processFrame dt bodies !! i = Some b'
             /\ Acceleration b' = vdivs (Force b') (Mass b').
Proof.
  intros Hi Hs.
  apply (reached_processFrame (fun b' => Acceleration b' = vdivs (Force b') (Mass b')) dt)
    with (b := b); auto.
  intros j bs c Hc Hcs. apply (processBody_integrated dt j bs c); auto.
Qed.

Lemma processFrame_acceleration_witness :
  exists b', processFrame (1 / 60) sceneWithLight !! 0%nat = Some b'
             /\ Acceleration b' = vdivs (Force b') (Mass b').
Proof.
  apply (processFrame_acceleration (1 / 60) sceneWithLight 0 pushed); reflexivity.
Defined.

(** X14.  A list that holds only light sources (the empty list included)
    is frozen: the step clears the [Force] of every body and changes
    nothing else. *)
Theorem processFrame_only_lights (dt : R) (bodies : list Body) :
  Forall (fun b => isSource b = true) bodies ->
  processFrame dt bodies = map (set_Force (vec3_of 0)) bodies.
Proof.
  intros Hall. change (map (set_Force (vec3_of 0)) bodies)
    with (set_Force (vec3_of 0) <$> bodies).
  destruct (processFrame_prefix dt bodies (length bodies)) as [Hlen H].
  fold (processFrame dt bodies) in Hlen, H.
  apply list_eq. intros i. rewrite list_lookup_fmap.
  destruct (bodies !! i) as [b|] eqn:Hi; simpl.
  - destruct (H i b Hi) as (b' & Hb' & _ & Hsrc & _).
    rewrite Hb'. f_equal. rewrite Hsrc.
    + replace (i <? length bodies)%nat with true; [reflexivity|].
      symmetry. apply Nat.ltb_lt. eapply lookup_lt_Some; eauto.
    + exact (Forall_lookup_1 (fun b => isSource b = true) bodies i b Hall Hi).
  - apply lookup_ge_None. rewrite Hlen. apply lookup_ge_None. exact Hi.
Qed.

Lemma processFrame_only_lights_witness :
  processFrame (1 / 60) [staleLight; staleLight]
  = map (set_Force (vec3_of 0)) [staleLight; staleLight].
Proof.
  apply (processFrame_only_lights (1 / 60) [staleLight; staleLight]).
  repeat constructor.
Defined.

(** * A body on its own *)

Lemma lone_body_step (dt : R) (b : Body) :
  isSource b = false -> vForceAccumulator b = vec3_of 0 ->
  0 <= dt -> 0 <= vy (Velocity b) ->
  surfaceY + EPSILON < vy (Position b) - bodyRadius b ->
  exists b',
    processFrame dt [b] = [b']
    /\ isSource b' = false /\ vForceAccumulator b' = vec3_of 0
    /\ bodyRadius b' = bodyRadius b
    /\ Mass b' = Mass b
    /\ Velocity b' = Velocity b
    /\ Position b' = vadd (Position b) (vmuls (Velocity b) dt).
Proof.
  intros Hs Ha Hdt Hv Hy.
  rewrite processFrame_single by exact Hs. rewrite decay_id.
  set (u := updateState dt (calculateForce (set_Force (vec3_of 0) b))).
  assert (HV : Velocity u = Velocity b).
  { unfold u; simpl. rewrite Ha.
    unfold vadd, vmuls, vdivs, smulv, GRAV_FORCE, vec3_of; simpl.
    destruct (Velocity b); simpl. apply vec3_ext; simpl; unfold Rdiv; ring. }
  assert (HP : Position u = vadd (Position b) (vmuls (Velocity b) dt)).
  { rewrite <- HV. reflexivity. }
  assert (Hoff : onSurface u = false).
  { apply Rleb_false. rewrite HP.
    change (bodyRadius u) with (bodyRadius b).
    unfold vadd, vmuls; simpl. nra. }
  rewrite (surfaceResponse_off u Hoff).
  exists u. repeat split; auto.
Qed.

(** X15.  Uniform motion.  A single body of non-zero mass that is not a
    light source, has an empty accumulator, is above the surface and does
    not move downwards keeps its velocity for any number [k] of steps of
    length [dt >= 0], and its position after the [k] steps is
    [position + velocity * (k * dt)].  The mass has to be non-zero:
    [updateState] divides the (zero) force by it. *)
Theorem lone_body_uniform_motion (dt : R) (k : nat) (b : Body) :
  Mass b <> 0 ->
  isSource b = false -> vForceAccumulator b = vec3_of 0 ->
  0 <= dt -> 0 <= vy (Velocity b) ->
  surfaceY + EPSILON < vy (Position b) - bodyRadius b ->
  exists b',
    processFrames k dt [b] = [b']
    /\ Mass b' = Mass b
    /\ Velocity b' = Velocity b
    /\ Position b' = vadd (Position b) (vmuls (Velocity b) (INR k * dt)).
Proof.
  revert b. induction k as [|k IH]; intros b Hm Hs Ha Hdt Hv Hy.
  - exists b. simpl. repeat split.
    destruct (Position b); unfold vadd, vmuls; simpl. apply vec3_ext; simpl; ring.
  - destruct (lone_body_step dt b Hs Ha Hdt Hv Hy)
      as (u & Hu & Hsu & Hau & Hru & HMu & HVu & HPu).
    destruct (IH u) as (b' & Hb' & HM' & HV' & HP'); auto.
    + rewrite HMu. exact Hm.
    + rewrite HVu. exact Hv.
    + rewrite HPu, Hru. unfold vadd, vmuls; simpl. nra.
    + exists b'. simpl processFrames. rewrite Hu. split; [exact Hb'|].
      split; [congruence|]. split; [congruence|].
      rewrite HP', HPu, HVu, S_INR.
      unfold vadd, vmuls; simpl. apply vec3_ext; simpl; ring.
Qed.

Lemma lone_body_uniform_motion_witness :
  exists b',
    processFrames 120 (1 / 60) [pushed] = [b']
    /\ Mass b' = Mass pushed
    /\ Velocity b' = Velocity pushed
    /\ Position b' = vadd (Position pushed) (vmuls (Velocity pushed) (INR 120 * (1 / 60))).
Proof.
  apply (lone_body_uniform_motion (1 / 60) 120 pushed).
  - simpl. lra.
  - reflexivity.
  - reflexivity.
  - lra.
  - unfold vadd; simpl. lra.
  - unfold surfaceY, EPSILON, bodyRadius, getRadius; simpl. lra.
Defined.

(** * Further properties of the fixed-timestep loop *)

(** X17.  With a timestep that is zero or negative (the two-argument
    constructor stores whatever it is given) the loop never exits once it
    is entered: whatever the iteration bound, the model runs out of it. *)
Theorem fixedLoop_never_exits (dt : R) (fuel : nat) :
  dt <= 0 ->
  forall (bodies : list Body) (accumulator : R) (steps : nat),
    dt <= accumulator ->
    fixedLoop fuel dt bodies accumulator steps = None.
Proof.
  intros Hdt. induction fuel as [|fuel IH]; intros bodies acc steps Hacc; simpl.
  - replace (Rleb dt acc) with true by (symmetry; apply Rleb_true; exact Hacc).
    reflexivity.
  - replace (Rleb dt acc) with true by (symmetry; apply Rleb_true; exact Hacc).
    apply IH. lra.
Qed.

Lemma fixedLoop_never_exits_witness :
  fixedLoop 1000 (snd (Physics_new_step_speed 0 3)) sceneWithLight 0 0 = None.
Proof.
  apply (fixedLoop_never_exits (snd (Physics_new_step_speed 0 3)) 1000); simpl; lra.
Defined.

(** * Radius of a sphere *)

Lemma generateSphere_Radius_spec (radius : R) :
  (radius < 0 -> generateSphere_Radius radius = radius)
  /\ (0 <= radius -> generateSphere_Radius radius = Rmax radius 0.0000001).
Proof.
  unfold generateSphere_Radius. split; intros H.
  - replace (Rltb radius 0) with true by (symmetry; apply Rltb_true; exact H). reflexivity.
  - replace (Rltb radius 0) with false by (symmetry; apply Rltb_false; exact H).
    destruct (Rltb radius 0.0000001) eqn:E.
    + apply Rltb_true in E. rewrite Rmax_right; lra.
    + apply Rltb_false in E. rewrite Rmax_left; lra.
Qed.

Lemma generateSphere_Radius_range (radius : R) :
  generateSphere_Radius radius < 0 \/ 0.0000001 <= generateSphere_Radius radius.
Proof.
  destruct (generateSphere_Radius_spec radius) as [Hneg Hpos].
  destruct (Rlt_dec radius 0) as [Hr|Hr].
  - left. rewrite (Hneg Hr). exact Hr.
  - right. rewrite Hpos by lra. apply Rmax_r.
Qed.

Lemma generateSphere_Radius_idem (radius : R) :
  generateSphere_Radius (generateSphere_Radius radius) = generateSphere_Radius radius.
Proof.
  destruct (generateSphere_Radius_range radius) as [H|H].
  - apply generateSphere_Radius_spec. exact H.
  - destruct (generateSphere_Radius_spec (generateSphere_Radius radius)) as [_ Hp].
    rewrite Hp by lra. apply Rmax_left. exact H.
Qed.

(** X18.  [setRadius] keeps a negative radius as given (the "not yet
    generated" sentinel) and raises a non-negative one to at least
    0.0000001; so the stored radius is never in [0, 0.0000001), and
    setting the stored radius again changes nothing. *)
Theorem setRadius_clamps (radius : R) (g : Sphere3D) :
  let g' := Sphere3D_setRadius radius g in
  (radius < 0 -> getRadius g' = radius)
  /\ (0 <= radius -> getRadius g' = Rmax radius 0.0000001)
  /\ (getRadius g' < 0 \/ 0.0000001 <= getRadius g')
  /\ Sphere3D_setRadius (getRadius g') g' = g'.
Proof.
  cbv zeta. unfold Sphere3D_setRadius, getRadius; simpl.
  destruct (generateSphere_Radius_spec radius) as [Hneg Hpos].
  split; [exact Hneg|]. split; [exact Hpos|].
  split; [apply generateSphere_Radius_range|].
  f_equal. apply generateSphere_Radius_idem.
Qed.

Lemma setRadius_clamps_witness :
  getRadius (Sphere3D_setRadius 0 Sphere3D_default) = Rmax 0 0.0000001
  /\ getRadius (Sphere3D_setRadius (-1) Sphere3D_default) = -1.
Proof.
  split.
  - apply (setRadius_clamps 0 Sphere3D_default). lra.
  - apply (setRadius_clamps (-1) Sphere3D_default). lra.
Defined.

(** X19.  [drawSphere] replaces a negative radius by 1 and leaves every
    other body exactly as it is; hence a body whose radius was set with
    [setRadius] (whatever the argument) has a radius of at least 0.0000001
    once it is registered with the renderer. *)
Theorem drawSphere_radius (radius : R) (body : Body) :
  (bodyRadius body < 0 -> bodyRadius (drawSphere body) = 1)
  /\ (0 <= bodyRadius body -> drawSphere body = body)
  /\ 0.0000001 <= bodyRadius (drawSphere (Body_setRadius radius body)).
Proof.
  assert (Hneg : forall b, bodyRadius b < 0 -> bodyRadius (drawSphere b) = 1).
  { intros b Hb. unfold drawSphere.
    replace (Rltb _ _) with true by (symmetry; apply Rltb_true; exact Hb).
    unfold bodyRadius, getRadius; simpl.
    destruct (generateSphere_Radius_spec 1) as [_ H]. rewrite H by lra.
    apply Rmax_left. lra. }
  assert (Hpos : forall b, 0 <= bodyRadius b -> drawSphere b = b).
  { intros b Hb. unfold drawSphere.
    replace (Rltb _ _) with false by (symmetry; apply Rltb_false; exact Hb).
    reflexivity. }
  split; [apply Hneg|]. split; [apply Hpos|].
  assert (Hr : bodyRadius (Body_setRadius radius body) = generateSphere_Radius radius)
    by reflexivity.
  destruct (generateSphere_Radius_range radius) as [Hb|Hb].
  - rewrite Hneg; [lra|rewrite Hr; exact Hb].
  - rewrite Hpos; rewrite Hr; lra.
Qed.

Lemma drawSphere_radius_witness :
  bodyRadius (drawSphere (Body_default (vec3_of 0))) = 1
  /\ drawSphere restBody = restBody.
Proof.
  split.
  - apply (drawSphere_radius 0 (Body_default (vec3_of 0))).
    unfold bodyRadius, getRadius; simpl. lra.
  - apply (drawSphere_radius 0 restBody).
    unfold bodyRadius, getRadius; simpl. lra.
Defined.

(** * The frame loop of App::run *)

Lemma fixedLoop_is_processFrames (dt : R) (fuel : nat) :
  forall (bodies : list Body) (accumulator : R) (steps : nat) (r : list Body * R * nat),
    fixedLoop fuel dt bodies accumulator steps = Some r ->
    exists (k : nat) (rest : R),
      r = (processFrames k dt bodies, rest, (steps + k)%nat)
      /\ rest = accumulator - INR k * dt.
Proof.
  induction fuel as [|fuel IH]; intros bodies acc steps r; simpl.
  - destruct (Rleb dt acc); [discriminate|]. intros H. injection H as <-.
    exists 0%nat, acc. rewrite Nat.add_0_r. simpl. split; [reflexivity|lra].
  - destruct (Rleb dt acc).
    + intros H. destruct (IH _ _ _ _ H) as (k & rest & -> & Hr).
      exists (S k), rest. rewrite S_INR. simpl processFrames.
      replace (S steps + k)%nat with (steps + S k)%nat by lia.
      split; [reflexivity|lra].
    + intros H. injection H as <-.
      exists 0%nat, acc. rewrite Nat.add_0_r. simpl. split; [reflexivity|lra].
Qed.

Lemma Qfixed_pushAt (i : nat) (impulse : vec3) (bodies : list Body) :
  pointwise Qfixed bodies (pushAt i impulse bodies).
Proof.
  unfold pushAt. apply (pointwise_update_at Qfixed Qfixed_refl i (fun b => push b impulse)).
  intros b. repeat split.
Qed.

Lemma Qfixed_scriptedImpulses (bodies : list Body) :
  pointwise Qfixed bodies (scriptedImpulses bodies).
Proof.
  unfold scriptedImpulses. cbv zeta.
  eapply (pointwise_trans Qfixed Qfixed_trans); [apply Qfixed_pushAt|].
  eapply (pointwise_trans Qfixed Qfixed_trans); [apply Qfixed_pushAt|].
  apply Qfixed_pushAt.
Qed.

(** What one iteration does to the body list before the frame is drawn. *)
Lemma runFrame_bodies (fuel : nat) (dt : R) (st st' : AppState) (now : R) :
  runFrame fuel dt st now = Some st' ->
  exists bodies', app_bodies st' = map recordTrace bodies'
                  /\ pointwise Qfixed (app_bodies st) bodies'.
Proof.
  unfold runFrame. destruct (120 <? app_timeCount st)%Z.
  - set (start := if (app_timeCount st =? 363)%Z then scriptedImpulses (app_bodies st)
                  else app_bodies st).
    assert (Hstart : pointwise Qfixed (app_bodies st) start).
    { unfold start. destruct (app_timeCount st =? 363)%Z.
      - apply Qfixed_scriptedImpulses.
      - apply pointwise_refl, Qfixed_refl. }
    destruct (fixedLoop fuel dt start (app_accumulator st + r_deltaTime st) 0)
      as [[[bodies' acc'] steps']|] eqn:Hloop; [|discriminate].
    intros H. injection H as <-. simpl.
    exists bodies'. split; [reflexivity|].
    destruct (fixedLoop_is_processFrames dt fuel _ _ _ _ Hloop) as (k & rest & Hr & _).
    injection Hr as -> _ _.
    eapply (pointwise_trans Qfixed Qfixed_trans); [exact Hstart|].
    apply processFrames_fixed.
  - intros H. injection H as <-. simpl.
    exists (app_bodies st). split; [reflexivity|]. apply pointwise_refl, Qfixed_refl.
Qed.

(** X20.  Every completed iteration of the frame loop keeps the number of
    bodies and appends exactly one point to the trace of every body: the
    position the body has at the end of that iteration.  Radius,
    light-source flag and mass are as before. *)
Theorem runFrame_trace (fuel : nat) (dt : R) (st st' : AppState) (now : R) (i : nat) (b : Body) :
  runFrame fuel dt st now = Some st' ->
  app_bodies st !! i = Some b ->
  length (app_bodies st') = length (app_bodies st)
  /\ exists b',
       app_bodies st' !! i = Some b'
       /\ tracePoints b' = tracePoints b ++ [Position b']
       /\ sphere b' = sphere b /\ Mass b' = Mass b.
Proof.
  intros Hrun Hi.
  destruct (runFrame_bodies fuel dt st st' now Hrun) as (bodies' & -> & Hlen & Hq).
  split; [rewrite length_map; exact Hlen|].
  destruct (Hq i b Hi) as (c & Hc & Hs & Hm & Ht).
  exists (recordTrace c). split.
  - change (map recordTrace bodies') with (recordTrace <$> bodies').
    rewrite list_lookup_fmap, Hc. reflexivity.
  - simpl. rewrite Ht. repeat split; auto.
Qed.

Lemma runFrame_trace_witness :
  length (app_bodies (mkApp 0 1 (map recordTrace sceneWithLight) (1 / 50 - 0) (1 / 50)))
  = length (app_bodies (App_new sceneWithLight))
  /\ exists b',
       app_bodies (mkApp 0 1 (map recordTrace sceneWithLight) (1 / 50 - 0) (1 / 50)) !! 1%nat
       = Some b'
       /\ tracePoints b' = tracePoints staleLight ++ [Position b']
       /\ sphere b' = sphere staleLight /\ Mass b' = Mass staleLight.
Proof.
  apply (runFrame_trace 0 (1 / 60) (App_new sceneWithLight) _ (1 / 50) 1 staleLight).
  - reflexivity.
  - reflexivity.
Defined.

Lemma appendTrace_recordTrace (points : list vec3) (b : Body) :
  appendTrace points (recordTrace b) = appendTrace (Position b :: points) b.
Proof.
  unfold recordTrace, appendTrace; simpl. rewrite <- app_assoc. reflexivity.
Qed.

(** X21.  Warm-up.  While the frame counter is at most 120, an iteration
    of the frame loop runs no physics step and does not touch the
    accumulator: the frame times measured by the renderer in that period
    are dropped.  Over [n] such iterations the state changes only in that
    the counter advances by [n], every body gets [n] copies of its
    (unchanged) position appended to its trace, and the renderer's timing
    members follow the clock. *)
Theorem runFrames_warm_up (fuel : nat) (dt : R) (nows : list R) :
  forall st : AppState,
    (0 <= app_timeCount st)%Z ->
    (app_timeCount st + Z.of_nat (length nows) <= 121)%Z ->
    exists st',
      runFrames fuel dt st nows = Some st'
      /\ app_accumulator st' = app_accumulator st
      /\ app_timeCount st' = (app_timeCount st + Z.of_nat (length nows))%Z
      /\ app_bodies st'
         = map (fun b => appendTrace (repeat (Position b) (length nows)) b) (app_bodies st).
Proof.
  induction nows as [|now nows IH]; intros st H0 Hle.
  - exists st. simpl. repeat split; [lia|].
    rewrite <- (map_id (app_bodies st)) at 1. apply map_ext.
    intros b. unfold appendTrace. rewrite app_nil_r. destruct b; reflexivity.
  - simpl length in Hle. simpl runFrames. unfold runFrame.
    replace (120 <? app_timeCount st)%Z with false
      by (symmetry; apply Z.ltb_ge; lia).
    set (st1 := mkApp (app_accumulator st) (wrap32 (app_timeCount st + 1))
                      (map recordTrace (app_bodies st)) (now - r_lastFrame st) now).
    assert (Hw : wrap32 (app_timeCount st + 1) = (app_timeCount st + 1)%Z).
    { unfold wrap32. apply Z.mod_small. lia. }
    destruct (IH st1) as (st' & Hrun & Hacc & Htc & Hb).
    + simpl. rewrite Hw. lia.
    + simpl. rewrite Hw. lia.
    + exists st'. split; [exact Hrun|]. split; [exact Hacc|]. split.
      * rewrite Htc. simpl. rewrite Hw. lia.
      * rewrite Hb. simpl app_bodies. rewrite map_map. apply map_ext.
        intros b. rewrite appendTrace_recordTrace. reflexivity.
Qed.

Lemma runFrames_warm_up_witness :
  exists st',
    runFrames 0 (1 / 60) (App_new (setupProgram (vec3_of 0))) [1 / 50; 2 / 50; 3 / 50] = Some st'
    /\ app_accumulator st' = app_accumulator (App_new (setupProgram (vec3_of 0)))
    /\ app_timeCount st'
       = (app_timeCount (App_new (setupProgram (vec3_of 0)))
          + Z.of_nat (length [1 / 50; 2 / 50; 3 / 50]))%Z
    /\ app_bodies st'
       = map (fun b => appendTrace (repeat (Position b) (length [1 / 50; 2 / 50; 3 / 50])) b)
             (app_bodies (App_new (setupProgram (vec3_of 0)))).
Proof.
  apply (runFrames_warm_up 0 (1 / 60) [1 / 50; 2 / 50; 3 / 50]
           (App_new (setupProgram (vec3_of 0)))).
  - simpl. lia.
  - simpl. lia.
Defined.

(** * The mesh of a sphere *)

Lemma flat_map_length_const {A B : Type} (f : A -> list B) (k : nat) (l : list A) :
  (forall x, In x l -> length (f x) = k) -> length (flat_map f l) = (k * length l)%nat.
Proof.
  induction l as [|x l IH]; intros Hf; simpl; [lia|].
  rewrite length_app, Hf by (left; reflexivity).
  rewrite IH by (intros y Hy; apply Hf; right; exact Hy). lia.
Qed.

Lemma fold_left_ext_in {A B : Type} (f g : A -> B -> A) (l : list B) :
  (forall st x, In x l -> f st x = g st x) ->
  forall st, fold_left f l st = fold_left g l st.
Proof.
  induction l as [|x l IH]; intros Hfg st; simpl; [reflexivity|].
  rewrite Hfg by (left; reflexivity).
  apply IH. intros st' y Hy. apply Hfg. right; exact Hy.
Qed.

Lemma fold_left_seq_nth_from {A B : Type} (F : A -> B -> A) (d : B) (l : list B) :
  forall (pre : list B) (st : A),
    fold_left (fun st i => F st (nth i (pre ++ l) d)) (seq (length pre) (length l)) st
    = fold_left F l st.
Proof.
  induction l as [|x l IH]; intros pre st; simpl; [reflexivity|].
  rewrite nth_middle.
  specialize (IH (pre ++ [x]) (F st x)).
  rewrite length_app in IH. simpl in IH.
  replace (length pre + 1)%nat with (S (length pre)) in IH by lia.
  rewrite <- IH. apply fold_left_ext_in.
  intros st' i _. rewrite <- app_assoc. reflexivity.
Qed.

Lemma fold_left_seq_nth {A B : Type} (F : A -> B -> A) (d : B) (l : list B) (st : A) :
  fold_left (fun st i => F st (nth i l d)) (seq 0 (length l)) st = fold_left F l st.
Proof. exact (fold_left_seq_nth_from F d l [] st). Qed.

Lemma flatten3_app (l1 l2 : list vec3) : flatten3 (l1 ++ l2) = flatten3 l1 ++ flatten3 l2.
Proof. unfold flatten3. apply flat_map_app. Qed.

Lemma flatten3_length (l : list vec3) : length (flatten3 l) = (3 * length l)%nat.
Proof. unfold flatten3. apply flat_map_length_const. reflexivity. Qed.

Lemma wrap32_small (z : Z) : (0 <= z < 2 ^ 32)%Z -> wrap32 z = z.
Proof. intros H. unfold wrap32. apply Z.mod_small. exact H. Qed.

Lemma readTriple_plain (vertices : list R) (i : nat) :
  (3 * Z.of_nat i + 2 < 2 ^ 32)%Z ->
  readTriple vertices i
  = mkvec3 (nth (3 * i) vertices 0) (nth (3 * i + 1) vertices 0) (nth (3 * i + 2) vertices 0).
Proof.
  intros Hi. unfold readTriple. cbv zeta.
  assert (E0 : umul 3 (Z.of_nat i) = (3 * Z.of_nat i)%Z) by (apply wrap32_small; lia).
  assert (E1 : uadd (3 * Z.of_nat i) 1 = (3 * Z.of_nat i + 1)%Z) by (apply wrap32_small; lia).
  assert (E2 : uadd (3 * Z.of_nat i) 2 = (3 * Z.of_nat i + 2)%Z) by (apply wrap32_small; lia).
  rewrite E0, E1, E2.
  replace (Z.to_nat (3 * Z.of_nat i)) with (3 * i)%nat by lia.
  replace (Z.to_nat (3 * Z.of_nat i + 1)) with (3 * i + 1)%nat by lia.
  replace (Z.to_nat (3 * Z.of_nat i + 2)) with (3 * i + 2)%nat by lia.
  reflexivity.
Qed.

Lemma readTriple_flatten3 (points : list vec3) (d : vec3) :
  (3 * Z.of_nat (length points) < 2 ^ 32)%Z ->
  forall i : nat, (i < length points)%nat ->
    readTriple (flatten3 points) i = nth i points d.
Proof.
  intros Hsmall i Hi. rewrite readTriple_plain by lia.
  clear Hsmall. revert i Hi.
  induction points as [|p points IH]; intros i Hi; simpl in Hi; [lia|].
  destruct i as [|i].
  - destruct p; reflexivity.
  - replace (3 * S i)%nat with (S (S (S (3 * i)))) by lia.
    replace (S (S (S (3 * i))) + 1)%nat with (S (S (S (3 * i + 1)))) by lia.
    replace (S (S (S (3 * i))) + 2)%nat with (S (S (S (3 * i + 2)))) by lia.
    change (flatten3 (p :: points)) with (vx p :: vy p :: vz p :: flatten3 points).
    cbn [nth]. apply (IH i). lia.
Qed.

Lemma flatten3_map {B : Type} (h : B -> vec3) (cols : list B) :
  flat_map (fun j => [vx (h j); vy (h j); vz (h j)]) cols = flatten3 (map h cols).
Proof.
  induction cols as [|j cols IH]; [reflexivity|].
  change (flatten3 (map h (j :: cols)))
    with ([vx (h j); vy (h j); vz (h j)] ++ flatten3 (map h cols)).
  rewrite <- IH. reflexivity.
Qed.

Lemma flatten3_grid {A B : Type} (g : A -> B -> vec3) (rows : list A) (cols : list B) :
  flat_map (fun i => flat_map (fun j => [vx (g i j); vy (g i j); vz (g i j)]) cols) rows
  = flatten3 (flat_map (fun i => map (g i) cols) rows).
Proof.
  induction rows as [|i rows IH]; [reflexivity|].
  cbn [flat_map]. rewrite flatten3_app, <- IH, (flatten3_map (g i)). reflexivity.
Qed.

Lemma buildFaceVertices_points (face : Face) (sign : R) (subdivisions vertsPerRow : Z) :
  buildFaceVertices face sign subdivisions vertsPerRow
  = flatten3 (facePoints face sign subdivisions (Z.to_nat vertsPerRow)).
Proof.
  unfold buildFaceVertices, facePoints.
  apply (flatten3_grid
           (fun i j : nat =>
              faceVertex face sign (1 - (2 / IZR subdivisions) * INR i)
                         (-1 + (2 / IZR subdivisions) * INR j))).
Qed.

Lemma facePoints_length (face : Face) (sign : R) (subdivisions : Z) (n : nat) :
  length (facePoints face sign subdivisions n) = (n * n)%nat.
Proof.
  unfold facePoints. rewrite (flat_map_length_const _ n).
  - rewrite length_seq. reflexivity.
  - intros i _. rewrite length_map, length_seq. reflexivity.
Qed.

(** Every grid point of a cube face is at least at distance 1 from the
    centre. *)
Lemma facePoints_far (face : Face) (sign : R) (subdivisions : Z) (n : nat) :
  sign = POS \/ sign = NEG ->
  Forall (fun p => 1 <= vx p * vx p + vy p * vy p + vz p * vz p)
         (facePoints face sign subdivisions n).
Proof.
  intros Hsign. apply Forall_forall. intros p Hp.
  unfold facePoints in Hp. apply list_elem_of_In, in_flat_map in Hp.
  destruct Hp as (i & _ & Hp). apply in_map_iff in Hp. destruct Hp as (j & <- & _).
  assert (Hs : sign * sign = 1) by (unfold POS, NEG in Hsign; destruct Hsign; subst; lra).
  generalize (1 - 2 / IZR subdivisions * INR i) as a.
  generalize (-1 + 2 / IZR subdivisions * INR j) as b. intros b a.
  pose proof (Rle_0_sqr a) as Ha. pose proof (Rle_0_sqr b) as Hb. unfold Rsqr in Ha, Hb.
  destruct face; simpl; lra.
Qed.

Lemma normalizeVectors_fresh (v n : vec3) :
  1 <= vx v * vx v + vy v * vy v + vz v * vz v ->
  normalizeVectors v n = normalizeVectors v v.
Proof.
  intros Hv. unfold normalizeVectors.
  replace (Rltb _ _) with true; [reflexivity|].
  symmetry. apply Rltb_true.
  apply Rlt_le_trans with 1; [lra|].
  rewrite <- sqrt_1. apply sqrt_le_1; lra.
Qed.

Lemma onSphere_norm (radius : R) (p : vec3) :
  1 <= vx p * vx p + vy p * vy p + vz p * vz p ->
  dot (onSphere radius p) (onSphere radius p) = radius * radius.
Proof.
  intros Hp. unfold onSphere, normalizeVectors.
  set (q := vx p * vx p + vy p * vy p + vz p * vz p) in *.
  assert (Hm : 1 <= sqrt q) by (rewrite <- sqrt_1; apply sqrt_le_1; lra).
  replace (Rltb _ _) with true by (symmetry; apply Rltb_true; lra).
  assert (Hq : sqrt q * sqrt q = q) by (apply sqrt_sqrt; lra).
  unfold scaleVectors, vmuls, dot; simpl.
  transitivity (q * (1 / sqrt q * (1 / sqrt q)) * (radius * radius)).
  - unfold q. ring.
  - rewrite <- Hq at 1. field. lra.
Qed.

(** The inner loop of [buildVertices] over one face appends the face's
    grid points, pushed onto the sphere. *)
Lemma buildVertices_face (radius : R) (points : list vec3) (st : vec3 * list R) :
  (3 * Z.of_nat (length points) < 2 ^ 32)%Z ->
  Forall (fun p => 1 <= vx p * vx p + vy p * vy p + vz p * vz p) points ->
  snd (fold_left (buildVerticesStep radius (flatten3 points)) (seq 0 (length points)) st)
  = snd st ++ flatten3 (map (onSphere radius) points).
Proof.
  intros Hsmall Hfar.
  set (step := fun (st : vec3 * list R) (p : vec3) =>
                 (scaleVectors (normalizeVectors p (fst st)) radius,
                  addVertices (scaleVectors (normalizeVectors p (fst st)) radius) (snd st))).
  assert (Hext : fold_left (buildVerticesStep radius (flatten3 points))
                           (seq 0 (length points)) st
                 = fold_left (fun st i => step st (nth i points (vec3_of 0)))
                             (seq 0 (length points)) st).
  { apply fold_left_ext_in. intros st' i Hi. apply in_seq in Hi.
    unfold buildVerticesStep, step. cbv zeta.
    rewrite (readTriple_flatten3 points (vec3_of 0)) by lia. reflexivity. }
  rewrite Hext, (fold_left_seq_nth step (vec3_of 0) points st). clear Hext Hsmall.
  revert st. induction Hfar as [|p points Hp Hfar IH]; intros st.
  - simpl. rewrite app_nil_r. reflexivity.
  - cbn [fold_left]. rewrite IH. unfold step at 1. cbn [snd fst].
    rewrite (normalizeVectors_fresh p (fst st) Hp).
    unfold addVertices. rewrite <- app_assoc. reflexivity.
Qed.

(** [buildVertices] appends, face after face, the grid points of the six
    cube faces pushed onto the sphere; the scratch value does not matter. *)
Lemma buildVertices_points (junk : vec3) (s : Sphere3DMesh) :
  Z.to_nat (verticesPerFace s) = (Z.to_nat (verticesPerRow s) * Z.to_nat (verticesPerRow s))%nat ->
  (3 * Z.of_nat (Z.to_nat (verticesPerFace s)) < 2 ^ 32)%Z ->
  Vertices (buildVertices junk s)
  = Vertices s
    ++ flatten3
         (flat_map
            (fun fs : Face * R =>
               map (onSphere (meshRadius s))
                   (facePoints (fst fs) (snd fs) (Subdivisions s) (Z.to_nat (verticesPerRow s))))
            cubeFaces).
Proof.
  intros Hcount Hsmall. unfold buildVertices. cbn [Vertices].
  assert (Hsigns : Forall (fun fs : Face * R => snd fs = POS \/ snd fs = NEG) cubeFaces).
  { unfold cubeFaces.
    repeat (apply List.Forall_cons; [simpl; auto|]). apply List.Forall_nil. }
  assert (General : forall (faces : list (Face * R)) (st : vec3 * list R),
             Forall (fun fs : Face * R => snd fs = POS \/ snd fs = NEG) faces ->
             snd (fold_left
                    (fun (st : vec3 * list R) (fs : Face * R) =>
                       fold_left
                         (buildVerticesStep (meshRadius s)
                            (buildFaceVertices (fst fs) (snd fs) (Subdivisions s)
                                               (verticesPerRow s)))
                         (seq 0 (Z.to_nat (verticesPerFace s))) st)
                    faces st)
             = snd st
               ++ flatten3
                    (flat_map
                       (fun fs : Face * R =>
                          map (onSphere (meshRadius s))
                              (facePoints (fst fs) (snd fs) (Subdivisions s)
                                          (Z.to_nat (verticesPerRow s))))
                       faces)).
  { induction faces as [|fs faces IH]; intros st Hs.
    - simpl. rewrite app_nil_r. reflexivity.
    - apply Forall_cons in Hs as [Hsign Hs]. cbn [fold_left flat_map].
      rewrite (IH _ Hs). rewrite flatten3_app, app_assoc. f_equal.
      rewrite buildFaceVertices_points, Hcount.
      rewrite <- (facePoints_length (fst fs) (snd fs) (Subdivisions s)
                    (Z.to_nat (verticesPerRow s))).
      apply buildVertices_face; [|apply facePoints_far; exact Hsign].
      rewrite facePoints_length, <- Hcount. exact Hsmall. }
  exact (General cubeFaces (junk, Vertices s) Hsigns).
Qed.

(** Without wrap-around, the six indices of a quad address vertices of
    the mesh. *)
Lemma quadIndices_bound (S0 : Z) (face i j : nat) :
  (1 <= S0)%Z -> (6 * ((S0 + 1) * (S0 + 1)) < 2 ^ 32)%Z ->
  (face < 6)%nat -> (Z.of_nat i < S0)%Z -> (Z.of_nat j < S0)%Z ->
  Forall (fun ix => (0 <= ix < 6 * ((S0 + 1) * (S0 + 1)))%Z)
         (quadIndices (S0 + 1) (umul (Z.of_nat face) ((S0 + 1) * (S0 + 1))) i j).
Proof.
  intros HS Hbig Hf Hi Hj. unfold quadIndices. cbv zeta.
  set (V := (S0 + 1)%Z) in *. set (I := Z.of_nat i) in *. set (J := Z.of_nat j) in *.
  set (F := Z.of_nat face) in *.
  assert (HI : (0 <= I)%Z) by (unfold I; lia).
  assert (HJ : (0 <= J)%Z) by (unfold J; lia).
  assert (HF : (0 <= F <= 5)%Z) by (unfold F; lia).
  assert (HVV : (V * V = S0 * V + V)%Z) by (unfold V; ring).
  assert (HSV : (S0 <= S0 * V)%Z) by (unfold V; nia).
  assert (HIV : (0 <= I * V <= S0 * V - V)%Z) by (unfold V; nia).
  assert (HI1V : ((I + 1) * V = I * V + V)%Z) by ring.
  assert (HFV : (0 <= F * (V * V) <= 5 * (V * V))%Z) by nia.
  assert (E0 : umul F (V * V) = (F * (V * V))%Z) by (apply wrap32_small; lia).
  assert (E1 : umul I V = (I * V)%Z) by (apply wrap32_small; lia).
  assert (E2 : uadd (I * V) J = (I * V + J)%Z) by (apply wrap32_small; lia).
  assert (E3 : uadd (I * V + J) (F * (V * V)) = (I * V + J + F * (V * V))%Z)
    by (apply wrap32_small; lia).
  assert (E4 : uadd (I * V + J + F * (V * V)) 1 = (I * V + J + F * (V * V) + 1)%Z)
    by (apply wrap32_small; lia).
  assert (E5 : uadd I 1 = (I + 1)%Z) by (apply wrap32_small; lia).
  assert (E6 : umul (I + 1) V = ((I + 1) * V)%Z) by (apply wrap32_small; lia).
  assert (E7 : uadd ((I + 1) * V) J = ((I + 1) * V + J)%Z) by (apply wrap32_small; lia).
  assert (E8 : uadd ((I + 1) * V + J) (F * (V * V)) = ((I + 1) * V + J + F * (V * V))%Z)
    by (apply wrap32_small; lia).
  assert (E9 : uadd ((I + 1) * V + J + F * (V * V)) 1 = ((I + 1) * V + J + F * (V * V) + 1)%Z)
    by (apply wrap32_small; lia).
  rewrite E0, E1, E2, E3, E4, E5, E6, E7, E8, E9.
  repeat (apply List.Forall_cons; [lia|]). apply List.Forall_nil.
Qed.

Lemma calculateIndices_spec (s : Sphere3DMesh) (S0 : Z) :
  Subdivisions s = S0 -> verticesPerRow s = (S0 + 1)%Z ->
  verticesPerFace s = ((S0 + 1) * (S0 + 1))%Z ->
  (1 <= S0)%Z -> (6 * ((S0 + 1) * (S0 + 1)) < 2 ^ 32)%Z ->
  exists added,
    Indices (calculateIndices s) = Indices s ++ added
    /\ length added = (36 * (Z.to_nat S0 * Z.to_nat S0))%nat
    /\ Forall (fun ix => (0 <= ix < 6 * ((S0 + 1) * (S0 + 1)))%Z) added.
Proof.
  intros HS HV HF H1 Hbig. unfold calculateIndices. cbn [Indices].
  rewrite HS, HV, HF.
  eexists. split; [reflexivity|]. split.
  - rewrite (flat_map_length_const _ (6 * (Z.to_nat S0 * Z.to_nat S0))%nat).
    + rewrite length_seq. lia.
    + intros face _. rewrite (flat_map_length_const _ (6 * Z.to_nat S0)%nat).
      * rewrite length_seq. lia.
      * intros i _. rewrite (flat_map_length_const _ 6%nat).
        -- rewrite length_seq. lia.
        -- intros j _. reflexivity.
  - apply Forall_forall. intros ix Hix. apply list_elem_of_In in Hix.
    apply in_flat_map in Hix. destruct Hix as (face & Hface & Hix).
    apply in_flat_map in Hix. destruct Hix as (i & Hi & Hix).
    apply in_flat_map in Hix. destruct Hix as (j & Hj & Hix).
    apply in_seq in Hface, Hi, Hj.
    pose proof (quadIndices_bound S0 face i j H1 Hbig) as Hq.
    rewrite Forall_forall in Hq. apply Hq; try lia.
    apply list_elem_of_In. exact Hix.
Qed.

Lemma generateSphere_unfold (junk : vec3) (s : Sphere3DMesh) :
  0 <= meshRadius s ->
  generateSphere junk s
  = calculateIndices
      (buildVertices junk
         (mkSphere3DMesh (generateSphere_Radius (meshRadius s)) (Z.max 1 (Subdivisions s))
            (uadd (Z.max 1 (Subdivisions s)) 1)
            (umul (uadd (Z.max 1 (Subdivisions s)) 1) (uadd (Z.max 1 (Subdivisions s)) 1))
            [] [])).
Proof.
  intros Hr. unfold generateSphere, generateSphere_Radius.
  replace (Rltb (meshRadius s) 0) with false by (symmetry; apply Rltb_false; exact Hr).
  cbv zeta.
  replace (if (Subdivisions s <? 1)%Z then 1%Z else Subdivisions s)
    with (Z.max 1 (Subdivisions s)); [reflexivity|].
  destruct (Subdivisions s <? 1)%Z eqn:E.
  - apply Z.ltb_lt in E. lia.
  - apply Z.ltb_ge in E. lia.
Qed.

Lemma generateSphere_counts (S0 : Z) :
  (1 <= S0)%Z -> (6 * ((S0 + 1) * (S0 + 1)) < 2 ^ 32)%Z ->
  uadd S0 1 = (S0 + 1)%Z /\ umul (S0 + 1) (S0 + 1) = ((S0 + 1) * (S0 + 1))%Z.
Proof.
  intros H1 Hbig. split; apply wrap32_small; nia.
Qed.

(** X22.  Vertices of a generated sphere.  For a non-negative radius and a
    subdivision count small enough for the unsigned arithmetic not to wrap,
    [generateSphere] clamps the radius and the subdivision count (to at
    least 0.0000001 and at least 1), stores 6 (S+1)^2 vertices, three
    floats each, and every stored vertex lies exactly on the sphere of the
    clamped radius.  The result does not depend on what the scratch array
    held. *)
Theorem generateSphere_vertices (junk : vec3) (s : Sphere3DMesh) :
  let S0 := Z.max 1 (Subdivisions s) in
  let s' := generateSphere junk s in
  0 <= meshRadius s ->
  (6 * ((S0 + 1) * (S0 + 1)) < 2 ^ 32)%Z ->
  meshRadius s' = generateSphere_Radius (meshRadius s)
  /\ 0.0000001 <= meshRadius s'
  /\ Subdivisions s' = S0
  /\ verticesPerRow s' = (S0 + 1)%Z
  /\ verticesPerFace s' = ((S0 + 1) * (S0 + 1))%Z
  /\ (exists positions : list vec3,
         Vertices s' = flatten3 positions
         /\ length positions = (6 * (Z.to_nat (S0 + 1) * Z.to_nat (S0 + 1)))%nat
         /\ Forall (fun p => dot p p = meshRadius s' * meshRadius s') positions)
  /\ (forall junk' : vec3, generateSphere junk' s = s').
Proof.
  cbv zeta. intros Hr Hbig.
  set (S0 := Z.max 1 (Subdivisions s)) in *.
  assert (H1 : (1 <= S0)%Z) by (unfold S0; lia).
  destruct (generateSphere_counts S0 H1 Hbig) as [Ea Em].
  assert (Hgen : forall j, generateSphere j s
                 = calculateIndices
                     (buildVertices j
                        (mkSphere3DMesh (generateSphere_Radius (meshRadius s)) S0 (S0 + 1)
                                        ((S0 + 1) * (S0 + 1)) [] []))).
  { intros j. rewrite generateSphere_unfold by exact Hr. fold S0. rewrite Ea, Em. reflexivity. }
  assert (Hverts : forall j,
             Vertices (buildVertices j
                         (mkSphere3DMesh (generateSphere_Radius (meshRadius s)) S0 (S0 + 1)
                                         ((S0 + 1) * (S0 + 1)) [] []))
             = flatten3
                 (flat_map
                    (fun fs : Face * R =>
                       map (onSphere (generateSphere_Radius (meshRadius s)))
                           (facePoints (fst fs) (snd fs) S0 (Z.to_nat (S0 + 1))))
                    cubeFaces)).
  { intros j. rewrite buildVertices_points; [reflexivity| |].
    - cbn [verticesPerFace verticesPerRow]. apply Z2Nat.inj_mul; lia.
    - cbn [verticesPerFace]. rewrite Z2Nat.id by nia. lia. }
  rewrite Hgen.
  split; [reflexivity|]. split.
  { cbn [calculateIndices buildVertices meshRadius].
    destruct (generateSphere_Radius_range (meshRadius s)) as [Hn|Hp]; [|exact Hp].
    destruct (generateSphere_Radius_spec (meshRadius s)) as [_ Hs].
    rewrite Hs in Hn by exact Hr. pose proof (Rmax_l (meshRadius s) 0.0000001). lra. }
  split; [reflexivity|]. split; [reflexivity|]. split; [reflexivity|]. split.
  - eexists. split; [exact (Hverts junk)|]. split.
    + rewrite (flat_map_length_const _ (Z.to_nat (S0 + 1) * Z.to_nat (S0 + 1))%nat).
      * unfold cubeFaces. simpl length. lia.
      * intros fs _. rewrite length_map. apply facePoints_length.
    + apply Forall_forall. intros p Hp. apply list_elem_of_In in Hp.
      apply in_flat_map in Hp. destruct Hp as (fs & Hfs & Hp).
      apply in_map_iff in Hp. destruct Hp as (q & <- & Hq).
      cbn [calculateIndices buildVertices meshRadius].
      apply onSphere_norm.
      assert (Hsign : snd fs = POS \/ snd fs = NEG).
      { unfold cubeFaces in Hfs. simpl in Hfs.
        repeat (destruct Hfs as [<-|Hfs]; [simpl; auto|]). contradiction. }
      pose proof (facePoints_far (fst fs) (snd fs) S0 (Z.to_nat (S0 + 1)) Hsign) as Hfar.
      rewrite Forall_forall in Hfar. apply Hfar. apply list_elem_of_In. exact Hq.
  - intros junk'. rewrite Hgen. unfold calculateIndices, buildVertices.
    cbn [meshRadius Subdivisions verticesPerRow verticesPerFace Vertices Indices].
    f_equal.
    pose proof (Hverts junk) as Hj. pose proof (Hverts junk') as Hj'.
    unfold buildVertices in Hj, Hj'.
    cbn [meshRadius Subdivisions verticesPerRow verticesPerFace Vertices Indices] in Hj, Hj'.
    rewrite Hj, Hj'. reflexivity.
Qed.

Lemma generateSphere_vertices_witness :
  exists positions : list vec3,
    Vertices (generateSphere (vec3_of 0) sphereSeed) = flatten3 positions
    /\ length positions = (6 * (Z.to_nat (16 + 1) * Z.to_nat (16 + 1)))%nat
    /\ Forall (fun p => dot p p = meshRadius (generateSphere (vec3_of 0) sphereSeed)
                                  * meshRadius (generateSphere (vec3_of 0) sphereSeed))
              positions.
Proof.
  apply (generateSphere_vertices (vec3_of 0) sphereSeed).
  - simpl. lra.
  - simpl. lia.
Defined.

Lemma generateSphere_shape (junk : vec3) (s : Sphere3DMesh) :
  let S0 := Z.max 1 (Subdivisions s) in
  let seed := mkSphere3DMesh (generateSphere_Radius (meshRadius s)) S0 (S0 + 1)
                             ((S0 + 1) * (S0 + 1)) [] [] in
  0 <= meshRadius s ->
  (6 * ((S0 + 1) * (S0 + 1)) < 2 ^ 32)%Z ->
  generateSphere junk s = calculateIndices (buildVertices junk seed)
  /\ length (Vertices (buildVertices junk seed))
     = (3 * (6 * (Z.to_nat (S0 + 1) * Z.to_nat (S0 + 1))))%nat.
Proof.
  cbv zeta. intros Hr Hbig.
  set (S0 := Z.max 1 (Subdivisions s)) in *.
  assert (H1 : (1 <= S0)%Z) by (unfold S0; lia).
  destruct (generateSphere_counts S0 H1 Hbig) as [Ea Em].
  split.
  - rewrite generateSphere_unfold by exact Hr. fold S0. rewrite Ea, Em. reflexivity.
  - rewrite buildVertices_points.
    + cbn [Vertices app]. rewrite flatten3_length. f_equal.
      rewrite (flat_map_length_const _ (Z.to_nat (S0 + 1) * Z.to_nat (S0 + 1))%nat).
      * unfold cubeFaces. simpl length. lia.
      * intros fs _. rewrite length_map. apply facePoints_length.
    + cbn [verticesPerFace verticesPerRow]. apply Z2Nat.inj_mul; lia.
    + cbn [verticesPerFace]. rewrite Z2Nat.id by nia. lia.
Qed.

(** X23.  Indices of a generated sphere.  Under the same conditions
    [generateSphere] stores 36 S^2 indices (two triangles per quad, S^2
    quads on each of the six faces), and every index addresses one of the
    stored vertices: its three floats lie inside the vertex array. *)
Theorem generateSphere_indices (junk : vec3) (s : Sphere3DMesh) :
  let S0 := Z.max 1 (Subdivisions s) in
  let s' := generateSphere junk s in
  0 <= meshRadius s ->
  (6 * ((S0 + 1) * (S0 + 1)) < 2 ^ 32)%Z ->
  length (Indices s') = (36 * (Z.to_nat S0 * Z.to_nat S0))%nat
  /\ length (Vertices s') = (18 * (Z.to_nat (S0 + 1) * Z.to_nat (S0 + 1)))%nat
  /\ Forall (fun ix => (0 <= ix /\ 3 * ix + 2 < Z.of_nat (length (Vertices s')))%Z)
            (Indices s').
Proof.
  cbv zeta. intros Hr Hbig.
  destruct (generateSphere_shape junk s Hr Hbig) as [Hgen Hlen].
  set (S0 := Z.max 1 (Subdivisions s)) in *.
  assert (H1 : (1 <= S0)%Z) by (unfold S0; lia).
  set (seed := mkSphere3DMesh (generateSphere_Radius (meshRadius s)) S0 (S0 + 1)
                              ((S0 + 1) * (S0 + 1)) [] []) in *.
  destruct (calculateIndices_spec (buildVertices junk seed) S0) as (added & Hadd & Hcount & Hin);
    try reflexivity; try assumption.
  rewrite Hgen.
  assert (HV : Vertices (calculateIndices (buildVertices junk seed))
               = Vertices (buildVertices junk seed)) by reflexivity.
  rewrite HV, Hlen, Hadd. cbn [buildVertices Indices seed app].
  split; [exact Hcount|]. split; [lia|].
  eapply Forall_impl; [exact Hin|].
  intros ix Hix. cbv beta in Hix |- *. split; [lia|].
  assert (Hn : Z.of_nat (Z.to_nat (S0 + 1) * Z.to_nat (S0 + 1)) = ((S0 + 1) * (S0 + 1))%Z).
  { rewrite Nat2Z.inj_mul, Z2Nat.id by lia. reflexivity. }
  rewrite !Nat2Z.inj_mul. rewrite Nat2Z.inj_mul in Hn. rewrite Hn. simpl Z.of_nat. lia.
Qed.

Lemma generateSphere_indices_witness :
  length (Indices (generateSphere (vec3_of 0) sphereSeed))
  = (36 * (Z.to_nat 16 * Z.to_nat 16))%nat
  /\ length (Vertices (generateSphere (vec3_of 0) sphereSeed))
     = (18 * (Z.to_nat (16 + 1) * Z.to_nat (16 + 1)))%nat
  /\ Forall (fun ix => (0 <= ix
                        /\ 3 * ix + 2
                           < Z.of_nat (length (Vertices (generateSphere (vec3_of 0) sphereSeed))))%Z)
            (Indices (generateSphere (vec3_of 0) sphereSeed)).
Proof.
  apply (generateSphere_indices (vec3_of 0) sphereSeed).
  - simpl. lra.
  - simpl. lia.
Defined.

(** * The mesh of a surface *)

Lemma gridVertices_points (g : Surface3D.t) (rows cols : Z) :
  Surface3D.gridVertices g rows cols = flatten3 (Surface3D.gridPoints g rows cols).
Proof.
  unfold Surface3D.gridVertices, Surface3D.gridPoints. cbv zeta.
  apply (flatten3_grid
           (fun r c : nat =>
              Surface3D.gridPoint (Surface3D.Orientation g) (Surface3D.Distance g)
                (- (Surface3D.Size g * 0.5) + INR c * (Surface3D.Size g / IZR cols))
                (- (Surface3D.Size g * 0.5) + INR r * (Surface3D.Size g / IZR rows)))).
Qed.

Lemma gridPoints_length (g : Surface3D.t) (rows cols : Z) :
  length (Surface3D.gridPoints g rows cols)
  = (Z.to_nat (cols + 1) * Z.to_nat (rows + 1))%nat.
Proof.
  unfold Surface3D.gridPoints. rewrite (flat_map_length_const _ (Z.to_nat (cols + 1))).
  - rewrite length_seq. reflexivity.
  - intros r _. rewrite length_map, length_seq. reflexivity.
Qed.

Lemma gridPoint_normal (o : Surface3D.surfaceOrientation) (distance x z : R) :
  Surface3D.normalCoord o (Surface3D.gridPoint o distance x z) = distance
  /\ Surface3D.planeCoords o (Surface3D.gridPoint o distance x z) = (x, z).
Proof. destruct o; split; reflexivity. Qed.

Lemma gridIndices_bound (rows cols : Z) :
  (1 <= rows)%Z -> (1 <= cols)%Z -> ((rows + 1) * (cols + 1) < 2 ^ 31)%Z ->
  Forall (fun ix => (0 <= ix < (rows + 1) * (cols + 1))%Z) (Surface3D.gridIndices rows cols).
Proof.
  intros Hr Hc Hbig. unfold Surface3D.gridIndices. cbv zeta.
  assert (H31 : (2 ^ 31 < 2 ^ 32)%Z) by lia.
  apply Forall_app. split; apply Forall_forall; intros ix Hix; apply list_elem_of_In in Hix.
  - apply in_flat_map in Hix. destruct Hix as (r & Hr' & Hix).
    apply in_flat_map in Hix. destruct Hix as (c & Hc' & Hix).
    apply in_seq in Hr', Hc'.
    set (VC := (cols + 1)%Z) in *. set (rr := Z.of_nat r) in *. set (cc := Z.of_nat c) in *.
    assert (Hrr : (0 <= rr <= rows)%Z) by (unfold rr; lia).
    assert (Hcc : (0 <= cc <= cols - 1)%Z) by (unfold cc, VC in *; lia).
    assert (Hp : (0 <= rr * VC <= rows * VC)%Z) by (unfold VC; nia).
    assert (Hq : ((rows + 1) * VC = rows * VC + VC)%Z) by ring.
    assert (Ea : wrap32 (rr * VC + cc) = (rr * VC + cc)%Z)
      by (apply wrap32_small; unfold VC in *; lia).
    assert (Eb : uadd (rr * VC + cc) 1 = (rr * VC + cc + 1)%Z)
      by (apply wrap32_small; unfold VC in *; lia).
    rewrite Ea, Eb in Hix. simpl in Hix.
    destruct Hix as [<-|[<-|[]]]; unfold VC in *; lia.
  - apply in_flat_map in Hix. destruct Hix as (c & Hc' & Hix).
    apply in_flat_map in Hix. destruct Hix as (r & Hr' & Hix).
    apply in_seq in Hr', Hc'.
    set (VC := (cols + 1)%Z) in *. set (rr := Z.of_nat r) in *. set (cc := Z.of_nat c) in *.
    assert (Hrr : (0 <= rr <= rows - 1)%Z) by (unfold rr; lia).
    assert (Hcc : (0 <= cc <= cols)%Z) by (unfold cc, VC in *; lia).
    assert (Hp : (0 <= rr * VC <= rows * VC - VC)%Z) by (unfold VC; nia).
    assert (Hp1 : ((rr + 1) * VC = rr * VC + VC)%Z) by ring.
    assert (Hq : ((rows + 1) * VC = rows * VC + VC)%Z) by ring.
    assert (Ea : wrap32 (rr * VC + cc) = (rr * VC + cc)%Z)
      by (apply wrap32_small; unfold VC in *; lia).
    assert (Eb : wrap32 ((rr + 1) * VC + cc) = ((rr + 1) * VC + cc)%Z)
      by (apply wrap32_small; unfold VC in *; lia).
    rewrite Ea, Eb in Hix. simpl in Hix.
    destruct Hix as [<-|[<-|[]]]; unfold VC in *; lia.
Qed.

Lemma gridIndices_length (rows cols : Z) :
  (1 <= rows)%Z -> (1 <= cols)%Z ->
  length (Surface3D.gridIndices rows cols)
  = (2 * (Z.to_nat (rows + 1) * Z.to_nat cols + Z.to_nat (cols + 1) * Z.to_nat rows))%nat.
Proof.
  intros Hr Hc. unfold Surface3D.gridIndices. cbv zeta. rewrite length_app.
  rewrite (flat_map_length_const _ (2 * Z.to_nat cols)%nat).
  - rewrite (flat_map_length_const _ (2 * Z.to_nat rows)%nat).
    + rewrite !length_seq. lia.
    + intros c _. rewrite (flat_map_length_const _ 2%nat).
      * rewrite length_seq. replace (rows + 1 - 1)%Z with rows by lia. lia.
      * intros r _. reflexivity.
  - intros r _. rewrite (flat_map_length_const _ 2%nat).
    + rewrite length_seq. replace (cols + 1 - 1)%Z with cols by lia. lia.
    + intros c _. reflexivity.
Qed.

Lemma intExpressions_inInt (rows cols : Z) :
  (1 <= rows)%Z -> (1 <= cols)%Z ->
  (Surface3D.reserveVertices (rows + 1) (cols + 1) < 2 ^ 31)%Z ->
  (Surface3D.reserveIndices (rows + 1) (cols + 1) < 2 ^ 31)%Z ->
  forallb Surface3D.inInt (Surface3D.intExpressions rows cols) = true.
Proof.
  unfold Surface3D.reserveVertices, Surface3D.reserveIndices, Surface3D.intExpressions.
  cbv zeta. unfold Surface3D.reserveVertices, Surface3D.reserveIndices.
  change (2 ^ 31)%Z with 2147483648%Z. intros Hr Hc Hv Hi.
  assert (In : forall z, (0 <= z < 2147483648)%Z -> Surface3D.inInt z = true).
  { intros z Hz. unfold Surface3D.inInt. change (2 ^ 31)%Z with 2147483648%Z.
    apply andb_true_intro. split; [apply Z.leb_le|apply Z.ltb_lt]; lia. }
  cbn [forallb]. rewrite !In; [reflexivity| | | | | | | | | |]; nia.
Qed.

Lemma generateVertices_wireframe (g : Surface3D.t) :
  let rows := Z.max 1 (Surface3D.GridRows g) in
  let cols := Z.max 1 (Surface3D.GridCols g) in
  Surface3D.Wireframe g = true ->
  (Surface3D.reserveVertices (rows + 1) (cols + 1) < 2 ^ 31)%Z ->
  (Surface3D.reserveIndices (rows + 1) (cols + 1) < 2 ^ 31)%Z ->
  Surface3D.generateVertices g
  = Some (Surface3D.mk (Surface3D.Size g) (Surface3D.Distance g) (Surface3D.Orientation g)
            (Surface3D.gridIndices rows cols) (Surface3D.gridVertices g rows cols)
            true (Surface3D.GridRows g) (Surface3D.GridCols g)).
Proof.
  cbv zeta. intros Hw Hv Hi. unfold Surface3D.generateVertices. rewrite Hw.
  cbn [negb]. cbv zeta. rewrite intExpressions_inInt; [reflexivity|lia|lia|exact Hv|exact Hi].
Qed.

(** X24.  A generated surface is well formed in both modes (filled quad
    and wireframe grid).  In wireframe mode the grid has to be small
    enough for the two [reserve] arguments, [vertRows * vertCols * 3] and
    [(vertRows * (vertCols - 1) + vertCols * (vertRows - 1)) * 2], to fit
    an [int].  Then the generation is defined, the vertex array holds
    whole points, every index addresses one of them, and every point lies
    in the plane at [Distance] along the axis the surface is normal to.
    Size, distance, orientation and the mode are as given. *)
Theorem Surface_generateVertices_sound (g : Surface3D.t) :
  let rows := Z.max 1 (Surface3D.GridRows g) in
  let cols := Z.max 1 (Surface3D.GridCols g) in
  (Surface3D.Wireframe g = true ->
   (Surface3D.reserveVertices (rows + 1) (cols + 1) < 2 ^ 31)%Z
   /\ (Surface3D.reserveIndices (rows + 1) (cols + 1) < 2 ^ 31)%Z) ->
  exists g',
    Surface3D.generateVertices g = Some g'
    /\ (exists positions : list vec3,
          Surface3D.Vertices g' = flatten3 positions
          /\ Forall (fun ix => (0 <= ix < Z.of_nat (length positions))%Z)
                    (Surface3D.Indices g')
          /\ Forall (fun p => Surface3D.normalCoord (Surface3D.Orientation g) p
                              = Surface3D.Distance g) positions)
    /\ Surface3D.Size g' = Surface3D.Size g
    /\ Surface3D.Distance g' = Surface3D.Distance g
    /\ Surface3D.Orientation g' = Surface3D.Orientation g
    /\ Surface3D.Wireframe g' = Surface3D.Wireframe g.
Proof.
  cbv zeta. intros Hbig.
  destruct (Surface3D.Wireframe g) eqn:Hw.
  - destruct (Hbig eq_refl) as [Hv Hi].
    rewrite (generateVertices_wireframe g Hw Hv Hi).
    set (rows := Z.max 1 (Surface3D.GridRows g)) in *.
    set (cols := Z.max 1 (Surface3D.GridCols g)) in *.
    assert (Hr : (1 <= rows)%Z) by (unfold rows; lia).
    assert (Hc : (1 <= cols)%Z) by (unfold cols; lia).
    assert (Hcount : ((rows + 1) * (cols + 1) < 2 ^ 31)%Z).
    { unfold Surface3D.reserveVertices in Hv. nia. }
    eexists. split; [reflexivity|]. cbn.
    split; [|repeat split; auto].
    exists (Surface3D.gridPoints g rows cols).
    split; [apply gridVertices_points|]. split.
    + rewrite gridPoints_length.
      eapply Forall_impl; [apply gridIndices_bound; assumption|].
      intros ix Hix. cbv beta in Hix |- *.
      rewrite Nat2Z.inj_mul, !Z2Nat.id by lia. lia.
    + apply Forall_forall. intros p Hp. apply list_elem_of_In in Hp.
      unfold Surface3D.gridPoints in Hp.
      apply in_flat_map in Hp. destruct Hp as (r & _ & Hp).
      apply in_map_iff in Hp. destruct Hp as (c & <- & _).
      apply gridPoint_normal.
  - unfold Surface3D.generateVertices. rewrite Hw. cbn [negb]. cbv zeta.
    eexists. split; [reflexivity|]. cbn.
    split; [|repeat split; auto].
    exists (Surface3D.quadCorners (Surface3D.Orientation g) (Surface3D.Distance g)
                                  (Surface3D.Size g * 0.5)).
    split; [reflexivity|]. split.
    + destruct (Surface3D.Orientation g); simpl;
        repeat (apply List.Forall_cons; [lia|]); apply List.Forall_nil.
    + destruct (Surface3D.Orientation g); simpl;
        repeat (apply List.Forall_cons; [reflexivity|]); apply List.Forall_nil.
Qed.

Lemma Surface_generateVertices_sound_witness :
  exists g',
    Surface3D.generateVertices (Surface3D.mk 100 (-2) Surface3D.OrientY [] [] true 20 20)
    = Some g'
    /\ (exists positions : list vec3,
          Surface3D.Vertices g' = flatten3 positions
          /\ Forall (fun ix => (0 <= ix < Z.of_nat (length positions))%Z)
                    (Surface3D.Indices g')
          /\ Forall (fun p => Surface3D.normalCoord Surface3D.OrientY p = -2) positions)
    /\ Surface3D.Size g' = 100
    /\ Surface3D.Distance g' = -2
    /\ Surface3D.Orientation g' = Surface3D.OrientY
    /\ Surface3D.Wireframe g' = true.
Proof.
  apply (Surface_generateVertices_sound
           (Surface3D.mk 100 (-2) Surface3D.OrientY [] [] true 20 20)).
  intros _. unfold Surface3D.reserveVertices, Surface3D.reserveIndices. simpl. lia.
Defined.

(** X25.  The wireframe grid.  With R = max(1, GridRows) and
    C = max(1, GridCols), and the two [reserve] arguments fitting an
    [int], the generation is defined and the grid has (R+1)(C+1) vertices
    and 2 ((R+1) C + (C+1) R) indices; the two arrays hold exactly as many
    elements as the source reserves for them; for a non-negative size every
    vertex lies within the square of side [Size] centred at the origin of
    the plane. *)
Theorem Surface_grid_counts (g : Surface3D.t) :
  let rows := Z.max 1 (Surface3D.GridRows g) in
  let cols := Z.max 1 (Surface3D.GridCols g) in
  Surface3D.Wireframe g = true ->
  (Surface3D.reserveVertices (rows + 1) (cols + 1) < 2 ^ 31)%Z ->
  (Surface3D.reserveIndices (rows + 1) (cols + 1) < 2 ^ 31)%Z ->
  0 <= Surface3D.Size g ->
  exists g',
    Surface3D.generateVertices g = Some g'
    /\ length (Surface3D.Indices g')
       = (2 * (Z.to_nat (rows + 1) * Z.to_nat cols + Z.to_nat (cols + 1) * Z.to_nat rows))%nat
    /\ Z.of_nat (length (Surface3D.Indices g'))
       = Surface3D.reserveIndices (rows + 1) (cols + 1)
    /\ Z.of_nat (length (Surface3D.Vertices g'))
       = Surface3D.reserveVertices (rows + 1) (cols + 1)
    /\ exists positions : list vec3,
         Surface3D.Vertices g' = flatten3 positions
         /\ length positions = (Z.to_nat (cols + 1) * Z.to_nat (rows + 1))%nat
         /\ Forall (fun p =>
                      let '(x, z) := Surface3D.planeCoords (Surface3D.Orientation g) p in
                      - (Surface3D.Size g / 2) <= x <= Surface3D.Size g / 2
                      /\ - (Surface3D.Size g / 2) <= z <= Surface3D.Size g / 2)
                   positions.
Proof.
  cbv zeta. intros Hw Hv Hi Hsize.
  rewrite (generateVertices_wireframe g Hw Hv Hi).
  set (rows := Z.max 1 (Surface3D.GridRows g)) in *.
  set (cols := Z.max 1 (Surface3D.GridCols g)) in *.
  assert (Hr : (1 <= rows)%Z) by (unfold rows; lia).
  assert (Hc : (1 <= cols)%Z) by (unfold cols; lia).
  eexists. split; [reflexivity|]. cbn [Surface3D.Indices Surface3D.Vertices].
  split; [apply gridIndices_length; assumption|].
  split.
  { rewrite gridIndices_length by assumption. unfold Surface3D.reserveIndices. nia. }
  split.
  { rewrite gridVertices_points, flatten3_length, gridPoints_length.
    unfold Surface3D.reserveVertices. nia. }
  exists (Surface3D.gridPoints g rows cols).
  split; [apply gridVertices_points|]. split; [apply gridPoints_length|].
  apply Forall_forall. intros p Hp. apply list_elem_of_In in Hp.
  unfold Surface3D.gridPoints in Hp.
  apply in_flat_map in Hp. destruct Hp as (r & Hr' & Hp).
  apply in_map_iff in Hp. destruct Hp as (c & <- & Hc').
  apply in_seq in Hr', Hc'.
  rewrite (proj2 (gridPoint_normal _ _ _ _)).
  assert (HR : 1 <= IZR rows) by (apply IZR_le; exact Hr).
  assert (HC : 1 <= IZR cols) by (apply IZR_le; exact Hc).
  assert (Hrr : 0 <= INR r <= IZR rows).
  { split; [apply pos_INR|]. rewrite INR_IZR_INZ. apply IZR_le. lia. }
  assert (Hcc : 0 <= INR c <= IZR cols).
  { split; [apply pos_INR|]. rewrite INR_IZR_INZ. apply IZR_le. lia. }
  set (S0 := Surface3D.Size g) in *.
  assert (Hdx : 0 <= S0 / IZR cols /\ IZR cols * (S0 / IZR cols) = S0).
  { split; [unfold Rdiv; apply Rmult_le_pos; [lra|left; apply Rinv_0_lt_compat; lra]
           |field; lra]. }
  assert (Hdz : 0 <= S0 / IZR rows /\ IZR rows * (S0 / IZR rows) = S0).
  { split; [unfold Rdiv; apply Rmult_le_pos; [lra|left; apply Rinv_0_lt_compat; lra]
           |field; lra]. }
  destruct Hdx as [Hdx0 Hdx1]. destruct Hdz as [Hdz0 Hdz1].
  set (dx := S0 / IZR cols) in *. set (dz := S0 / IZR rows) in *.
  assert (0 <= INR c * dx <= S0) by nra.
  assert (0 <= INR r * dz <= S0) by nra.
  split; split; lra.
Qed.

Lemma Surface_grid_counts_witness :
  exists g',
    Surface3D.generateVertices (Surface3D.mk 100 (-2) Surface3D.OrientY [] [] true 20 20)
    = Some g'
    /\ length (Surface3D.Indices g')
       = (2 * (Z.to_nat (20 + 1) * Z.to_nat 20 + Z.to_nat (20 + 1) * Z.to_nat 20))%nat
    /\ Z.of_nat (length (Surface3D.Indices g')) = Surface3D.reserveIndices (20 + 1) (20 + 1)
    /\ Z.of_nat (length (Surface3D.Vertices g')) = Surface3D.reserveVertices (20 + 1) (20 + 1).
Proof.
  destruct (Surface_grid_counts (Surface3D.mk 100 (-2) Surface3D.OrientY [] [] true 20 20))
    as (g' & Hg & Hn & Hi & Hv & _).
  - reflexivity.
  - unfold Surface3D.reserveVertices. simpl. lia.
  - unfold Surface3D.reserveIndices. simpl. lia.
  - simpl. lra.
  - exists g'. repeat split; assumption.
Defined.

(** * Camera *)

Lemma dot_cross_left (a b : vec3) : dot (cross a b) a = 0.
Proof. unfold dot, cross; simpl. ring. Qed.

Lemma dot_cross_right (a b : vec3) : dot (cross a b) b = 0.
Proof. unfold dot, cross; simpl. ring. Qed.

Lemma dot_normalize_left (a b : vec3) : dot (normalize a) b = inversesqrt (dot a a) * dot a b.
Proof. unfold normalize, dot, vmuls; simpl. ring. Qed.

Lemma dot_normalize_right (a b : vec3) : dot a (normalize b) = inversesqrt (dot b b) * dot a b.
Proof. unfold normalize, dot, vmuls; simpl. ring. Qed.

Lemma front_unit (yaw pitch : R) :
  dot (mkvec3 (cos yaw * cos pitch) (sin pitch) (sin yaw * cos pitch))
      (mkvec3 (cos yaw * cos pitch) (sin pitch) (sin yaw * cos pitch)) = 1.
Proof.
  unfold dot; simpl.
  pose proof (sin2_cos2 yaw) as Hy. pose proof (sin2_cos2 pitch) as Hp.
  unfold Rsqr in Hy, Hp.
  replace (cos yaw * cos pitch * (cos yaw * cos pitch) + sin pitch * sin pitch
           + sin yaw * cos pitch * (sin yaw * cos pitch))
    with ((sin yaw * sin yaw + cos yaw * cos yaw) * (cos pitch * cos pitch)
          + sin pitch * sin pitch) by ring.
  rewrite Hy. lra.
Qed.

Lemma dot_pos_of_nonzero (v : vec3) : v <> vec3_of 0 -> 0 < dot v v.
Proof.
  intros Hv. destruct v as [x y z]. unfold dot; simpl.
  destruct (Rle_lt_dec (x * x + y * y + z * z) 0) as [Hle|Hlt]; [|exact Hlt].
  exfalso. apply Hv. unfold vec3_of. f_equal; nra.
Qed.

(** Lagrange's identity for the cross product. *)
Lemma dot_cross_cross (a b : vec3) :
  dot (cross a b) (cross a b) = dot a a * dot b b - dot a b * dot a b.
Proof. unfold dot, cross; simpl. ring. Qed.

(** X26.  After [updateCameraVectors], for every yaw and pitch and every
    world-up vector that is not parallel to the new front (their cross
    product is not the zero vector, which [glm::normalize] cannot handle):
    [Front] is the unit vector
    (cos yaw cos pitch, sin pitch, sin yaw cos pitch) of the two angles
    (in degrees), and [Front], [Right] and [Up] are three unit vectors
    orthogonal to one another. *)
Theorem updateCameraVectors_basis (c : Camera.t) :
  let front := mkvec3 (cos (radians (Camera.Yaw c)) * cos (radians (Camera.Pitch c)))
                      (sin (radians (Camera.Pitch c)))
                      (sin (radians (Camera.Yaw c)) * cos (radians (Camera.Pitch c))) in
  let c' := Camera.updateCameraVectors c in
  cross front (Camera.WorldUp c) <> vec3_of 0 ->
  Camera.Front c' = front
  /\ dot (Camera.Front c') (Camera.Front c') = 1
  /\ dot (Camera.Right c') (Camera.Right c') = 1
  /\ dot (Camera.Up c') (Camera.Up c') = 1
  /\ dot (Camera.Right c') (Camera.Front c') = 0
  /\ dot (Camera.Up c') (Camera.Front c') = 0
  /\ dot (Camera.Up c') (Camera.Right c') = 0.
Proof.
  cbv zeta. unfold Camera.updateCameraVectors. cbv zeta.
  cbn [Camera.Front Camera.Right Camera.Up].
  set (front := mkvec3 (cos (radians (Camera.Yaw c)) * cos (radians (Camera.Pitch c)))
                       (sin (radians (Camera.Pitch c)))
                       (sin (radians (Camera.Yaw c)) * cos (radians (Camera.Pitch c)))).
  intros Hcross.
  assert (Hunit : dot front front = 1) by apply front_unit.
  assert (Hn : normalize front = front).
  { unfold normalize, inversesqrt. rewrite Hunit, sqrt_1.
    replace (1 / 1) with 1 by lra. apply vmuls_one. }
  rewrite Hn. split; [reflexivity|]. split; [exact Hunit|].
  set (right := normalize (cross front (Camera.WorldUp c))).
  assert (Hrr : dot right right = 1).
  { unfold right. apply normalize_unit, dot_pos_of_nonzero, Hcross. }
  assert (Hrf : dot right front = 0).
  { unfold right. rewrite dot_normalize_left, dot_cross_left. ring. }
  assert (Hup : dot (cross right front) (cross right front) = 1).
  { rewrite dot_cross_cross, Hrr, Hunit, Hrf. ring. }
  split; [exact Hrr|]. split.
  { apply normalize_unit. rewrite Hup. lra. }
  split; [exact Hrf|]. split.
  - rewrite dot_normalize_left, dot_cross_right. ring.
  - rewrite dot_normalize_left, dot_cross_left. ring.
Qed.

Lemma updateCameraVectors_basis_witness :
  let front := mkvec3 (cos (radians (-90)) * cos (radians 0))
                      (sin (radians 0))
                      (sin (radians (-90)) * cos (radians 0)) in
  let c' := Camera.updateCameraVectors startCamera in
  Camera.Front c' = front
  /\ dot (Camera.Front c') (Camera.Front c') = 1
  /\ dot (Camera.Right c') (Camera.Right c') = 1
  /\ dot (Camera.Up c') (Camera.Up c') = 1
  /\ dot (Camera.Right c') (Camera.Front c') = 0
  /\ dot (Camera.Up c') (Camera.Front c') = 0
  /\ dot (Camera.Up c') (Camera.Right c') = 0.
Proof.
  apply (updateCameraVectors_basis startCamera).
  unfold startCamera, radians; cbn [Camera.Yaw Camera.Pitch Camera.WorldUp].
  replace (-90 * (PI / 180)) with (- (PI / 2)) by lra.
  replace (0 * (PI / 180)) with 0 by lra.
  rewrite cos_neg, sin_neg, cos_PI2, sin_PI2, cos_0, sin_0.
  intros H. apply (f_equal vx) in H. unfold cross, vec3_of in H. simpl in H. lra.
Defined.

(** X27.  [processMouseMovement] with the pitch constraint on: the new
    pitch is the old one plus the scaled offset, clamped to [-89, 89]; the
    new yaw is the old one plus the scaled offset, unclamped; the position
    does not move. *)
Theorem processMouseMovement_clamps (xOffset yOffset : R) (c : Camera.t) :
  let c' := Camera.processMouseMovement xOffset yOffset true c in
  let wanted := Camera.Pitch c + yOffset * Camera.MouseSensitivity c in
  -89 <= Camera.Pitch c' <= 89
  /\ Camera.Pitch c' = Rmax (-89) (Rmin 89 wanted)
  /\ Camera.Yaw c' = Camera.Yaw c + xOffset * Camera.MouseSensitivity c
  /\ Camera.Position c' = Camera.Position c.
Proof.
  cbv zeta. unfold Camera.processMouseMovement, Camera.updateCameraVectors. cbv zeta.
  cbn [Camera.Pitch Camera.Yaw Camera.Position].
  set (w := Camera.Pitch c + yOffset * Camera.MouseSensitivity c).
  assert (Hclamp : (if Rltb (if Rltb 89 w then 89 else w) (-89) then -89
                    else if Rltb 89 w then 89 else w) = Rmax (-89) (Rmin 89 w)).
  { destruct (Rltb 89 w) eqn:E1.
    - apply Rltb_true in E1.
      replace (Rltb 89 (-89)) with false by (symmetry; apply Rltb_false; lra).
      rewrite Rmin_left by lra. rewrite Rmax_right; lra.
    - apply Rltb_false in E1. rewrite Rmin_right by lra.
      destruct (Rltb w (-89)) eqn:E2.
      + apply Rltb_true in E2. rewrite Rmax_left; lra.
      + apply Rltb_false in E2. rewrite Rmax_right; lra. }
  rewrite Hclamp. repeat split; try reflexivity.
  - apply Rmax_l.
  - apply Rmax_lub; [lra|apply Rmin_l].
Qed.

(** X28.  A key press followed by the opposite key press with the same
    frame time puts the camera back where it was; and a key press moves
    the position only. *)
Theorem processKeyboard_undo (direction : Camera.cameraMovement) (deltaTime : R) (c : Camera.t) :
  Camera.processKeyboard (Camera.opposite direction) deltaTime
    (Camera.processKeyboard direction deltaTime c) = c
  /\ Camera.Front (Camera.processKeyboard direction deltaTime c) = Camera.Front c
  /\ Camera.Yaw (Camera.processKeyboard direction deltaTime c) = Camera.Yaw c
  /\ Camera.Pitch (Camera.processKeyboard direction deltaTime c) = Camera.Pitch c.
Proof.
  split; [|destruct direction; repeat split].
  destruct c as [[px py pz] f u r w yaw pitch sp ms].
  destruct direction; unfold Camera.processKeyboard, Camera.set_Position; simpl;
    f_equal; unfold vadd, vsub, vmuls; simpl; apply vec3_ext; simpl; ring.
Qed.

Lemma last_nonempty_default {A : Type} (l : list A) :
  forall (e d d' : A), List.last (e :: l) d = List.last (e :: l) d'.
Proof.
  induction l as [|x l IH]; intros e d d'; [reflexivity|].
  change (List.last (e :: x :: l) d) with (List.last (x :: l) d).
  change (List.last (e :: x :: l) d') with (List.last (x :: l) d').
  apply IH.
Qed.

Lemma handleMouse_yaw_from (events : list (R * R)) :
  forall st : MouseState,
    firstMouse st = false ->
    let final := fold_left handleMouse events st in
    Camera.Yaw (camera final)
    = Camera.Yaw (camera st)
      + (lastX final - lastX st) * Camera.MouseSensitivity (camera st)
    /\ Camera.MouseSensitivity (camera final) = Camera.MouseSensitivity (camera st)
    /\ lastX final = fst (List.last events (lastX st, lastY st)).
Proof.
  induction events as [|[x y] events IH]; intros st Hf; cbv zeta.
  - simpl. repeat split. ring.
  - cbn [fold_left].
    set (st1 := handleMouse st (x, y)).
    assert (H1 : firstMouse st1 = false /\ lastX st1 = x /\ lastY st1 = y
                 /\ Camera.Yaw (camera st1)
                    = Camera.Yaw (camera st) + (x - lastX st) * Camera.MouseSensitivity (camera st)
                 /\ Camera.MouseSensitivity (camera st1) = Camera.MouseSensitivity (camera st)).
    { unfold st1, handleMouse. rewrite Hf. simpl. repeat split. }
    destruct H1 as (Hf1 & Hx1 & Hy1 & Hyaw1 & Hs1).
    destruct (IH st1 Hf1) as (Hyaw & Hs & Hl). cbv zeta in Hyaw, Hs, Hl.
    rewrite Hyaw, Hs, Hl, Hyaw1, Hs1, Hx1, Hy1.
    split; [ring|]. split; [reflexivity|].
    destruct events as [|e events]; [reflexivity|].
    change (List.last ((x, y) :: e :: events) (lastX st, lastY st))
      with (List.last (e :: events) (lastX st, lastY st)).
    rewrite (last_nonempty_default events e (x, y) (lastX st, lastY st)). reflexivity.
Qed.

(** X29.  Mouse look.  The first mouse event after start-up only records
    the cursor position and leaves the camera alone; after any further
    events the yaw has changed by the sensitivity times the horizontal
    distance between the last and the first cursor position, whatever path
    the cursor took in between. *)
Theorem handleMouse_yaw (x1 y1 : R) (events : list (R * R)) (st : MouseState) :
  firstMouse st = true ->
  camera (handleMouse st (x1, y1)) = camera st
  /\ Camera.Yaw (camera (fold_left handleMouse ((x1, y1) :: events) st))
     = Camera.Yaw (camera st)
       + (fst (List.last events (x1, y1)) - x1) * Camera.MouseSensitivity (camera st).
Proof.
  intros Hf.
  assert (H1 : handleMouse st (x1, y1) = mkMouse false x1 y1 (camera st)).
  { unfold handleMouse. rewrite Hf. reflexivity. }
  split; [rewrite H1; reflexivity|].
  cbn [fold_left]. rewrite H1.
  destruct (handleMouse_yaw_from events (mkMouse false x1 y1 (camera st)) eq_refl)
    as (Hyaw & _ & Hl).
  cbv zeta in Hyaw, Hl. rewrite Hyaw, Hl. reflexivity.
Qed.

Lemma handleMouse_yaw_witness :
  Camera.Yaw (camera (fold_left handleMouse [(960, 600); (1000, 580); (940, 610)]
                                (mkMouse true 960 600 demoCamera)))
  = Camera.Yaw (camera (mkMouse true 960 600 demoCamera))
    + (fst (List.last [(1000, 580); (940, 610)] (960, 600)) - 960)
      * Camera.MouseSensitivity (camera (mkMouse true 960 600 demoCamera)).
Proof.
  apply (handleMouse_yaw 960 600 [(1000, 580); (940, 610)] (mkMouse true 960 600 demoCamera)).
  reflexivity.
Defined.

(** * Light sources over many steps *)

Lemma processFrame_light (dt : R) (bodies : list Body) (i : nat) (b : Body) :
  bodies !! i = Some b -> isSource b = true ->
  processFrame dt bodies !! i = Some (set_Force (vec3_of 0) b).
Proof.
  intros Hi Hs. destruct (processFrame_prefix dt bodies (length bodies)) as [_ H].
  destruct (H i b Hi) as (b' & Hb' & _ & Hsrc & _).
  fold (processFrame dt bodies) in Hb'. rewrite Hb', (Hsrc Hs).
  replace (i <? length bodies)%nat with true; [reflexivity|].
  symmetry. apply Nat.ltb_lt. eapply lookup_lt_Some; eauto.
Qed.

(** X30.  A light source is never integrated: after any number [k >= 1]
    of steps it is the body it was with its [Force] cleared, so its
    position, velocity (even a non-zero one), acceleration and accumulator
    are what they were before the first step. *)
Theorem light_never_moves (dt : R) (k : nat) (bodies : list Body) (i : nat) (b : Body) :
  bodies !! i = Some b -> isSource b = true ->
  processFrames k dt bodies !! i
  = Some (match k with O => b | S _ => set_Force (vec3_of 0) b end).
Proof.
  revert bodies b. induction k as [|k IH]; intros bodies b Hi Hs; [exact Hi|].
  simpl processFrames.
  rewrite (IH (processFrame dt bodies) (set_Force (vec3_of 0) b)
              (processFrame_light dt bodies i b Hi Hs) Hs).
  destruct k; reflexivity.
Qed.

Lemma light_never_moves_witness :
  processFrames 3 (1 / 60) sceneWithLight !! 1%nat
  = Some (set_Force (vec3_of 0) staleLight).
Proof.
  apply (light_never_moves (1 / 60) 3 sceneWithLight 1 staleLight); reflexivity.
Defined.

(** * The accumulator is drained into the force *)

(** The iterations of the outer loop for later indices leave the body at
    index [i] alone. *)
Lemma later_iterations_keep (dt : R) (i : nat) (l : list nat) :
  (forall j, In j l -> (i < j)%nat) ->
  forall cur : list Body, fold_left (processBody dt) l cur !! i = cur !! i.
Proof.
  induction l as [|j l IH]; intros Hl cur; simpl; [reflexivity|].
  rewrite IH by (intros j' Hj'; apply Hl; right; exact Hj').
  assert (Hij : (i < j)%nat) by (apply Hl; left; reflexivity).
  destruct (processBody_frame dt j cur) as [Hlen Hstep].
  destruct (cur !! i) as [c|] eqn:Hc.
  - destruct (Hstep i c Hc) as (c' & Hc' & _ & Hlt & _).
    rewrite Hc', (Hlt Hij). reflexivity.
  - apply lookup_ge_None. apply lookup_ge_None in Hc. lia.
Qed.

Lemma processFrame_at (dt : R) (bodies : list Body) (i : nat) :
  (i < length bodies)%nat ->
  processFrame dt bodies !! i
  = processBody dt (fold_left (processBody dt) (seq 0 i) bodies) i !! i.
Proof.
  intros Hi. unfold processFrame.
  replace (length bodies) with (i + (1 + (length bodies - S i)))%nat by lia.
  rewrite seq_app, fold_left_app, seq_app, fold_left_app. simpl seq at 2.
  cbn [fold_left].
  apply later_iterations_keep. intros j Hj. apply in_seq in Hj. lia.
Qed.

(** In its own iteration a non-exempt body receives, as its force, the
    field force plus the accumulator it holds after the gravity loop, and
    its accumulator is cleared. *)
Lemma processBody_drains (dt : R) (i : nat) (cur : list Body) (c : Body) :
  cur !! i = Some c -> isSource c = false ->
  exists pending b',
    gravLoop i (zeroForce i cur) !! i = Some pending
    /\ processBody dt cur i !! i = Some b'
    /\ Force b' = vadd (smulv (Mass b') GRAV_FORCE) (vForceAccumulator pending)
    /\ vForceAccumulator b' = vec3_of 0.
Proof.
  intros Hi Hs. unfold processBody.
  rewrite (zeroForce_lookup i cur c Hi).
  change (isSource (set_Force (vec3_of 0) c)) with (isSource c). rewrite Hs.
  destruct (gravLoop_frame i (zeroForce i cur)) as [Hlen Hg].
  destruct (Hg i _ (zeroForce_lookup i cur c Hi)) as (pending & Hp & _).
  set (l1 := gravLoop i (zeroForce i cur)) in *.
  assert (Hint : integrate dt i l1 !! i = Some (updateState dt (calculateForce pending))).
  { unfold integrate. rewrite Hp.
    apply list_lookup_insert_eq. eapply lookup_lt_Some; eauto. }
  destruct (post_phases Qmotion Qmotion_refl Qmotion_trans Qmotion_surface
              Qmotion_collide Qmotion_decay dt i (integrate dt i l1)) as [_ Hm].
  destruct (Hm i _ Hint) as (b' & Hb' & HF & _ & HM).
  destruct (afterIntegration_after dt i (integrate dt i l1)) as [_ Ha].
  destruct (Ha i _ Hint) as (b'' & Hb'' & _ & _ & Hacc).
  rewrite Hb' in Hb''. injection Hb'' as <-.
  exists pending, b'. split; [exact Hp|]. split; [exact Hb'|]. split.
  - rewrite HF, HM. reflexivity.
  - rewrite Hacc. reflexivity.
Qed.

(** C4, as the code has it.  [calculateForce] moves the accumulator into
    [Force] (added to [Mass * GRAV_FORCE]) and clears it.  In one
    [processFrame], every body that is not a light source ends with a zero
    accumulator, and with a force that is [Mass * GRAV_FORCE] plus the
    accumulator the body held when [calculateForce] was called on it (in
    its own iteration of the outer loop, after its gravity loop): the
    accumulator is drained into the force.  A light source ends with its
    [Force] cleared and all its other fields, the accumulator included, as
    they were. *)
Theorem processFrame_accumulators (dt : R) (bodies : list Body) (i : nat) (b : Body) :
  bodies !! i = Some b ->
  (Force (calculateForce b) = vadd (smulv (Mass b) GRAV_FORCE) (vForceAccumulator b)
   /\ vForceAccumulator (calculateForce b) = vec3_of 0)
  /\ exists b',
       processFrame dt bodies !! i = Some b'
       /\ isSource b' = isSource b
       /\ (isSource b = false ->
           vForceAccumulator b' = vec3_of 0
           /\ exists pending,
                beforeDrain dt bodies i !! i = Some pending
                /\ Force b'
                   = vadd (smulv (Mass b) GRAV_FORCE) (vForceAccumulator pending))
       /\ (isSource b = true -> b' = set_Force (vec3_of 0) b).
Proof.
  intros Hi. split; [apply calculateForce_spec|].
  destruct (processFrame_prefix dt bodies (length bodies)) as [_ H].
  destruct (H i b Hi) as (b' & Hb' & Hs & Hsrc & Hacc).
  change (processFrame dt bodies !! i = Some b') in Hb'.
  assert (Hlt : (i < length bodies)%nat) by (eapply lookup_lt_Some; eauto).
  exists b'. split; [exact Hb'|]. split; [exact Hs|]. split.
  - intros Hns. split; [apply Hacc; auto|].
    destruct (processFrame_prefix dt bodies i) as [_ Hpre].
    destruct (Hpre i b Hi) as (c & Hc & Hcs & _).
    assert (Hcn : isSource c = false) by congruence.
    destruct (processBody_drains dt i _ c Hc Hcn) as (pending & d & Hp & Hd & HF & _).
    rewrite (processFrame_at dt bodies i Hlt), Hd in Hb'. injection Hb' as <-.
    exists pending. split; [exact Hp|]. rewrite HF. f_equal. f_equal.
    destruct (processFrames_fixed dt 1 bodies) as [_ Hfix].
    destruct (Hfix i b Hi) as (d' & Hd' & _ & HM & _).
    simpl processFrames in Hd'.
    rewrite (processFrame_at dt bodies i Hlt), Hd in Hd'. injection Hd' as <-.
    exact HM.
  - intros Hsrc'. rewrite (Hsrc Hsrc').
    replace (i <? length bodies)%nat with true by (symmetry; apply Nat.ltb_lt; lia).
    reflexivity.
Qed.

Lemma processFrame_accumulators_witness :
  exists b',
    processFrame (1 / 60) pendingScene !! 0%nat = Some b'
    /\ vForceAccumulator b' = vec3_of 0
    /\ Force b' = mkvec3 7 0 0.
Proof.
  destruct (processFrame_accumulators (1 / 60) pendingScene 0 pendingBody eq_refl)
    as (_ & b' & Hb' & _ & Hdrain & _).
  destruct (Hdrain eq_refl) as (Hacc & pending & Hp & HF).
  exists b'. split; [exact Hb'|]. split; [exact Hacc|].
  assert (Hpending : beforeDrain (1 / 60) pendingScene 0 !! 0%nat
                     = Some (set_Force (vec3_of 0) pendingBody)) by reflexivity.
  rewrite Hpending in Hp. injection Hp as <-.
  rewrite HF. unfold vadd, smulv, GRAV_FORCE, vec3_of. simpl.
  apply vec3_ext; simpl; lra.
Defined.

(** * The physics never reads the trace *)














(** * The frame loop and the fixed timestep *)


Lemma fixedLoopRounded_step (rnd : Rounding) (fuel : nat) (dt : R) (bodies : list Body)
    (accumulator : R) (steps : nat) :
  dt <= accumulator ->
  fixedLoopRounded rnd (S fuel) dt bodies accumulator steps
  = fixedLoopRounded rnd fuel dt (processFrame dt bodies)
                     (toFloat rnd (accumulator - dt)) (S steps).
Proof.
  intros H. simpl. replace (Rleb dt accumulator) with true; [reflexivity|].
  symmetry. apply Rleb_true. exact H.
Qed.

Lemma fixedLoopRounded_exit (rnd : Rounding) (fuel : nat) (dt : R) (bodies : list Body)
    (accumulator : R) (steps : nat) :
  accumulator < dt ->
  fixedLoopRounded rnd fuel dt bodies accumulator steps = Some (bodies, accumulator, steps).
Proof.
  intros H. destruct fuel; simpl;
    (replace (Rleb dt accumulator) with false; [reflexivity|]);
    symmetry; apply Rleb_false; lra.
Qed.




(** * Runs of the frame loop in exact arithmetic *)

(** Without rounding the loop is [fixedLoop] and the iteration is
    [runFrame]. *)
Lemma fixedLoopRounded_exact (fuel : nat) (dt : R) :
  forall (bodies : list Body) (accumulator : R) (steps : nat),
    fixedLoopRounded exactArithmetic fuel dt bodies accumulator steps
    = fixedLoop fuel dt bodies accumulator steps.
Proof.
  induction fuel as [|fuel IH]; intros bodies acc steps; simpl; [reflexivity|].
  destruct (Rleb dt acc); [apply IH|reflexivity].
Qed.

Lemma runFrameRounded_exact (fuel : nat) (dt : R) (st : AppState) (now : R) :
  option_map fst (runFrameRounded exactArithmetic fuel dt st now) = runFrame fuel dt st now.
Proof.
  unfold runFrameRounded, runFrame. cbn [toFloat toDouble exactArithmetic].
  destruct (120 <? app_timeCount st)%Z; [|reflexivity].
  rewrite fixedLoopRounded_exact.
  destruct (fixedLoop fuel dt _ _ 0) as [[[bodies' acc'] steps']|]; reflexivity.
Qed.

Lemma runFramesRounded_exact (fuel : nat) (dt : R) (nows : list R) :
  forall st : AppState,
    option_map fst (runFramesRounded exactArithmetic fuel dt st nows)
    = runFrames fuel dt st nows.
Proof.
  induction nows as [|now nows IH]; intros st; simpl; [reflexivity|].
  rewrite <- runFrameRounded_exact.
  destruct (runFrameRounded exactArithmetic fuel dt st now) as [[st1 k1]|]; [|reflexivity].
  cbn [option_map fst]. rewrite <- IH.
  destruct (runFramesRounded exactArithmetic fuel dt st1 nows) as [[st2 k2]|]; reflexivity.
Qed.

(** The loop in exact arithmetic runs [k] steps when the accumulator holds
    between [k] and [k + 1] timesteps. *)
Lemma fixedLoopRounded_exact_steps (dt : R) (k : nat) :
  0 < dt ->
  forall (fuel : nat) (bodies : list Body) (accumulator : R) (steps : nat),
    (k <= fuel)%nat ->
    INR k * dt <= accumulator < (INR k + 1) * dt ->
    fixedLoopRounded exactArithmetic fuel dt bodies accumulator steps
    = Some (processFrames k dt bodies, accumulator - INR k * dt, (steps + k)%nat).
Proof.
  intros Hdt. induction k as [|k IH]; intros fuel bodies acc steps Hfuel Hacc.
  - simpl in Hacc. rewrite fixedLoopRounded_exit by lra.
    simpl. rewrite Nat.add_0_r.
    replace (acc - 0 * dt) with acc by lra. reflexivity.
  - destruct fuel as [|fuel]; [lia|]. rewrite S_INR in Hacc.
    pose proof (pos_INR k) as Hk.
    rewrite fixedLoopRounded_step by nra.
    cbn [toFloat exactArithmetic].
    rewrite IH; [|lia|lra].
    simpl processFrames. rewrite S_INR.
    replace (S steps + k)%nat with (steps + S k)%nat by lia.
    replace (acc - dt - INR k * dt) with (acc - (INR k + 1) * dt) by lra.
    reflexivity.
Qed.


Lemma runFrameRounded_exact_open (fuel : nat) (dt : R) (st : AppState) (now : R) (k : nat) :
  0 < dt ->
  (120 < app_timeCount st)%Z ->
  (k <= fuel)%nat ->
  INR k * dt <= app_accumulator st + r_deltaTime st < (INR k + 1) * dt ->
  runFrameRounded exactArithmetic fuel dt st now
  = Some (mkApp (app_accumulator st + r_deltaTime st - INR k * dt)
                (wrap32 (app_timeCount st + 1))
                (map recordTrace
                   (processFrames k dt
                      (if (app_timeCount st =? 363)%Z then scriptedImpulses (app_bodies st)
                       else app_bodies st)))
                (now - r_lastFrame st) now,
          k).
Proof.
  intros Hdt Hc Hfuel Hacc. unfold runFrameRounded.
  replace (120 <? app_timeCount st)%Z with true by (symmetry; apply Z.ltb_lt; exact Hc).
  cbn [toFloat toDouble exactArithmetic].
  rewrite (fixedLoopRounded_exact_steps dt k Hdt) by (try lia; try lra).
  reflexivity.
Qed.



(** More fuel does not change the result of a run that completes. *)
Lemma fixedLoopRounded_more_fuel (rnd : Rounding) (dt : R) (fuel : nat) :
  forall (fuel' : nat) (bodies : list Body) (accumulator : R) (steps : nat)
         (r : list Body * R * nat),
    (fuel <= fuel')%nat ->
    fixedLoopRounded rnd fuel dt bodies accumulator steps = Some r ->
    fixedLoopRounded rnd fuel' dt bodies accumulator steps = Some r.
Proof.
  induction fuel as [|fuel IH]; intros fuel' bodies acc steps r Hle; simpl.
  - destruct (Rleb dt acc) eqn:E; [discriminate|]. intros <-.
    apply fixedLoopRounded_exit. apply Rleb_false in E. lra.
  - destruct fuel' as [|fuel']; [lia|]. simpl.
    destruct (Rleb dt acc); [|auto]. apply IH. lia.
Qed.

Lemma runFrameRounded_more_fuel (rnd : Rounding) (dt : R) (fuel fuel' : nat)
    (st : AppState) (now : R) (r : AppState * nat) :
  (fuel <= fuel')%nat ->
  runFrameRounded rnd fuel dt st now = Some r ->
  runFrameRounded rnd fuel' dt st now = Some r.
Proof.
  intros Hle. unfold runFrameRounded.
  destruct (120 <? app_timeCount st)%Z; [|auto].
  destruct (fixedLoopRounded rnd fuel dt _ _ 0) as [loop|] eqn:Hloop; [|discriminate].
  rewrite (fixedLoopRounded_more_fuel rnd dt fuel fuel' _ _ _ loop Hle Hloop). auto.
Qed.

Lemma runFramesRounded_more_fuel (rnd : Rounding) (dt : R) (fuel fuel' : nat) (nows : list R) :
  (fuel <= fuel')%nat ->
  forall (st : AppState) (r : AppState * nat),
    runFramesRounded rnd fuel dt st nows = Some r ->
    runFramesRounded rnd fuel' dt st nows = Some r.
Proof.
  intros Hle. induction nows as [|now nows IH]; intros st r; simpl; [auto|].
  destruct (runFrameRounded rnd fuel dt st now) as [[st1 k1]|] eqn:Hone; [|discriminate].
  rewrite (runFrameRounded_more_fuel rnd dt fuel fuel' st now _ Hle Hone).
  destruct (runFramesRounded rnd fuel dt st1 nows) as [[st2 k2]|] eqn:Hrest; [|discriminate].
  rewrite (IH st1 _ Hrest). auto.
Qed.

(** Without rounding and with a positive timestep every sequence of
    iterations completes, given enough fuel.  (With rounding the loop need
    not end: a subtraction [accumulator - dt] may round back to
    [accumulator].) *)
Lemma runFramesRounded_completes (dt : R) (nows : list R) :
  0 < dt ->
  forall st : AppState,
    exists (fuel0 : nat) (r : AppState * nat),
      forall fuel, (fuel0 <= fuel)%nat ->
        runFramesRounded exactArithmetic fuel dt st nows = Some r.
Proof.
  intros Hdt. induction nows as [|now nows IH]; intros st.
  - exists 0%nat, (st, 0%nat). intros fuel _. reflexivity.
  - assert (Hone : exists (f1 : nat) (r1 : AppState * nat),
               runFrameRounded exactArithmetic f1 dt st now = Some r1).
    { destruct (enough_fuel dt (app_accumulator st + r_deltaTime st) Hdt) as (f1 & Hf1).
      exists f1. unfold runFrameRounded. cbn [toFloat toDouble exactArithmetic].
      destruct (120 <? app_timeCount st)%Z; [|eexists; reflexivity].
      rewrite fixedLoopRounded_exact.
      destruct (fixedLoop_result dt f1 Hdt
                  (if (app_timeCount st =? 363)%Z then scriptedImpulses (app_bodies st)
                   else app_bodies st)
                  (app_accumulator st + r_deltaTime st) 0 (Hf1 f1 (Nat.le_refl f1)))
        as (k & rest & He & _).
      rewrite He. eexists. reflexivity. }
    destruct Hone as (f1 & [st1 k1] & H1).
    destruct (IH st1) as (f2 & [st2 k2] & H2).
    exists (Nat.max f1 f2), (st2, (k1 + k2)%nat). intros fuel Hfuel. simpl.
    rewrite (runFrameRounded_more_fuel exactArithmetic dt f1 fuel st now _ (ltac:(lia)) H1).
    rewrite (H2 fuel (ltac:(lia))). reflexivity.
Qed.







(** * The accumulator between two frames *)

Lemma fixedLoopRounded_range (rnd : Rounding) (dt : R) (fuel : nat) :
  monotoneRounding rnd ->
  forall (bodies bodies' : list Body) (accumulator rest : R) (steps steps' : nat),
    0 <= accumulator ->
    fixedLoopRounded rnd fuel dt bodies accumulator steps = Some (bodies', rest, steps') ->
    0 <= rest < dt.
Proof.
  intros (Hmono & _ & Hzero & _).
  induction fuel as [|fuel IH]; intros bodies bodies' acc rest steps steps' Hacc; simpl.
  - destruct (Rleb dt acc) eqn:Hle; [discriminate|]. intros H. injection H as _ <- _.
    apply Rleb_false in Hle. lra.
  - destruct (Rleb dt acc) eqn:Hle.
    + apply Rleb_true in Hle. apply IH.
      rewrite <- Hzero. apply Hmono. lra.
    + intros H. injection H as _ <- _. apply Rleb_false in Hle. lra.
Qed.

(** X16.  Between two frames the accumulator stays in range.  When the
    [float] and [double] roundings are monotone and leave zero alone, as
    rounding to nearest is, an iteration of the frame loop that starts with
    a non-negative accumulator and consumes a non-negative frame time
    ends, if it completes, with a non-negative accumulator; when the guard
    [timeCount > 120] holds, what is left is less than [dt]. *)
Theorem accumulator_stays_in_range
    (rnd : Rounding) (fuel : nat) (dt : R) (st st' : AppState) (now : R) (k : nat) :
  monotoneRounding rnd ->
  0 <= app_accumulator st -> 0 <= r_deltaTime st ->
  runFrameRounded rnd fuel dt st now = Some (st', k) ->
  0 <= app_accumulator st'
  /\ ((120 < app_timeCount st)%Z -> app_accumulator st' < dt).
Proof.
  intros Hrnd Hacc Hft. unfold runFrameRounded.
  destruct (120 <? app_timeCount st)%Z eqn:Hguard.
  - set (start := if (app_timeCount st =? 363)%Z then scriptedImpulses (app_bodies st)
                  else app_bodies st).
    destruct (fixedLoopRounded rnd fuel dt start
                (toFloat rnd (toDouble rnd (app_accumulator st + r_deltaTime st))) 0)
      as [[[bodies' rest] steps']|] eqn:Hloop; [|discriminate].
    intros H. injection H as <- _. cbn [app_accumulator].
    assert (Hstart : 0 <= toFloat rnd (toDouble rnd (app_accumulator st + r_deltaTime st))).
    { destruct Hrnd as (Hf & Hd & Hf0 & Hd0).
      rewrite <- Hf0. apply Hf. rewrite <- Hd0. apply Hd. lra. }
    pose proof (fixedLoopRounded_range rnd dt fuel Hrnd _ _ _ _ _ _ Hstart Hloop) as Hrange.
    split; [lra|]. intros _. lra.
  - intros H. injection H as <- _. cbn [app_accumulator].
    split; [exact Hacc|]. intros Hopen. apply Z.ltb_ge in Hguard. lia.
Qed.

Lemma accumulator_stays_in_range_witness :
  exists (st' : AppState),
    runFrameRounded exactArithmetic 5 (1 / 60) (mkApp (1 / 100) 400 sceneWithLight (1 / 25) 1) 2
    = Some (st', 3%nat)
    /\ 0 <= app_accumulator st'
    /\ app_accumulator st' < 1 / 60.
Proof.
  eexists. split.
  - rewrite (runFrameRounded_exact_open 5 (1 / 60) _ _ 3);
      [reflexivity|lra|reflexivity|lia|cbn; lra].
  - destruct (accumulator_stays_in_range exactArithmetic 5 (1 / 60)
                (mkApp (1 / 100) 400 sceneWithLight (1 / 25) 1)
                (mkApp (1 / 100 + 1 / 25 - INR 3 * (1 / 60)) (wrap32 (400 + 1))
                       (map recordTrace (processFrames 3 (1 / 60) sceneWithLight))
                       (2 - 1) 2)
                2 3) as [H0 Hdt].
    + repeat split; intros; cbn; lra.
    + cbn. lra.
    + cbn. lra.
    + rewrite (runFrameRounded_exact_open 5 (1 / 60) _ _ 3);
        [reflexivity|lra|reflexivity|lia|cbn; lra].
    + split; [exact H0|]. apply Hdt. reflexivity.
Defined.

(** * The frame loop in IEEE arithmetic *)

Lemma ln_2_pos : 0 < ln 2.
Proof. rewrite <- ln_1. apply ln_increasing; lra. Qed.

Lemma magnitude_eval (x : R) (e : Z) :
  powerRZ 2 e <= Rabs x < powerRZ 2 (e + 1) -> magnitude x = e.
Proof.
  intros [Hlo Hhi]. unfold magnitude. symmetry. apply Int_part_spec.
  assert (Hp : 0 < powerRZ 2 e) by (apply powerRZ_lt; lra).
  assert (Hx : 0 < Rabs x) by lra.
  assert (H1 : ln (powerRZ 2 e) <= ln (Rabs x)).
  { destruct Hlo as [Hlt|Heq];
      [left; apply ln_increasing; assumption|rewrite Heq; right; reflexivity]. }
  assert (H2 : ln (Rabs x) < ln (powerRZ 2 (e + 1))) by (apply ln_increasing; assumption).
  rewrite powerRZ_Rpower, ln_Rpower in H1 by lra.
  rewrite powerRZ_Rpower, ln_Rpower, plus_IZR in H2 by lra.
  pose proof ln_2_pos as HL.
  set (L := ln 2) in *. set (v := ln (Rabs x)) in *.
  assert (Hq : v / L * L = v) by (field; lra).
  set (q := v / L) in *. split; nra.
Qed.

Lemma nearestEven_eval (y : R) (n : Z) :
  IZR n - 1 / 2 < y < IZR n + 1 / 2 -> nearestEven y = n.
Proof.
  intros [Hlo Hhi]. unfold nearestEven.
  destruct (Rle_lt_dec (IZR n) y) as [Hge|Hlt].
  - destruct (Int_part_frac_part_spec y n (y - IZR n)) as [Hi Hf]; [lra|lra|].
    rewrite <- Hi, <- Hf.
    replace (Rltb (y - IZR n) (1 / 2)) with true by (symmetry; apply Rltb_true; lra).
    reflexivity.
  - destruct (Int_part_frac_part_spec y (n - 1) (y - IZR (n - 1))) as [Hi Hf].
    + rewrite minus_IZR. lra.
    + lra.
    + rewrite <- Hi, <- Hf. rewrite minus_IZR.
      replace (Rltb (y - (IZR n - 1)) (1 / 2)) with false by (symmetry; apply Rltb_false; lra).
      replace (Rltb (1 / 2) (y - (IZR n - 1))) with true by (symmetry; apply Rltb_true; lra).
      lia.
Qed.

Lemma nearestEven_tie (y : R) (m : Z) :
  y = IZR m + 1 / 2 -> nearestEven y = if Z.even m then m else (m + 1)%Z.
Proof.
  intros Hy. unfold nearestEven.
  destruct (Int_part_frac_part_spec y m (1 / 2)) as [Hi Hf]; [lra|lra|].
  rewrite <- Hi, <- Hf.
  replace (Rltb (1 / 2) (1 / 2)) with false by (symmetry; apply Rltb_false; lra).
  reflexivity.
Qed.

Lemma roundTo_magnitude (p k : Z) (x P U : R) :
  P = powerRZ 2 (p - 1) -> U = powerRZ 2 k ->
  P * U <= x < 2 * P * U ->
  0 < U /\ roundTo p x = IZR (nearestEven (x / U)) * U.
Proof.
  intros HP HU Hx.
  assert (HUpos : 0 < U) by (rewrite HU; apply powerRZ_lt; lra).
  assert (HPpos : 0 < P) by (rewrite HP; apply powerRZ_lt; lra).
  assert (Hxpos : 0 < x) by nra.
  split; [exact HUpos|]. unfold roundTo.
  replace (Reqb x 0) with false by (symmetry; apply Reqb_false; lra).
  assert (Hm : magnitude x = (k + (p - 1))%Z).
  { apply magnitude_eval. rewrite Rabs_pos_eq by lra.
    rewrite !powerRZ_add by lra. rewrite <- HU, <- HP. simpl powerRZ. nra. }
  rewrite Hm. replace (k + (p - 1) - (p - 1))%Z with k by lia. rewrite <- HU.
  reflexivity.
Qed.

(** A positive [x] with leading bit [2^(k + p - 1)] that is less than half
    a unit [U = 2^k] away from [n * U] is rounded to [n * U]. *)
Lemma roundTo_eval (p k n : Z) (x P U : R) :
  P = powerRZ 2 (p - 1) -> U = powerRZ 2 k ->
  P * U <= x < 2 * P * U ->
  (IZR n - 1 / 2) * U < x < (IZR n + 1 / 2) * U ->
  roundTo p x = IZR n * U.
Proof.
  intros HP HU Hx Hn.
  destruct (roundTo_magnitude p k x P U HP HU Hx) as [HUpos ->].
  rewrite (nearestEven_eval (x / U) n); [reflexivity|].
  assert (Hq : x / U * U = x) by (field; lra).
  set (q := x / U) in *. split; nra.
Qed.

(** Half way between [m * U] and [(m + 1) * U] the even one is taken. *)
Lemma roundTo_tie (p k m : Z) (x P U : R) :
  P = powerRZ 2 (p - 1) -> U = powerRZ 2 k ->
  P * U <= x < 2 * P * U ->
  x = (IZR m + 1 / 2) * U ->
  roundTo p x = IZR (if Z.even m then m else (m + 1)%Z) * U.
Proof.
  intros HP HU Hx Hm.
  destruct (roundTo_magnitude p k x P U HP HU Hx) as [HUpos ->].
  rewrite (nearestEven_tie (x / U) m); [reflexivity|].
  rewrite Hm. field. lra.
Qed.

Lemma p24 : 8388608 = powerRZ 2 (24 - 1).
Proof. simpl. lra. Qed.

Lemma p53 : 4503599627370496 = powerRZ 2 (53 - 1).
Proof. simpl. lra. Qed.

Lemma u27 : / 134217728 = powerRZ 2 (-27).
Proof. simpl. lra. Qed.

Lemma u28 : / 268435456 = powerRZ 2 (-28).
Proof. simpl. lra. Qed.

Lemma u29 : / 536870912 = powerRZ 2 (-29).
Proof. simpl. lra. Qed.

Lemma u51 : / 2251799813685248 = powerRZ 2 (-51).
Proof. simpl. lra. Qed.

Lemma u56 : / 72057594037927936 = powerRZ 2 (-56).
Proof. simpl. lra. Qed.

Lemma u57 : / 144115188075855872 = powerRZ 2 (-57).
Proof. simpl. lra. Qed.
Lemma fixedLoopRounded_unroll (rnd : Rounding) (fuel : nat) (dt : R) (bodies : list Body)
    (accumulator : R) (steps : nat) (accumulator' : R) :
  dt <= accumulator ->
  toFloat rnd (accumulator - dt) = accumulator' ->
  fixedLoopRounded rnd (S fuel) dt bodies accumulator steps
  = fixedLoopRounded rnd fuel dt (processFrame dt bodies) accumulator' (S steps).
Proof. intros Hle <-. apply fixedLoopRounded_step. exact Hle. Qed.

Lemma runFrameRounded_open (rnd : Rounding) (fuel : nat) (dt : R) (st : AppState) (now : R)
    (accumulator : R) (bodies' : list Body) (rest : R) (k : nat) :
  (120 < app_timeCount st)%Z ->
  (app_timeCount st =? 363)%Z = false ->
  toFloat rnd (toDouble rnd (app_accumulator st + r_deltaTime st)) = accumulator ->
  fixedLoopRounded rnd fuel dt (app_bodies st) accumulator 0 = Some (bodies', rest, k) ->
  runFrameRounded rnd fuel dt st now
  = Some (mkApp rest (wrap32 (app_timeCount st + 1)) (map recordTrace bodies')
                (toFloat rnd (toFloat rnd now - r_lastFrame st)) (toFloat rnd now),
          k).
Proof.
  intros Hguard Hc Hacc Hloop. unfold runFrameRounded.
  replace (120 <? app_timeCount st)%Z with true by (symmetry; apply Z.ltb_lt; exact Hguard).
  rewrite Hc, Hacc, Hloop. reflexivity.
Qed.

Lemma ieee_add_long :
  toFloat ieee (toDouble ieee (0 + 13421773 * / 134217728)) = 13421773 * / 134217728.
Proof.
  cbn [toFloat toDouble ieee].
  replace (roundTo 53 (0 + 13421773 * / 134217728)) with (7205759511166976 * / 72057594037927936)
    by (symmetry; apply (roundTo_eval 53 (-56) 7205759511166976 _ 4503599627370496 (/ 72057594037927936) p53 u56); lra).
  apply (roundTo_eval 24 (-27) 13421773 _ 8388608 (/ 134217728) p24 u27); lra.
Qed.

Lemma ieee_loop_long (bodies : list Body) (steps : nat) :
  fixedLoopRounded ieee 8 (8947849 * / 536870912) bodies (13421773 * / 134217728) steps
  = Some (processFrames 6 (8947849 * / 536870912) bodies, 8388608 * / 2251799813685248, (6 + steps)%nat).
Proof.
  rewrite (fixedLoopRounded_unroll ieee _ _ _ _ _ (11184811 * / 134217728));
    [|lra|apply (roundTo_eval 24 (-27) 11184811 _ 8388608 (/ 134217728) p24 u27); lra].
  rewrite (fixedLoopRounded_unroll ieee _ _ _ _ _ (8947849 * / 134217728));
    [|lra|apply (roundTo_eval 24 (-27) 8947849 _ 8388608 (/ 134217728) p24 u27); lra].
  rewrite (fixedLoopRounded_unroll ieee _ _ _ _ _ (13421774 * / 268435456));
    [|lra|refine (roundTo_tie 24 (-28) 13421773 _ 8388608 (/ 268435456) p24 u28 _ _); lra].
  rewrite (fixedLoopRounded_unroll ieee _ _ _ _ _ (8947850 * / 268435456));
    [|lra|refine (roundTo_tie 24 (-28) 8947849 _ 8388608 (/ 268435456) p24 u28 _ _); lra].
  rewrite (fixedLoopRounded_unroll ieee _ _ _ _ _ (8947851 * / 536870912));
    [|lra|apply (roundTo_eval 24 (-29) 8947851 _ 8388608 (/ 536870912) p24 u29); lra].
  rewrite (fixedLoopRounded_unroll ieee _ _ _ _ _ (8388608 * / 2251799813685248));
    [|lra|apply (roundTo_eval 24 (-51) 8388608 _ 8388608 (/ 2251799813685248) p24 u51); lra].
  rewrite fixedLoopRounded_exit by lra. reflexivity.
Qed.

Lemma ieee_add_short_first :
  toFloat ieee (toDouble ieee (0 + 13421773 * / 268435456)) = 13421773 * / 268435456.
Proof.
  cbn [toFloat toDouble ieee].
  replace (roundTo 53 (0 + 13421773 * / 268435456)) with (7205759511166976 * / 144115188075855872)
    by (symmetry; apply (roundTo_eval 53 (-57) 7205759511166976 _ 4503599627370496 (/ 144115188075855872) p53 u57); lra).
  apply (roundTo_eval 24 (-28) 13421773 _ 8388608 (/ 268435456) p24 u28); lra.
Qed.

Lemma ieee_loop_short_first (bodies : list Body) (steps : nat) :
  fixedLoopRounded ieee 8 (8947849 * / 536870912) bodies (13421773 * / 268435456) steps
  = Some (processFrames 2 (8947849 * / 536870912) bodies, 8947847 * / 536870912, (2 + steps)%nat).
Proof.
  rewrite (fixedLoopRounded_unroll ieee _ _ _ _ _ (8947848 * / 268435456));
    [|lra|refine (roundTo_tie 24 (-28) 8947848 _ 8388608 (/ 268435456) p24 u28 _ _); lra].
  rewrite (fixedLoopRounded_unroll ieee _ _ _ _ _ (8947847 * / 536870912));
    [|lra|apply (roundTo_eval 24 (-29) 8947847 _ 8388608 (/ 536870912) p24 u29); lra].
  rewrite fixedLoopRounded_exit by lra. reflexivity.
Qed.

Lemma ieee_add_short_second :
  toFloat ieee (toDouble ieee (8947847 * / 536870912 + 13421773 * / 268435456)) = 8947848 * / 134217728.
Proof.
  cbn [toFloat toDouble ieee].
  replace (roundTo 53 (8947847 * / 536870912 + 13421773 * / 268435456)) with (4803839450415104 * / 72057594037927936)
    by (symmetry; apply (roundTo_eval 53 (-56) 4803839450415104 _ 4503599627370496 (/ 72057594037927936) p53 u56); lra).
  apply (roundTo_eval 24 (-27) 8947848 _ 8388608 (/ 134217728) p24 u27); lra.
Qed.

Lemma ieee_loop_short_second (bodies : list Body) (steps : nat) :
  fixedLoopRounded ieee 8 (8947849 * / 536870912) bodies (8947848 * / 134217728) steps
  = Some (processFrames 3 (8947849 * / 536870912) bodies, 8947847 * / 536870912, (3 + steps)%nat).
Proof.
  rewrite (fixedLoopRounded_unroll ieee _ _ _ _ _ (13421772 * / 268435456));
    [|lra|refine (roundTo_tie 24 (-28) 13421771 _ 8388608 (/ 268435456) p24 u28 _ _); lra].
  rewrite (fixedLoopRounded_unroll ieee _ _ _ _ _ (8947848 * / 268435456));
    [|lra|refine (roundTo_tie 24 (-28) 8947847 _ 8388608 (/ 268435456) p24 u28 _ _); lra].
  rewrite (fixedLoopRounded_unroll ieee _ _ _ _ _ (8947847 * / 536870912));
    [|lra|apply (roundTo_eval 24 (-29) 8947847 _ 8388608 (/ 536870912) p24 u29); lra].
  rewrite fixedLoopRounded_exit by lra. reflexivity.
Qed.
Lemma ieee_now_long :
  toFloat ieee (13421773 * / 134217728) = 13421773 * / 134217728.
Proof.
  apply (roundTo_eval 24 (-27) 13421773 _ 8388608 (/ 134217728) p24 u27); lra.
Qed.

Lemma ieee_delta_short :
  toFloat ieee (13421773 * / 134217728 - 13421773 * / 268435456) = 13421773 * / 268435456.
Proof.
  apply (roundTo_eval 24 (-28) 13421773 _ 8388608 (/ 268435456) p24 u28); lra.
Qed.

Lemma u58 : / 288230376151711744 = powerRZ 2 (-58).
Proof. simpl. lra. Qed.

(** Rounding changes the number of steps.  On an IEEE 754 machine
    [dt = 1.0 / 60.0], a [double] quotient stored in a [float], is
    8947849 / 2^29, and the [float] nearest to 1/10 is exactly twice the
    [float] nearest to 1/20.  With [timeCount > 120] and no scripted
    impulse, from the accumulator 0 and whatever the bodies, one frame of
    the former runs six steps and two frames of the latter run five: which
    number of steps a total frame time buys depends on how it is split. *)
Lemma rounding_changes_step_count (bodies : list Body) :
  let dt := 8947849 * / 536870912 in
  let long := 13421773 * / 134217728 in
  let short := 13421773 * / 268435456 in
  toFloat ieee (toDouble ieee (1 / 60)) = dt
  /\ roundTo 24 (1 / 10) = long
  /\ roundTo 24 (1 / 20) = short
  /\ long = short + short
  /\ (exists sA : AppState,
         runFramesRounded ieee 8 dt (mkApp 0 400 bodies long long) [long + long]
         = Some (sA, 6%nat))
  /\ (exists sB : AppState,
         runFramesRounded ieee 8 dt (mkApp 0 400 bodies short short) [long; long + short]
         = Some (sB, 5%nat)).
Proof.
  cbv zeta. split.
  { cbn [toFloat toDouble ieee].
    replace (roundTo 53 (1 / 60)) with (4803839602528529 * / 288230376151711744)
      by (symmetry;
          apply (roundTo_eval 53 (-58) 4803839602528529 _ 4503599627370496
                   (/ 288230376151711744) p53 u58); lra).
    apply (roundTo_eval 24 (-29) 8947849 _ 8388608 (/ 536870912) p24 u29); lra. }
  split.
  { apply (roundTo_eval 24 (-27) 13421773 _ 8388608 (/ 134217728) p24 u27); lra. }
  split.
  { apply (roundTo_eval 24 (-28) 13421773 _ 8388608 (/ 268435456) p24 u28); lra. }
  split; [lra|]. split.
  - cbn [runFramesRounded].
    erewrite runFrameRounded_open;
      [|reflexivity|reflexivity|exact ieee_add_long|exact (ieee_loop_long bodies 0)].
    eexists. reflexivity.
  - cbn [runFramesRounded].
    erewrite runFrameRounded_open;
      [|reflexivity|reflexivity|exact ieee_add_short_first
       |exact (ieee_loop_short_first bodies 0)].
    cbn [app_timeCount app_bodies app_accumulator r_deltaTime r_lastFrame].
    rewrite ieee_now_long, ieee_delta_short.
    erewrite runFrameRounded_open;
      [|reflexivity|reflexivity|exact ieee_add_short_second
       |exact (ieee_loop_short_second _ 0)].
    eexists. reflexivity.
Qed.
